(** * Fast-Editor: the LSP transport and request-multiplexing layer

    A shallow embedding of the language-server plumbing of the editor:

    - the main-process side (the [ipcMain] handlers [start-lsp-server],
      [send-lsp-request], [send-lsp-notification], [stop-lsp-server], the
      [stdout] data handler with its Content-Length decode loop, and
      [handleLSPMessage]);
    - the renderer side of [src/renderer/lsp.js] ([getServerForFile],
      [didOpenDocument], [didChangeDocument], [didSaveDocument],
      [didCloseDocument]).

    JavaScript strings are sequences of UTF-16 code units, Buffers are
    sequences of bytes; both are lists of integers here.  Mutable objects
    shared between closures (the [serverData] object captured by the stdout
    handler, the write callback and the timer) live in an explicit heap. *)

From Stdlib Require Import ZArith String Ascii.
From stdpp Require Import base option list gmap strings.

Local Open Scope Z_scope.

(** ** JavaScript strings *)

Module JSString.

(** A UTF-16 code unit, [0 <= c < 65536]. *)
Abbreviation code_unit := Z (only parsing).

(** A JavaScript string value. *)
Abbreviation jsstring := (list code_unit) (only parsing).

(** String literals of the source, written as Rocq strings of ASCII
    characters. *)
Definition js (s : string) : jsstring :=
  map (fun a => Z.of_N (N_of_ascii a)) (list_ascii_of_string s).

(** [s.length] *)
Definition jslength (s : jsstring) : Z := Z.of_nat (length s).

(** [s.startsWith(p)] *)
Fixpoint startsWith (s p : jsstring) {struct p} : bool :=
  match p, s with
  | [], _ => true
  | _ :: _, [] => false
  | c :: p', d :: s' => (c =? d) && startsWith s' p'
  end.

(** [s.endsWith(p)] *)
Definition endsWith (s p : jsstring) : bool :=
  startsWith (reverse s) (reverse p).

(** [s.indexOf(p)]: the index of the first occurrence of [p], or [-1]. *)
Fixpoint indexOf (s p : jsstring) : Z :=
  if startsWith s p then 0
  else match s with
       | [] => -1
       | _ :: s' => let r := indexOf s' p in if r <? 0 then -1 else r + 1
       end.

(** The clamping of an index argument of [substring] to [0 .. s.length]. *)
Definition clamp (s : jsstring) (i : Z) : nat :=
  Z.to_nat (Z.min (Z.max i 0) (jslength s)).

(** [s.substring(a, b)]: both arguments are clamped to the string, and
    swapped when [a > b]. *)
Definition substring (s : jsstring) (a b : Z) : jsstring :=
  let a' := clamp s a in
  let b' := clamp s b in
  let lo := Nat.min a' b' in
  let hi := Nat.max a' b' in
  take (hi - lo)%nat (drop lo s).

(** [s.substring(a)] *)
Definition substring_from (s : jsstring) (a : Z) : jsstring :=
  drop (clamp s a) s.

(** The class [\d] of the regular expressions. *)
Definition is_digit (c : code_unit) : bool := (48 <=? c) && (c <=? 57).

(** The longest prefix of decimal digits, and what follows it. *)
Fixpoint span_digits (s : jsstring) : jsstring * jsstring :=
  match s with
  | c :: s' =>
      if is_digit c
      then let '(ds, r) := span_digits s' in (c :: ds, r)
      else ([], s)
  | [] => ([], [])
  end.

(** [parseInt(ds)] on a string of decimal digits.  The source's number is
    a binary64 float; the model keeps the exact integer, which is the
    same number below [2^53] and compares the same way against a string
    length above it. *)
Definition parseInt (ds : jsstring) : Z :=
  fold_left (fun acc c => 10 * acc + (c - 48)) ds 0.

(** The decimal digits of a natural number, most significant first:
    what a template literal prints for a non-negative integer. *)
Fixpoint digits_fuel (fuel : nat) (n : Z) (acc : jsstring) : jsstring :=
  match fuel with
  | O => acc
  | S fuel' =>
      let acc' := (48 + n mod 10) :: acc in
      if n <? 10 then acc' else digits_fuel fuel' (n / 10) acc'
  end.

Definition decimal (n : Z) : jsstring :=
  digits_fuel (S (Z.to_nat (Z.log2 n))) n [].

(** [String(n)] for an integer [n]. *)
Definition Number_toString (n : Z) : jsstring :=
  if n <? 0 then 45 :: decimal (- n) else decimal n.

End JSString.
Import JSString.

(** ** UTF-8: [Buffer.byteLength], [stream.write(string)] and
       [buffer.toString()] *)

Module Utf8.

Abbreviation byte := Z (only parsing).
Abbreviation bytes := (list byte) (only parsing).

Definition is_high_surrogate (c : code_unit) : bool :=
  (0xD800 <=? c) && (c <=? 0xDBFF).
Definition is_low_surrogate (c : code_unit) : bool :=
  (0xDC00 <=? c) && (c <=? 0xDFFF).

(** The UTF-8 encoding of one code point. *)
Definition encode_code_point (c : Z) : bytes :=
  if c <? 0x80 then [c]
  else if c <? 0x800 then
    [Z.lor 0xC0 (Z.shiftr c 6); Z.lor 0x80 (Z.land c 0x3F)]
  else if c <? 0x10000 then
    [Z.lor 0xE0 (Z.shiftr c 12);
     Z.lor 0x80 (Z.land (Z.shiftr c 6) 0x3F);
     Z.lor 0x80 (Z.land c 0x3F)]
  else
    [Z.lor 0xF0 (Z.shiftr c 18);
     Z.lor 0x80 (Z.land (Z.shiftr c 12) 0x3F);
     Z.lor 0x80 (Z.land (Z.shiftr c 6) 0x3F);
     Z.lor 0x80 (Z.land c 0x3F)].

(** The bytes written for a string (encoding ['utf8'], the default of
    [stream.write] and of [Buffer.byteLength]): a surrogate pair is one
    code point, a lone surrogate is written as U+FFFD. *)
Fixpoint encode (s : jsstring) : bytes :=
  match s with
  | [] => []
  | c :: s' =>
      if is_high_surrogate c then
        match s' with
        | d :: s'' =>
            if is_low_surrogate d
            then encode_code_point
                   (0x10000 + Z.shiftl (c - 0xD800) 10 + (d - 0xDC00))
                 ++ encode s''
            else encode_code_point 0xFFFD ++ encode s'
        | [] => encode_code_point 0xFFFD
        end
      else if is_low_surrogate c then encode_code_point 0xFFFD ++ encode s'
      else encode_code_point c ++ encode s'
  end.

(** [Buffer.byteLength(s)] *)
Definition byteLength (s : jsstring) : Z := Z.of_nat (length (encode s)).

(** The code units of one decoded code point. *)
Definition code_units_of (cp : Z) : jsstring :=
  if cp <? 0x10000 then [cp]
  else [0xD800 + Z.shiftr (cp - 0x10000) 10;
        0xDC00 + Z.land (cp - 0x10000) 0x3FF].

(** The state of the decoder inside a multi-byte sequence: the code point
    so far, the continuation bytes still expected, and the range allowed
    for the next byte. *)
Record pending_seq := PendingSeq {
  seq_cp : Z;
  seq_needed : nat;
  seq_lower : Z;
  seq_upper : Z
}.

(** A byte met outside a sequence: a complete character, the start of a
    sequence, or an invalid byte (decoded as U+FFFD). *)
Definition decode_lead (b : byte) : jsstring * option pending_seq :=
  if b <=? 0x7F then ([b], None)
  else if (0xC2 <=? b) && (b <=? 0xDF) then
    ([], Some (PendingSeq (Z.land b 0x1F) 1 0x80 0xBF))
  else if (0xE0 <=? b) && (b <=? 0xEF) then
    ([], Some (PendingSeq (Z.land b 0xF) 2
                 (if b =? 0xE0 then 0xA0 else 0x80)
                 (if b =? 0xED then 0x9F else 0xBF)))
  else if (0xF0 <=? b) && (b <=? 0xF4) then
    ([], Some (PendingSeq (Z.land b 0x7) 3
                 (if b =? 0xF0 then 0x90 else 0x80)
                 (if b =? 0xF4 then 0x8F else 0xBF)))
  else ([0xFFFD], None).

(** The decoder: ill-formed input never fails, each maximal ill-formed
    part becomes one U+FFFD; so does a sequence cut by the end of the
    buffer. *)
Fixpoint decode_from (st : option pending_seq) (bs : bytes) : jsstring :=
  match bs with
  | [] => match st with Some _ => [0xFFFD] | None => [] end
  | b :: bs' =>
      match st with
      | None =>
          let '(out, st') := decode_lead b in out ++ decode_from st' bs'
      | Some q =>
          if (seq_lower q <=? b) && (b <=? seq_upper q) then
            let cp := Z.lor (Z.shiftl (seq_cp q) 6) (Z.land b 0x3F) in
            match seq_needed q with
            | S (S n) =>
                decode_from (Some (PendingSeq cp (S n) 0x80 0xBF)) bs'
            | _ => code_units_of cp ++ decode_from None bs'
            end
          else
            let '(out, st') := decode_lead b in
            0xFFFD :: out ++ decode_from st' bs'
      end
  end.

(** [data.toString()] of a Buffer. *)
Definition toString (data : bytes) : jsstring := decode_from None data.

End Utf8.

(** ** JSON values, property access, [JSON.parse] and [JSON.stringify] *)

Module JSON.

(** A value produced by [JSON.parse].  A number is kept as the exact
    decimal [m * 10^e] (the source's numbers are binary64 floats, which
    agree with it on the integers below [2^53]); an object is the list of
    its own properties in insertion order. *)
#[warnings="-register-all"] Inductive Json :=
| JNull
| JBool (b : bool)
| JNum (m e : Z)
| JStr (s : jsstring)
| JArr (items : list Json)
| JObj (props : list (jsstring * Json)).

(** A JavaScript value that may be [undefined]. *)
Abbreviation jsvalue := (option Json) (only parsing).
Abbreviation undefined := (@None Json) (only parsing).

(** The integer [n] as a JSON number. *)
Definition JInt (n : Z) : Json := JNum n 0.

(** The value of an own property; a later binding of the same name wins. *)
Fixpoint own_property (props : list (jsstring * Json)) (k : jsstring)
  : jsvalue :=
  match props with
  | [] => undefined
  | (k', v) :: rest =>
      match own_property rest k with
      | Some v' => Some v'
      | None => if bool_decide (k' = k) then Some v else undefined
      end
  end.

(** [v.k], for the property names the source reads ([id], [method],
    [params], [result], [error], [message]): none of them is a property
    of a number, boolean, string or array, and reading a property of
    [null] or [undefined] raises a TypeError ([None]). *)
Definition get_property (v : jsvalue) (k : jsstring) : option jsvalue :=
  match v with
  | None | Some JNull => None
  | Some (JObj props) => Some (own_property props k)
  | Some _ => Some undefined
  end.

(** ToBoolean *)
Definition truthy (v : jsvalue) : bool :=
  match v with
  | None | Some JNull => false
  | Some (JBool b) => b
  | Some (JNum m _) => negb (m =? 0)
  | Some (JStr s) => match s with [] => false | _ => true end
  | Some (JArr _) | Some (JObj _) => true
  end.

(** [v === s] for a string [s]. *)
Definition strict_equals_string (v : jsvalue) (s : jsstring) : bool :=
  match v with
  | Some (JStr s') => bool_decide (s' = s)
  | _ => false
  end.

(** The integer a number denotes, if it denotes one. *)
Definition integer_value (m e : Z) : option Z :=
  if 0 <=? e then Some (m * 10 ^ e)
  else if m mod 10 ^ (- e) =? 0 then Some (m / 10 ^ (- e)) else None.

(** The key of a [Map] whose keys are integers that is the same value
    (SameValueZero) as [v]: only a number is, and only an integer-valued
    one. *)
Definition integer_key (v : jsvalue) : option Z :=
  match v with
  | Some (JNum m e) => integer_value m e
  | _ => None
  end.

(** *** A reference [JSON.parse] *)

Definition is_ws (c : code_unit) : bool :=
  (c =? 32) || (c =? 9) || (c =? 10) || (c =? 13).

Fixpoint skip_ws (s : jsstring) : jsstring :=
  match s with
  | c :: s' => if is_ws c then skip_ws s' else s
  | [] => []
  end.

Definition hex_value (c : code_unit) : option Z :=
  if (48 <=? c) && (c <=? 57) then Some (c - 48)
  else if (65 <=? c) && (c <=? 70) then Some (c - 55)
  else if (97 <=? c) && (c <=? 102) then Some (c - 87)
  else None.

Definition simple_escape (c : code_unit) : option code_unit :=
  if c =? 34 then Some 34        (* quotation mark *)
  else if c =? 92 then Some 92   (* reverse solidus *)
  else if c =? 47 then Some 47   (* solidus *)
  else if c =? 98 then Some 8    (* b: backspace *)
  else if c =? 102 then Some 12  (* f: form feed *)
  else if c =? 110 then Some 10  (* n: line feed *)
  else if c =? 114 then Some 13  (* r: carriage return *)
  else if c =? 116 then Some 9   (* t: tab *)
  else None.

(** The characters of a string literal after its opening quote, and the
    text after its closing quote. *)
Fixpoint parse_string_body (s : jsstring) : option (jsstring * jsstring) :=
  match s with
  | [] => None
  | c :: s' =>
      if c =? 34 then Some ([], s')
      else if c =? 92 then
        match s' with
        | [] => None
        | x :: s'' =>
            if x =? 117 then
              match s'' with
              | h1 :: h2 :: h3 :: h4 :: r =>
                  match hex_value h1, hex_value h2, hex_value h3,
                        hex_value h4, parse_string_body r with
                  | Some a, Some b, Some c', Some d, Some (str, r') =>
                      Some (((a * 16 + b) * 16 + c') * 16 + d :: str, r')
                  | _, _, _, _, _ => None
                  end
              | _ => None
              end
            else
              match simple_escape x, parse_string_body s'' with
              | Some y, Some (str, r') => Some (y :: str, r')
              | _, _ => None
              end
        end
      else if c <? 32 then None
      else match parse_string_body s' with
           | Some (str, r') => Some (c :: str, r')
           | None => None
           end
  end.

(** Trailing zeros of a mantissa with a negative exponent are dropped,
    and an integer is written with exponent [0]. *)
Fixpoint strip_zeros (fuel : nat) (m e : Z) : Z * Z :=
  match fuel with
  | O => (m, e)
  | S fuel' =>
      if (e <? 0) && (m mod 10 =? 0) then strip_zeros fuel' (m / 10) (e + 1)
      else (m, e)
  end.

Definition normal_number (m e : Z) : Z * Z :=
  if m =? 0 then (0, 0)
  else if 0 <=? e then (m * 10 ^ e, 0)
  else strip_zeros (Z.to_nat (- e)) m e.

(** A number literal: an optional minus sign; an integer part, either a
    single zero or digits that do not start with zero; an optional
    fraction, a point and digits; an optional exponent, e or E, an
    optional sign and digits. *)
Definition parse_number (s : jsstring) : option (Json * jsstring) :=
  let '(neg, s1) :=
    match s with
    | c :: r => if c =? 45 then (true, r) else (false, s)
    | [] => (false, s)
    end in
  let '(int, s2) := span_digits s1 in
  match int with
  | [] => None
  | d :: more =>
      if (d =? 48) && negb (bool_decide (more = [])) then None
      else
        let frac_r :=
          match s2 with
          | c :: r =>
              if c =? 46 then
                let '(fr, r') := span_digits r in
                match fr with [] => None | _ => Some (fr, r') end
              else Some ([], s2)
          | [] => Some ([], s2)
          end in
        match frac_r with
        | None => None
        | Some (frac, s3) =>
            let exp_r :=
              match s3 with
              | c :: r =>
                  if (c =? 101) || (c =? 69) then
                    let '(eneg, r1) :=
                      match r with
                      | x :: r' =>
                          if x =? 45 then (true, r')
                          else if x =? 43 then (false, r')
                          else (false, r)
                      | [] => (false, r)
                      end in
                    let '(ex, r2) := span_digits r1 in
                    match ex with
                    | [] => None
                    | _ => Some (if eneg then - parseInt ex else parseInt ex,
                                 r2)
                    end
                  else Some (0, s3)
              | [] => Some (0, s3)
              end in
            match exp_r with
            | None => None
            | Some (ex, s4) =>
                let m := parseInt (int ++ frac) in
                let '(m', e') :=
                  normal_number (if neg then - m else m)
                                (ex - Z.of_nat (length frac)) in
                Some (JNum m' e', s4)
            end
        end
  end.

(** Defining a property: an existing one keeps its place and takes the
    new value. *)
Fixpoint define_property (props : list (jsstring * Json))
    (k : jsstring) (v : Json) : list (jsstring * Json) :=
  match props with
  | [] => [(k, v)]
  | (k', v') :: rest =>
      if bool_decide (k' = k) then (k, v) :: rest
      else (k', v') :: define_property rest k v
  end.

(** One value at the head of [s], and the text after it.  Every value,
    element and member takes one unit of fuel; [parse] gives more units
    than the text has code units. *)
Fixpoint parse_value (fuel : nat) (s : jsstring)
  : option (Json * jsstring) :=
  match fuel with
  | O => None
  | S f =>
      match s with
      | [] => None
      | c :: s' =>
          if c =? 123 then
            match skip_ws s' with
            | x :: r => if x =? 125 then Some (JObj [], r)
                        else parse_members f (x :: r) []
            | [] => None
            end
          else if c =? 91 then
            match skip_ws s' with
            | x :: r => if x =? 93 then Some (JArr [], r)
                        else parse_elements f (x :: r) []
            | [] => None
            end
          else if c =? 34 then
            match parse_string_body s' with
            | Some (str, r) => Some (JStr str, r)
            | None => None
            end
          else if startsWith s (js "true") then Some (JBool true, drop 4 s)
          else if startsWith s (js "false") then Some (JBool false, drop 5 s)
          else if startsWith s (js "null") then Some (JNull, drop 4 s)
          else parse_number s
      end
  end
with parse_elements (fuel : nat) (s : jsstring) (acc : list Json)
  : option (Json * jsstring) :=
  match fuel with
  | O => None
  | S f =>
      match parse_value f s with
      | None => None
      | Some (v, r) =>
          match skip_ws r with
          | c :: r' =>
              if c =? 44 then parse_elements f (skip_ws r') (acc ++ [v])
              else if c =? 93 then Some (JArr (acc ++ [v]), r')
              else None
          | [] => None
          end
      end
  end
with parse_members (fuel : nat) (s : jsstring)
    (acc : list (jsstring * Json)) : option (Json * jsstring) :=
  match fuel with
  | O => None
  | S f =>
      match s with
      | q :: s' =>
          if q =? 34 then
            match parse_string_body s' with
            | None => None
            | Some (k, r) =>
                match skip_ws r with
                | c :: r1 =>
                    if c =? 58 then
                      match parse_value f (skip_ws r1) with
                      | None => None
                      | Some (v, r2) =>
                          match skip_ws r2 with
                          | d :: r3 =>
                              if d =? 44 then
                                parse_members f (skip_ws r3)
                                  (define_property acc k v)
                              else if d =? 125 then
                                Some (JObj (define_property acc k v), r3)
                              else None
                          | [] => None
                          end
                      end
                    else None
                | [] => None
                end
            end
          else None
      | [] => None
      end
  end.

(** [JSON.parse(text)]; [None] stands for the SyntaxError it throws. *)
Definition parse (text : jsstring) : option Json :=
  match parse_value (2 * length text + 2) (skip_ws text) with
  | Some (v, r) => match skip_ws r with [] => Some v | _ => None end
  | None => None
  end.

(** *** A reference [JSON.stringify] *)

Definition hex_digit (n : Z) : code_unit :=
  if n <? 10 then 48 + n else 87 + n.

Definition unicode_escape (c : code_unit) : jsstring :=
  [92; 117; hex_digit (Z.shiftr c 12 mod 16); hex_digit (Z.shiftr c 8 mod 16);
   hex_digit (Z.shiftr c 4 mod 16); hex_digit (c mod 16)].

Definition escape_unit (c : code_unit) : jsstring :=
  if c =? 34 then [92; 34]
  else if c =? 92 then [92; 92]
  else if c =? 8 then [92; 98]
  else if c =? 12 then [92; 102]
  else if c =? 10 then [92; 110]
  else if c =? 13 then [92; 114]
  else if c =? 9 then [92; 116]
  else if c <? 32 then unicode_escape c
  else [c].

(** The escaped characters of a string: a lone surrogate is written as
    a [\u] escape, a surrogate pair as it is. *)
Fixpoint escape (s : jsstring) : jsstring :=
  match s with
  | [] => []
  | c :: s' =>
      if Utf8.is_high_surrogate c then
        match s' with
        | d :: s'' =>
            if Utf8.is_low_surrogate d then c :: d :: escape s''
            else unicode_escape c ++ escape s'
        | [] => unicode_escape c
        end
      else if Utf8.is_low_surrogate c then unicode_escape c ++ escape s'
      else escape_unit c ++ escape s'
  end.

Definition quote (s : jsstring) : jsstring := 34 :: escape s ++ [34].

(** The trailing zeros of a positive integer, counted and removed. *)
Fixpoint drop_zeros (fuel : nat) (m z : Z) : Z * Z :=
  match fuel with
  | O => (m, z)
  | S fuel' =>
      if m mod 10 =? 0 then drop_zeros fuel' (m / 10) (z + 1) else (m, z)
  end.

(** Number::toString of the positive number [m * 10^e]: with [s] the
    digits of the mantissa without trailing zeros, [k] their count and
    [n] the position of the decimal point. *)
Definition positive_to_string (m e : Z) : jsstring :=
  let '(s, z) := drop_zeros (S (Z.to_nat (Z.log2 m))) m 0 in
  let ds := decimal s in
  let k := Z.of_nat (length ds) in
  let n := k + e + z in
  if (k <=? n) && (n <=? 21) then ds ++ replicate (Z.to_nat (n - k)) 48
  else if (0 <? n) && (n <=? 21) then
    take (Z.to_nat n) ds ++ 46 :: drop (Z.to_nat n) ds
  else if (-6 <? n) && (n <=? 0) then
    48 :: 46 :: replicate (Z.to_nat (- n)) 48 ++ ds
  else
    let ex := (if n - 1 <? 0 then 45 else 43) :: decimal (Z.abs (n - 1)) in
    match ds with
    | [d] => d :: 101 :: ex
    | d :: more => d :: 46 :: more ++ 101 :: ex
    | [] => []
    end.

Definition number_to_string (m e : Z) : jsstring :=
  if m =? 0 then [48]
  else if m <? 0 then 45 :: positive_to_string (- m) e
  else positive_to_string m e.

(** [JSON.stringify(v)] *)
Fixpoint stringify (v : Json) : jsstring :=
  match v with
  | JNull => js "null"
  | JBool true => js "true"
  | JBool false => js "false"
  | JNum m e => number_to_string m e
  | JStr s => quote s
  | JArr items =>
      91 :: (fix elements (l : list Json) : jsstring :=
               match l with
               | [] => []
               | x :: [] => stringify x
               | x :: r => stringify x ++ 44 :: elements r
               end) items ++ [93]
  | JObj props =>
      123 :: (fix members (l : list (jsstring * Json)) : jsstring :=
                match l with
                | [] => []
                | (k, x) :: [] => quote k ++ 58 :: stringify x
                | (k, x) :: r => quote k ++ 58 :: stringify x ++ 44 :: members r
                end) props ++ [125]
  end.

End JSON.

(** ** The main process: server registry, message framing, request
       correlation *)

Module Main.
Import JSON.

Definition CRLFCRLF : jsstring := [13; 10; 13; 10].

(** Error values: the ones the source creates, and the two the platform
    raises inside the decode loop. *)
Inductive Error :=
| ServerNotFound (serverId : jsstring)  (* LSP server ... not found *)
| ResponseError (message : jsvalue)     (* new Error(message.error.message) *)
| RequestTimeout                        (* new Error('LSP request timeout') *)
| WriteFailed (code : jsstring)         (* the error given to the write callback *)
| TypeError
| SyntaxError.

Inductive PromiseState :=
| Pending
| Fulfilled (value : jsvalue)
| Rejected (reason : Error).

(** The [{ resolve, reject }] pair kept for a request is the pair of one
    promise, named by its address in the promise store. *)
Abbreviation promise := nat (only parsing).

(** The part of the child process the handlers touch. *)
Record Process := {
  stdin : list jsstring;     (* the strings written, oldest first *)
  killed : bool
}.

(** The [serverData] object of [start-lsp-server]. *)
Record ServerData := {
  process : Process;
  language : jsstring;
  messageBuffer : jsstring;
  pendingRequests : gmap Z promise;   (* requestId -> { resolve, reject } *)
  requestIdCounter : Z
}.

(** The closures [send-lsp-request] leaves behind, with the variables
    they capture: the callback of [stdin.write] and the function given
    to [setTimeout]. *)
Inductive Callback :=
| WriteCallback (serverData : nat) (requestId : Z) (p : promise)
| TimeoutCallback (serverData : nat) (requestId : Z) (p : promise) (ms : Z).

Inductive LogEntry :=
| LogStartFailed (serverId : jsstring)
| LogStartError
| LogParseError (error : Error)
| LogStderr (serverId : jsstring) (text : jsstring).

(** The state of the main process.  [heap] holds the [serverData]
    objects by address: the registry [lspServers] maps a server id to an
    address, and the closures keep the address they captured after the
    registry entry is deleted.  [handled] and [settled] record the calls
    of [handleLSPMessage] and of [resolve] / [reject] in order. *)
Record World := {
  lspServers : gmap jsstring nat;
  lspServerIdCounter : Z;
  heap : list ServerData;
  promises : list PromiseState;
  callbacks : list Callback;
  mainWindow : bool;   (* mainWindow && !mainWindow.isDestroyed() *)
  ipc : list (jsstring * jsvalue);   (* webContents.send('lsp-diagnostics', ..) *)
  console : list LogEntry;           (* console.error *)
  handled : list (jsstring * Json);
  settled : list (promise * PromiseState)
}.

Definition initial_world : World := {|
  lspServers := ∅; lspServerIdCounter := 0; heap := []; promises := [];
  callbacks := []; mainWindow := true; ipc := []; console := [];
  handled := []; settled := []
|}.

Definition with_lspServers (f : gmap jsstring nat -> gmap jsstring nat)
    (w : World) : World :=
  {| lspServers := f (lspServers w);
     lspServerIdCounter := lspServerIdCounter w; heap := heap w;
     promises := promises w; callbacks := callbacks w;
     mainWindow := mainWindow w; ipc := ipc w; console := console w;
     handled := handled w; settled := settled w |}.

Definition with_lspServerIdCounter (n : Z) (w : World) : World :=
  {| lspServers := lspServers w; lspServerIdCounter := n; heap := heap w;
     promises := promises w; callbacks := callbacks w;
     mainWindow := mainWindow w; ipc := ipc w; console := console w;
     handled := handled w; settled := settled w |}.

Definition with_heap (f : list ServerData -> list ServerData)
    (w : World) : World :=
  {| lspServers := lspServers w;
     lspServerIdCounter := lspServerIdCounter w; heap := f (heap w);
     promises := promises w; callbacks := callbacks w;
     mainWindow := mainWindow w; ipc := ipc w; console := console w;
     handled := handled w; settled := settled w |}.

Definition with_promises (f : list PromiseState -> list PromiseState)
    (w : World) : World :=
  {| lspServers := lspServers w;
     lspServerIdCounter := lspServerIdCounter w; heap := heap w;
     promises := f (promises w); callbacks := callbacks w;
     mainWindow := mainWindow w; ipc := ipc w; console := console w;
     handled := handled w; settled := settled w |}.

Definition with_callbacks (f : list Callback -> list Callback)
    (w : World) : World :=
  {| lspServers := lspServers w;
     lspServerIdCounter := lspServerIdCounter w; heap := heap w;
     promises := promises w; callbacks := f (callbacks w);
     mainWindow := mainWindow w; ipc := ipc w; console := console w;
     handled := handled w; settled := settled w |}.

Definition with_ipc (f : list (jsstring * jsvalue) -> list (jsstring * jsvalue))
    (w : World) : World :=
  {| lspServers := lspServers w;
     lspServerIdCounter := lspServerIdCounter w; heap := heap w;
     promises := promises w; callbacks := callbacks w;
     mainWindow := mainWindow w; ipc := f (ipc w); console := console w;
     handled := handled w; settled := settled w |}.

Definition with_console (f : list LogEntry -> list LogEntry)
    (w : World) : World :=
  {| lspServers := lspServers w;
     lspServerIdCounter := lspServerIdCounter w; heap := heap w;
     promises := promises w; callbacks := callbacks w;
     mainWindow := mainWindow w; ipc := ipc w; console := f (console w);
     handled := handled w; settled := settled w |}.

Definition with_handled (f : list (jsstring * Json) -> list (jsstring * Json))
    (w : World) : World :=
  {| lspServers := lspServers w;
     lspServerIdCounter := lspServerIdCounter w; heap := heap w;
     promises := promises w; callbacks := callbacks w;
     mainWindow := mainWindow w; ipc := ipc w; console := console w;
     handled := f (handled w); settled := settled w |}.

Definition with_settled
    (f : list (promise * PromiseState) -> list (promise * PromiseState))
    (w : World) : World :=
  {| lspServers := lspServers w;
     lspServerIdCounter := lspServerIdCounter w; heap := heap w;
     promises := promises w; callbacks := callbacks w;
     mainWindow := mainWindow w; ipc := ipc w; console := console w;
     handled := handled w; settled := f (settled w) |}.

Definition with_process (p : Process) (sd : ServerData) : ServerData :=
  {| process := p; language := language sd;
     messageBuffer := messageBuffer sd;
     pendingRequests := pendingRequests sd;
     requestIdCounter := requestIdCounter sd |}.

Definition with_messageBuffer (b : jsstring) (sd : ServerData) : ServerData :=
  {| process := process sd; language := language sd; messageBuffer := b;
     pendingRequests := pendingRequests sd;
     requestIdCounter := requestIdCounter sd |}.

Definition with_pendingRequests (m : gmap Z promise) (sd : ServerData)
  : ServerData :=
  {| process := process sd; language := language sd;
     messageBuffer := messageBuffer sd; pendingRequests := m;
     requestIdCounter := requestIdCounter sd |}.

Definition with_requestIdCounter (n : Z) (sd : ServerData) : ServerData :=
  {| process := process sd; language := language sd;
     messageBuffer := messageBuffer sd;
     pendingRequests := pendingRequests sd; requestIdCounter := n |}.

(** *** Handlers as state transformers that may throw *)

(** How a handler ends: normally, by an exception, or not at all in the
    model ([Stuck]: a dangling address, or the fuel of the decode loop
    used up; no run of the program corresponds to it). *)
Inductive Completion (A : Type) :=
| Normal (a : A) (w : World)
| Throw (e : Error) (w : World)
| Stuck.
Arguments Normal {A} a w.
Arguments Throw {A} e w.
Arguments Stuck {A}.

Definition JS (A : Type) := World -> Completion A.

Definition ret {A} (a : A) : JS A := fun w => Normal a w.

Definition bind {A B} (c : JS A) (k : A -> JS B) : JS B :=
  fun w => match c w with
           | Normal a w' => k a w'
           | Throw e w' => Throw e w'
           | Stuck => Stuck
           end.

Definition throw {A} (e : Error) : JS A := fun w => Throw e w.

Definition stuck {A} : JS A := fun _ => Stuck.

(** [try { c } catch (error) { h error }] *)
Definition try_catch {A} (c : JS A) (h : Error -> JS A) : JS A :=
  fun w => match c w with
           | Normal a w' => Normal a w'
           | Throw e w' => h e w'
           | Stuck => Stuck
           end.

Definition gets {A} (f : World -> A) : JS A := fun w => Normal (f w) w.

Definition modify (f : World -> World) : JS unit := fun w => Normal tt (f w).

Notation "'let!' x ':=' c 'in' k" := (bind c (fun x => k))
  (at level 10, x name, c at level 100, k at level 200,
   format "'[v' 'let!'  x  ':='  c  'in' '/' k ']'").
Notation "'do!' c 'in' k" := (bind c (fun _ => k))
  (at level 10, c at level 100, k at level 200,
   format "'[v' 'do!'  c  'in' '/' k ']'").

(** Reading and updating the object at an address. *)
Definition deref (serverData : nat) : JS ServerData :=
  fun w => match heap w !! serverData with
           | Some sd => Normal sd w
           | None => Stuck
           end.

Definition update (serverData : nat) (f : ServerData -> ServerData)
  : JS unit :=
  let! sd := deref serverData in
  modify (with_heap (fun h => <[serverData := f sd]> h)).

(** [v.k] *)
Definition property (v : jsvalue) (k : jsstring) : JS jsvalue :=
  match get_property v k with
  | Some x => ret x
  | None => throw TypeError
  end.

(** [new Promise(...)]: a fresh pending promise. *)
Definition new_promise : JS promise :=
  let! p := gets (fun w => length (promises w)) in
  do! modify (with_promises (fun ps => ps ++ [Pending])) in
  ret p.

(** A call of [resolve] or [reject] of promise [p]: it settles the
    promise if it is pending and does nothing otherwise. *)
Definition settle_world (p : promise) (s : PromiseState) (w : World)
  : World :=
  with_promises (fun ps => match ps !! p with
                           | Some Pending => <[p := s]> ps
                           | _ => ps
                           end)
    (with_settled (fun l => l ++ [(p, s)]) w).

Definition settle (p : promise) (s : PromiseState) : JS unit :=
  modify (settle_world p s).

Definition resolve (p : promise) (value : jsvalue) : JS unit :=
  settle p (Fulfilled value).

Definition reject (p : promise) (reason : Error) : JS unit :=
  settle p (Rejected reason).

(** [pendingRequests.get(id)], for any value [id]. *)
Definition Map_get (m : gmap Z promise) (id : jsvalue) : option promise :=
  match integer_key id with
  | Some k => m !! k
  | None => None
  end.

(** [pendingRequests.delete(id)] *)
Definition Map_delete (m : gmap Z promise) (id : jsvalue) : gmap Z promise :=
  match integer_key id with
  | Some k => delete k m
  | None => m
  end.

(** *** [handleLSPMessage] *)

(** The first block of the function, [if (message.id !== undefined)]:
    the response to a request. *)
Definition handle_response (serverData : nat) (message : Json) : JS unit :=
  let! id := property (Some message) (js "id") in
  match id with
  | Some _ =>
      let! sd := deref serverData in
      match Map_get (pendingRequests sd) id with
      | Some pending =>
          do! update serverData (fun sd =>
                with_pendingRequests (Map_delete (pendingRequests sd) id) sd) in
          let! error := property (Some message) (js "error") in
          if truthy error then
            let! msg := property error (js "message") in
            reject pending (ResponseError msg)
          else
            let! result := property (Some message) (js "result") in
            resolve pending result
      | None => ret tt
      end
  | None => ret tt
  end.

(** The second block, [if (message.method)]: the server notifications
    (diagnostics). *)
Definition handle_notification (serverId : jsstring) (message : Json)
  : JS unit :=
  let! method := property (Some message) (js "method") in
  if truthy method then
    if strict_equals_string method (js "textDocument/publishDiagnostics")
    then
      let! open := gets mainWindow in
      if open then
        let! params := property (Some message) (js "params") in
        modify (with_ipc (fun l => l ++ [(serverId, params)]))
      else ret tt
    else ret tt
  else ret tt.

Definition handleLSPMessage (serverId : jsstring) (message : Json)
  : JS unit :=
  do! modify (with_handled (fun l => l ++ [(serverId, message)])) in
  let! found := gets (fun w => lspServers w !! serverId) in
  match found with
  | None => ret tt
  | Some serverData =>
      do! handle_response serverData message in
      handle_notification serverId message
  end.

(** *** The decode loop of the stdout handler *)

(** [s.match(/Content-Length: (\d+)\r\n\r\n/)] at the head of [s]: the
    digits captured by the group.  The digits are followed by a carriage
    return, so the group can only be the longest run of digits. *)
Definition match_here (s : jsstring) : option jsstring :=
  if startsWith s (js "Content-Length: ") then
    let '(ds, rest) := span_digits (drop 16 s) in
    match ds with
    | [] => None
    | _ => if startsWith rest CRLFCRLF then Some ds else None
    end
  else None.

(** [s.match(/Content-Length: (\d+)\r\n\r\n/)]: the first group of the
    leftmost match, [None] for [null]. *)
Fixpoint String_match (s : jsstring) : option jsstring :=
  match match_here s with
  | Some ds => Some ds
  | None => match s with
            | [] => None
            | _ :: s' => String_match s'
            end
  end.

Section Decode.
(** [JSON.parse]; [None] is the SyntaxError it throws. *)
Variable JSON_parse : jsstring -> option Json.

(** The [try] statement of the loop body: the payload is parsed and
    the message handled; whatever is thrown is logged. *)
Definition parse_and_handle (serverId : jsstring)
    (messageContent : jsstring) : JS unit :=
  try_catch
    (match JSON_parse messageContent with
     | Some message => handleLSPMessage serverId message
     | None => throw SyntaxError
     end)
    (fun error =>
       modify (with_console (fun l => l ++ [LogParseError error]))).

(** The [while] loop of the handler; every turn removes at least four
    code units from the buffer, and [fuel] bounds the turns. *)
Fixpoint process_messages (fuel : nat) (serverId : jsstring)
    (serverData : nat) : JS unit :=
  let! sd := deref serverData in
  match String_match (messageBuffer sd) with
  | None => ret tt
  | Some contentLengthMatch =>
      let contentLength := parseInt contentLengthMatch in
      let messageStart := indexOf (messageBuffer sd) CRLFCRLF + 4 in
      if jslength (messageBuffer sd) >=? messageStart + contentLength then
        let messageContent :=
          substring (messageBuffer sd) messageStart
                    (messageStart + contentLength) in
        do! update serverData
              (with_messageBuffer
                 (substring_from (messageBuffer sd)
                                 (messageStart + contentLength))) in
        do! parse_and_handle serverId messageContent in
        match fuel with
        | S fuel' => process_messages fuel' serverId serverData
        | O => stuck
        end
      else ret tt
  end.

(** [lspProcess.stdout.on('data', (data) => ...)] *)
Definition on_stdout_data (serverId : jsstring) (serverData : nat)
    (data : Utf8.bytes) : JS unit :=
  do! update serverData (fun sd =>
        with_messageBuffer (messageBuffer sd ++ Utf8.toString data) sd) in
  let! sd := deref serverData in
  process_messages (length (messageBuffer sd)) serverId serverData.

(** The handler called on the chunks of the stream, one after the
    other. *)
Fixpoint feed_chunks (serverId : jsstring) (serverData : nat)
    (chunks : list Utf8.bytes) : JS unit :=
  match chunks with
  | [] => ret tt
  | data :: chunks' =>
      do! on_stdout_data serverId serverData data in
      feed_chunks serverId serverData chunks'
  end.

End Decode.

(** [lspProcess.stderr.on('data', ...)] *)
Definition on_stderr_data (serverId : jsstring) (data : Utf8.bytes)
  : JS unit :=
  modify (with_console (fun l => l ++ [LogStderr serverId (Utf8.toString data)])).

(** [lspProcess.on('exit', (code) => ...)] *)
Definition on_exit (serverId : jsstring) : JS unit :=
  modify (with_lspServers (delete serverId)).

(** *** The [ipcMain] handlers *)

(** What [spawn] gives: a process with a pid, a process without one, or
    an exception. *)
Inductive SpawnResult := Spawned | NoPid | SpawnThrows.

(** [start-lsp-server]: the new server id, or [None] for [null]. *)
Definition start_lsp_server (language : jsstring) (spawned : SpawnResult)
  : JS (option jsstring) :=
  let! n := gets lspServerIdCounter in
  do! modify (with_lspServerIdCounter (n + 1)) in
  let serverId :=
    js "lsp-" ++ language ++ js "-" ++ Number_toString (n + 1) in
  match spawned with
  | SpawnThrows =>
      do! modify (with_console (fun l => l ++ [LogStartError])) in
      ret None
  | NoPid =>
      do! modify (with_console (fun l => l ++ [LogStartFailed serverId])) in
      ret None
  | Spawned =>
      let serverData := {|
        process := {| stdin := []; killed := false |};
        language := language;
        messageBuffer := [];
        pendingRequests := ∅;
        requestIdCounter := 0
      |} in
      let! address := gets (fun w => length (heap w)) in
      do! modify (with_heap (fun h => h ++ [serverData])) in
      do! modify (with_lspServers (<[serverId := address]>)) in
      ret (Some serverId)
  end.

(** [serverData.process.stdin.write(s)] *)
Definition stdin_write (serverData : nat) (s : jsstring) : JS unit :=
  update serverData (fun sd =>
    with_process {| stdin := stdin (process sd) ++ [s];
                    killed := killed (process sd) |} sd).

Section Encode.
Variable JSON_stringify : Json -> jsstring.

(** The object literals of the two senders; a property whose value is
    [undefined] is left out by [JSON.stringify]. *)
Definition optional_property (k : jsstring) (v : jsvalue)
  : list (jsstring * Json) :=
  match v with Some x => [(k, x)] | None => [] end.

Definition request_object (requestId : Z) (method : jsstring)
    (params : jsvalue) : Json :=
  JObj ([(js "jsonrpc", JStr (js "2.0")); (js "id", JInt requestId);
         (js "method", JStr method)]
        ++ optional_property (js "params") params).

Definition notification_object (method : jsstring) (params : jsvalue)
  : Json :=
  JObj ([(js "jsonrpc", JStr (js "2.0")); (js "method", JStr method)]
        ++ optional_property (js "params") params).

(** The framing of both senders: the header carries the byte length
    of the content. *)
Definition frame (content : jsstring) : jsstring :=
  js "Content-Length: " ++ Number_toString (Utf8.byteLength content)
  ++ CRLFCRLF ++ content.

(** [send-lsp-request]: the promise the handler returns. *)
Definition send_lsp_request (serverId method : jsstring)
    (params : jsvalue) : JS promise :=
  let! found := gets (fun w => lspServers w !! serverId) in
  match found with
  | None => throw (ServerNotFound serverId)
  | Some serverData =>
      let! sd := deref serverData in
      let requestId := requestIdCounter sd + 1 in
      do! update serverData (with_requestIdCounter requestId) in
      let request := request_object requestId method params in
      let requestContent := JSON_stringify request in
      let requestMessage := frame requestContent in
      let! p := new_promise in
      do! update serverData (fun sd =>
            with_pendingRequests (<[requestId := p]> (pendingRequests sd)) sd) in
      do! stdin_write serverData requestMessage in
      do! modify (with_callbacks (fun l =>
            l ++ [WriteCallback serverData requestId p])) in
      do! modify (with_callbacks (fun l =>
            l ++ [TimeoutCallback serverData requestId p 30000])) in
      ret p
  end.

(** [send-lsp-notification] *)
Definition send_lsp_notification (serverId method : jsstring)
    (params : jsvalue) : JS unit :=
  let! found := gets (fun w => lspServers w !! serverId) in
  match found with
  | None => throw (ServerNotFound serverId)
  | Some serverData =>
      let notification := notification_object method params in
      let notificationContent := JSON_stringify notification in
      let notificationMessage := frame notificationContent in
      stdin_write serverData notificationMessage
  end.

(** Several calls of [send-lsp-request] in a row: the promises they
    return, in the order of the calls. *)
Fixpoint send_requests (serverId : jsstring)
    (requests : list (jsstring * jsvalue)) : JS (list promise) :=
  match requests with
  | [] => ret []
  | (method, params) :: rest =>
      let! p := send_lsp_request serverId method params in
      let! ps := send_requests serverId rest in
      ret (p :: ps)
  end.

End Encode.

(** [handleLSPMessage] called on messages one after the other. *)
Fixpoint handle_messages (serverId : jsstring) (messages : list Json)
  : JS unit :=
  match messages with
  | [] => ret tt
  | message :: rest =>
      do! handleLSPMessage serverId message in
      handle_messages serverId rest
  end.

(** The callback of [stdin.write], called with the write error if there
    is one. *)
Definition write_callback (serverData : nat) (requestId : Z) (p : promise)
    (error : option Error) : JS unit :=
  match error with
  | Some e =>
      do! update serverData (fun sd =>
            with_pendingRequests (delete requestId (pendingRequests sd)) sd) in
      reject p e
  | None => ret tt
  end.

(** The function given to [setTimeout]. *)
Definition timeout_callback (serverData : nat) (requestId : Z) (p : promise)
  : JS unit :=
  let! sd := deref serverData in
  match pendingRequests sd !! requestId with
  | Some _ =>
      do! update serverData (fun sd =>
            with_pendingRequests (delete requestId (pendingRequests sd)) sd) in
      reject p RequestTimeout
  | None => ret tt
  end.

(** Running a closure left by [send-lsp-request]. *)
Definition run_callback (cb : Callback) (error : option Error) : JS unit :=
  match cb with
  | WriteCallback serverData requestId p =>
      write_callback serverData requestId p error
  | TimeoutCallback serverData requestId p _ =>
      timeout_callback serverData requestId p
  end.

(** [stop-lsp-server] *)
Definition stop_lsp_server (serverId : jsstring) : JS unit :=
  let! found := gets (fun w => lspServers w !! serverId) in
  match found with
  | Some serverData =>
      do! update serverData (fun sd =>
            with_process {| stdin := stdin (process sd); killed := true |} sd) in
      modify (with_lspServers (delete serverId))
  | None => ret tt
  end.

End Main.

(** ** The renderer: document sessions of [src/renderer/lsp.js] *)

Module Renderer.
Import JSON.

(** An entry of [LSP_CONFIGS]. *)
Record Config := {
  name : jsstring;
  command : jsstring;
  fileExtensions : list jsstring;
  languageId : jsstring
}.

(** A value of the [languageServers] map; [server_id] is its [id]. *)
Record Server := {
  server_id : jsstring;
  config : Config;
  capabilities : jsvalue
}.

(** A call [window.api.sendLSPNotification(serverId, method, params)]. *)
Record Notification := {
  to_server : jsstring;
  method : jsstring;
  params : Json
}.

(** The module-level variables, and the calls made so far.  A [Map] is
    iterated in insertion order, so [languageServers] is a list of
    entries. *)
Record State := {
  languageServers : list (jsstring * Server);      (* language -> server *)
  documentVersions : gmap jsstring Z;              (* file path -> version *)
  sent : list Notification
}.

Definition with_documentVersions (f : gmap jsstring Z -> gmap jsstring Z)
    (st : State) : State :=
  {| languageServers := languageServers st;
     documentVersions := f (documentVersions st); sent := sent st |}.

Definition sendLSPNotification (serverId method : jsstring) (params : Json)
    (st : State) : State :=
  {| languageServers := languageServers st;
     documentVersions := documentVersions st;
     sent := sent st ++ [{| to_server := serverId; method := method;
                            params := params |}] |}.

(** [getServerForFile]: the first server, in the order of the map, one
    of whose extensions ends the path; [None] is [null]. *)
Fixpoint first_server (entries : list (jsstring * Server))
    (filePath : jsstring) : option Server :=
  match entries with
  | [] => None
  | (_, server) :: rest =>
      if existsb (fun ext => endsWith filePath ext)
                 (fileExtensions (config server))
      then Some server
      else first_server rest filePath
  end.

Definition getServerForFile (st : State) (filePath : jsstring)
  : option Server :=
  match filePath with
  | [] => None
  | _ => first_server (languageServers st) filePath
  end.

(** The template literal that makes the uri of a path. *)
Definition uri_of (filePath : jsstring) : Json :=
  JStr (js "file://" ++ filePath).

Definition didOpenDocument (filePath languageId content : jsstring)
    (st : State) : State :=
  match getServerForFile st filePath with
  | None => st
  | Some server =>
      let version := 1 in
      let st := with_documentVersions (<[filePath := version]>) st in
      sendLSPNotification (server_id server) (js "textDocument/didOpen")
        (JObj [(js "textDocument",
                JObj [(js "uri", uri_of filePath);
                      (js "languageId", JStr languageId);
                      (js "version", JInt version);
                      (js "text", JStr content)])]) st
  end.

(** [documentVersions.get(filePath) || 1] *)
Definition version_or_1 (st : State) (filePath : jsstring) : Z :=
  match documentVersions st !! filePath with
  | Some v => if v =? 0 then 1 else v
  | None => 1
  end.

Definition didChangeDocument (filePath content : jsstring) (st : State)
  : State :=
  match getServerForFile st filePath with
  | None => st
  | Some server =>
      let version := version_or_1 st filePath in
      let version := version + 1 in
      let st := with_documentVersions (<[filePath := version]>) st in
      sendLSPNotification (server_id server) (js "textDocument/didChange")
        (JObj [(js "textDocument",
                JObj [(js "uri", uri_of filePath);
                      (js "version", JInt version)]);
               (js "contentChanges",
                JArr [JObj [(js "text", JStr content)]])]) st
  end.

Definition didSaveDocument (filePath content : jsstring) (st : State)
  : State :=
  match getServerForFile st filePath with
  | None => st
  | Some server =>
      sendLSPNotification (server_id server) (js "textDocument/didSave")
        (JObj [(js "textDocument", JObj [(js "uri", uri_of filePath)]);
               (js "text", JStr content)]) st
  end.

Definition didCloseDocument (filePath : jsstring) (st : State) : State :=
  match getServerForFile st filePath with
  | None => st
  | Some server =>
      let st := with_documentVersions (delete filePath) st in
      sendLSPNotification (server_id server) (js "textDocument/didClose")
        (JObj [(js "textDocument", JObj [(js "uri", uri_of filePath)])]) st
  end.

(** The notification a [didChange] call sends for a version. *)
Definition didChange_notification (server : Server)
    (filePath content : jsstring) (version : Z) : Notification :=
  {| to_server := server_id server;
     method := js "textDocument/didChange";
     params := JObj [(js "textDocument",
                      JObj [(js "uri", uri_of filePath);
                            (js "version", JInt version)]);
                     (js "contentChanges",
                      JArr [JObj [(js "text", JStr content)]])] |}.

Definition didOpen_notification (server : Server)
    (filePath languageId content : jsstring) (version : Z) : Notification :=
  {| to_server := server_id server;
     method := js "textDocument/didOpen";
     params := JObj [(js "textDocument",
                      JObj [(js "uri", uri_of filePath);
                            (js "languageId", JStr languageId);
                            (js "version", JInt version);
                            (js "text", JStr content)])] |}.

Definition didClose_notification (server : Server) (filePath : jsstring)
  : Notification :=
  {| to_server := server_id server;
     method := js "textDocument/didClose";
     params := JObj [(js "textDocument",
                      JObj [(js "uri", uri_of filePath)])] |}.

(** The [version] of the [textDocument] a notification carries. *)
Definition version_of (n : Notification) : jsvalue :=
  match get_property (Some (params n)) (js "textDocument") with
  | Some doc => match get_property doc (js "version") with
                | Some v => v
                | None => undefined
                end
  | None => undefined
  end.

End Renderer.

(** ** More operations on JavaScript strings *)

Module JSText.
Import JSString.

(** The white space and line terminators of the language: what [trim]
    removes and the class [\s] matches. *)
Definition is_space (c : code_unit) : bool :=
  ((9 <=? c) && (c <=? 13)) || (c =? 32) || (c =? 0xA0) || (c =? 0x1680)
  || ((0x2000 <=? c) && (c <=? 0x200A)) || (c =? 0x2028) || (c =? 0x2029)
  || (c =? 0x202F) || (c =? 0x205F) || (c =? 0x3000) || (c =? 0xFEFF).

(** [s.trimStart()], [s.trimEnd()], [s.trim()] *)
Fixpoint trimStart (s : jsstring) : jsstring :=
  match s with
  | c :: s' => if is_space c then trimStart s' else s
  | [] => []
  end.

Definition trimEnd (s : jsstring) : jsstring :=
  reverse (trimStart (reverse s)).

Definition trim (s : jsstring) : jsstring := trimEnd (trimStart s).

(** [s.includes(p)] *)
Definition includes (s p : jsstring) : bool := 0 <=? indexOf s p.

(** [s.split(sep)] for a separator that is not empty: the occurrences
    of [sep] are found from the left and do not overlap.  [skip] counts
    the code units of a separator still to pass, [cur] is the piece
    being read, in reverse. *)
Fixpoint split_go (sep : jsstring) (skip : nat) (cur s : jsstring)
  : list jsstring :=
  match s with
  | [] => [reverse cur]
  | c :: s' =>
      match skip with
      | S k => split_go sep k cur s'
      | O =>
          if startsWith s sep
          then reverse cur :: split_go sep (length sep - 1) [] s'
          else split_go sep 0 (c :: cur) s'
      end
  end.

(** [s.split(sep)]; with the empty separator, the code units of [s]. *)
Definition split (s sep : jsstring) : list jsstring :=
  match sep with
  | [] => map (fun c => [c]) s
  | _ => split_go sep 0 [] s
  end.

(** [a.pop()] of an array of strings that is not empty; [split] gives
    no empty array. *)
Definition pop (a : list jsstring) : jsstring := List.last a [].


End JSText.

(** ** The git handlers of the main process *)

Module Git.
Import JSString JSText.

(** The [status] object of [get-git-status]; an element of [renamed]
    is the pair of [from] and [to]. *)
Record GitStatus := {
  modified : list jsstring;
  added : list jsstring;
  deleted : list jsstring;
  untracked : list jsstring;
  renamed : list (jsstring * jsstring)
}.

Definition empty_status : GitStatus :=
  {| modified := []; added := []; deleted := []; untracked := [];
     renamed := [] |}.

(** [parts[1] || filePath] *)
Definition second_or (parts : list jsstring) (filePath : jsstring)
  : jsstring :=
  match parts !! 1%nat with
  | Some (c :: s) => c :: s
  | _ => filePath
  end.

(** The body of the loop over the lines of [git status --porcelain]. *)
Definition status_line (status : GitStatus) (line : jsstring) : GitStatus :=
  let statusCode := substring line 0 2 in
  let filePath := trim (substring_from line 3) in
  let code_is c := bool_decide (statusCode = js c) in
  if code_is " M" || code_is "M " || code_is "MM" then
    {| modified := modified status ++ [filePath]; added := added status;
       deleted := deleted status; untracked := untracked status;
       renamed := renamed status |}
  else if code_is "A " || code_is "AM" then
    {| modified := modified status; added := added status ++ [filePath];
       deleted := deleted status; untracked := untracked status;
       renamed := renamed status |}
  else if code_is " D" || code_is "D " then
    {| modified := modified status; added := added status;
       deleted := deleted status ++ [filePath];
       untracked := untracked status; renamed := renamed status |}
  else if code_is "??" then
    {| modified := modified status; added := added status;
       deleted := deleted status;
       untracked := untracked status ++ [filePath];
       renamed := renamed status |}
  else if startsWith statusCode (js "R") then
    let parts := split filePath (js " -> ") in
    {| modified := modified status; added := added status;
       deleted := deleted status; untracked := untracked status;
       renamed := renamed status
                  ++ [(hd [] parts, second_or parts filePath)] |}
  else status.

(** The lines of the output that are not blank. *)
Definition status_lines (stdout : jsstring) : list jsstring :=
  filter (fun line => trim line ≠ []) (split stdout [10]).

(** [get-git-status]: [Some stdout] is the output of the command,
    [None] its failure. *)
Definition get_git_status (result : option jsstring) : GitStatus :=
  match result with
  | Some stdout => fold_left status_line (status_lines stdout) empty_status
  | None => empty_status
  end.






(** An element of the result of [get-all-branches]. *)
Record Branch := {
  branch_name : jsstring;   (* name *)
  current : bool;
  remote : bool
}.

(** [line.replace(/^\*?\s+/, '')]: an asterisk if there is one, and
    the white space after it, which must not be empty. *)
Definition strip_marker (line : jsstring) : jsstring :=
  let rest := match line with 42 :: r => r | _ => line end in
  match rest with
  | c :: _ => if is_space c then trimStart rest else line
  | [] => line
  end.

(** [s.replace(/^remotes\/origin\//, '')] *)
Definition strip_remote (s : jsstring) : jsstring :=
  if startsWith s (js "remotes/origin/") then drop 15 s else s.

Definition branch_of (line : jsstring) : Branch :=
  {| branch_name := strip_remote (strip_marker line);
     current := startsWith line (js "*");
     remote := includes line (js "remotes/origin/") |}.

(** The loop that keeps the first branch of every name; [seen] is the
    set of the names met. *)
Fixpoint unique_branches (seen : list jsstring) (branches : list Branch)
  : list Branch :=
  match branches with
  | [] => []
  | branch :: rest =>
      if bool_decide (branch_name branch ∈ seen)
      then unique_branches seen rest
      else branch :: unique_branches (branch_name branch :: seen) rest
  end.

(** The branches read from the output of [git branch --all]. *)
Definition listed_branches (stdout : jsstring) : list Branch :=
  map branch_of
    (filter (fun line => line ≠ []
                         ∧ startsWith line (js "remotes/origin/HEAD") = false)
       (map trim (split stdout [10]))).

(** [get-all-branches]: [None] is the failure of the command. *)
Definition get_all_branches (result : option jsstring) : list Branch :=
  match result with
  | Some stdout => unique_branches [] (listed_branches stdout)
  | None => []
  end.

End Git.

(** The output of [git status --porcelain], and of [git branch --all] *)

Module GitFormat.
Import JSString JSText Git.

(** An entry of the status: the two characters of the status code and
    the path, or for a rename the path it had and the path it has. *)
Inductive Entry :=
| Changed (code path : jsstring)
| Moved (code old new : jsstring).

(** The separator of the two paths of a rename. *)
Definition arrow : jsstring := [32; 45; 62; 32].

Definition entry_line (e : Entry) : jsstring :=
  match e with
  | Changed code path => code ++ [32] ++ path
  | Moved code old new => code ++ [32] ++ old ++ arrow ++ new
  end.

(** The text git prints: one line for each entry. *)
Definition porcelain (es : list Entry) : jsstring :=
  concat (map (fun e => entry_line e ++ [10]) es).

(** A path as git prints it unquoted: on one line, with no white space
    at its ends. *)
Definition path_ok (p : jsstring) : Prop :=
  (10 ∉ p) ∧
  is_space <$> head p = Some false ∧
  is_space <$> last p = Some false.

Definition code_ok (code : jsstring) : Prop :=
  length code = 2%nat ∧ (10 ∉ code).

Definition entry_ok (e : Entry) : Prop :=
  match e with
  | Changed code path =>
      code_ok code ∧ startsWith code (js "R") = false ∧ path_ok path
  | Moved code old new =>
      code_ok code ∧ startsWith code (js "R") = true ∧
      path_ok old ∧ path_ok new ∧ (62 ∉ old) ∧ (62 ∉ new)
  end.

#[global] Instance entry_ok_dec (e : Entry) : Decision (entry_ok e).
Proof. destruct e; unfold entry_ok, code_ok, path_ok; apply _. Defined.

(** The codes the handler knows. *)
Definition modified_codes : list jsstring := [js " M"; js "M "; js "MM"].
Definition added_codes : list jsstring := [js "A "; js "AM"].
Definition deleted_codes : list jsstring := [js " D"; js "D "].
Definition untracked_codes : list jsstring := [js "??"].

(** The paths of the entries that have one of the codes. *)
Definition paths_with (codes : list jsstring) (es : list Entry)
  : list jsstring :=
  omap (fun e => match e with
                 | Changed code path =>
                     if bool_decide (code ∈ codes) then Some path else None
                 | Moved _ _ _ => None
                 end) es.

Definition moves (es : list Entry) : list (jsstring * jsstring) :=
  omap (fun e => match e with
                 | Moved _ old new => Some (old, new)
                 | Changed _ _ => None
                 end) es.

End GitFormat.

(** ** The workspace state file of the main process *)

Module Workspace.
Import JSString JSText JSON.

(** The state file when a handler reads it: it does not exist, reading
    it fails, or it has a content. *)
Inductive File :=
| Missing
| Unreadable
| Content (data : jsstring).

(** Whether a property name is an array index: the decimal numeral of
    an integer from 0 to [2^32 - 2].  An object lists such names
    first, in the order of the numbers. *)
Definition is_array_index (k : jsstring) : bool :=
  bool_decide (k = Number_toString (parseInt k))
  && forallb is_digit k && (parseInt k <? 2 ^ 32 - 1)
  && match k with [] => false | _ => true end.

Fixpoint replace_property (k : jsstring) (v : Json)
    (props : list (jsstring * Json)) : list (jsstring * Json) :=
  match props with
  | [] => []
  | (k', v') :: rest =>
      if bool_decide (k' = k) then (k, v) :: rest
      else (k', v') :: replace_property k v rest
  end.

Fixpoint insert_index (k : jsstring) (v : Json)
    (props : list (jsstring * Json)) : list (jsstring * Json) :=
  match props with
  | [] => [(k, v)]
  | (k', v') :: rest =>
      if is_array_index k' && (parseInt k' <? parseInt k)
      then (k', v') :: insert_index k v rest
      else (k, v) :: props
  end.

(** [o[k] = v] on the properties of an object: the value of a
    property that exists is replaced where it is; a new array index
    goes among the indices, any other new name to the end. *)
Definition put (props : list (jsstring * Json)) (kv : jsstring * Json)
  : list (jsstring * Json) :=
  let '(k, v) := kv in
  if bool_decide (k ∈ map fst props) then replace_property k v props
  else if is_array_index k then insert_index k v props
  else props ++ [(k, v)].

(** The own enumerable properties that a spread copies: those of an
    object, the elements of an array and the code units of a string by
    their index, and nothing for other values. *)
Definition spread (v : jsvalue) : list (jsstring * Json) :=
  match v with
  | Some (JObj props) => props
  | Some (JArr items) =>
      imap (fun i x => (Number_toString (Z.of_nat i), x)) items
  | Some (JStr s) =>
      imap (fun i c => (Number_toString (Z.of_nat i), JStr [c])) s
  | _ => []
  end.

(** [{ ...a, ...b }] when [a] has the properties [props]. *)
Definition spread_over (props : list (jsstring * Json)) (b : jsvalue)
  : Json :=
  JObj (fold_left put (spread b) props).

(** The entry of [recentWorkspaces] for a workspace. *)
Definition recent_entry (workspace now : jsstring) : Json :=
  JObj [(js "path", JStr workspace);
        (js "name", JStr (pop (split workspace (js "/"))));
        (js "lastOpened", JStr now)].

(** [recentWorkspaces.filter(w => w.path !== workspace)] for a string
    [workspace]; [None] is the TypeError of an element that is
    [null]. *)
Fixpoint filter_recent (workspace : jsstring) (items : list Json)
  : option (list Json) :=
  match items with
  | [] => Some []
  | w :: rest =>
      match get_property (Some w) (js "path"), filter_recent workspace rest with
      | Some path, Some kept =>
          Some (if strict_equals_string path workspace then kept
                else w :: kept)
      | _, _ => None
      end
  end.

Section State.
(** [JSON.parse]; [None] is the SyntaxError it throws. *)
Variable JSON_parse : jsstring -> option Json.

(** The first part of the three functions: the state read from the
    file, [{}] when there is no file, when it is blank and when it does
    not parse; [None] when reading throws. *)
Definition read_state (file : File) : option Json :=
  match file with
  | Missing => Some (JObj [])
  | Unreadable => None
  | Content data =>
      match trim data with
      | [] => Some (JObj [])
      | _ => Some (default (JObj []) (JSON_parse data))
      end
  end.

(** The properties of [existingState] after the block that updates the
    list of recent workspaces; [None] is a TypeError.  The assignment
    to a number, a string or a boolean does nothing.  All that is
    thrown in the block is a TypeError, logged in the same way, so the
    test that [state.workspace] is a string ([split] is not a function
    of another value) is made first here. *)
Definition update_recent (existingState : Json) (state : jsvalue)
    (now : jsstring) : option (list (jsstring * Json)) :=
  match get_property state (js "workspace") with
  | None => None
  | Some workspace =>
      if truthy workspace then
        match workspace with
        | Some (JStr ws) =>
            match get_property (Some existingState) (js "recentWorkspaces") with
            | None => None
            | Some recentWorkspaces =>
                let items :=
                  if truthy recentWorkspaces then
                    match recentWorkspaces with
                    | Some (JArr items) => Some items
                    | _ => None          (* filter is not a function *)
                    end
                  else Some [] in
                match items with
                | None => None
                | Some items =>
                    match filter_recent ws items with
                    | None => None
                    | Some filtered =>
                        let recent :=
                          JArr (take 10 (recent_entry ws now :: filtered)) in
                        Some (match existingState with
                              | JObj _ | JArr _ =>
                                  put (spread (Some existingState))
                                      (js "recentWorkspaces", recent)
                              | _ => spread (Some existingState)
                              end)
                    end
                end
            end
        | _ => None
        end
      else Some (spread (Some existingState))
  end.

(** [saveWorkspaceState(state)]: the value whose JSON text is written
    to the file; [None] when an exception is caught first, and nothing
    is written. *)
Definition saveWorkspaceState (file : File) (state : jsvalue)
    (now : jsstring) : option Json :=
  match read_state file with
  | None => None
  | Some existingState =>
      match update_recent existingState state now with
      | None => None
      | Some props => Some (spread_over props state)
      end
  end.




End State.

End Workspace.

(** ** The parser of [get-git-diff] *)

Module GitDiff.
Import JSString JSText.

(** An element of [changes]. *)
Record Change := {
  type : jsstring;
  lineNumber : Z;
  count : Z
}.

(** [,?] *)
Definition optional_comma (s : jsstring) : jsstring :=
  match s with
  | 44 :: r => r
  | _ => s
  end.

(** A match, that begins where [s] begins, of the pattern for the
    header of a hunk: [@@ -], digits, an optional comma, digits or
    none, a space and [+], the first group of digits, an optional
    comma, a second group of digits or none, a space and [@@].  The
    result is the first group.  The engine tries the longest runs of
    digits, and the comma, first; giving one of them up moves no later
    part of the pattern to another place, so there is a match if and
    only if this first try is one, and the first group is the longest
    run. *)
Definition hunk_at (s : jsstring) : option jsstring :=
  if startsWith s (js "@@ -") then
    let '(d1, r1) := span_digits (drop 4 s) in
    match d1 with
    | [] => None
    | _ =>
        let '(_, r2) := span_digits (optional_comma r1) in
        if startsWith r2 (js " +") then
          let '(g1, r3) := span_digits (drop 2 r2) in
          match g1 with
          | [] => None
          | _ =>
              let '(_, r4) := span_digits (optional_comma r3) in
              if startsWith r4 (js " @@") then Some g1 else None
          end
        else None
    end
  else None.

(** [line.match(...)]: the first group of the leftmost match. *)
Fixpoint hunk_match (line : jsstring) : option jsstring :=
  match hunk_at line with
  | Some g => Some g
  | None =>
      match line with
      | [] => None
      | _ :: rest => hunk_match rest
      end
  end.

(** [l.startsWith('+') || l.startsWith('-')] *)
Definition starts_change (l : jsstring) : bool :=
  startsWith l (js "+") || startsWith l (js "-").

Definition change (t : string) (currentLine : Z) : Change :=
  {| type := js t; lineNumber := currentLine; count := 1 |}.

(** The loop over [lines] from the index of [line]: [prev] is
    [lines[i - 1]], if [i > 0], and [rest] the lines after [line];
    the result is what is pushed to [changes].  [currentLine] is a
    binary64 float in the source; the model keeps the exact integer,
    the same number below [2^53]. *)
Fixpoint diff_loop (prev : option jsstring) (lines : list jsstring)
    (currentLine : Z) : list Change :=
  match lines with
  | [] => []
  | line :: rest =>
      if startsWith line (js "@@") then
        diff_loop (Some line) rest
          match hunk_match line with
          | Some g => parseInt g
          | None => currentLine
          end
      else if startsWith line (js "diff --git") || startsWith line (js "index")
              || startsWith line (js "---") || startsWith line (js "+++") then
        diff_loop (Some line) rest currentLine
      else if startsWith line (js "+") && negb (startsWith line (js "+++")) then
        change "added" currentLine :: diff_loop (Some line) rest (currentLine + 1)
      else if startsWith line (js "-") && negb (startsWith line (js "---")) then
        change "deleted" currentLine :: diff_loop (Some line) rest currentLine
      else if startsWith line (js " ") then
        let hasChangesAround :=
          match prev, rest with
          | Some p, next :: _ => starts_change p || starts_change next
          | _, _ => false
          end in
        (if hasChangesAround then [change "modified" currentLine] else [])
        ++ diff_loop (Some line) rest (currentLine + 1)
      else diff_loop (Some line) rest currentLine
  end.

(** [get-git-diff], after the command: [changes] for the output of
    [git diff], or for [None] when the command fails. *)
Definition get_git_diff (result : option jsstring) : list Change :=
  match result with
  | Some [] => []
  | Some stdout => diff_loop None (split stdout [10]) 0
  | None => []
  end.

End GitDiff.

(** The hunks that [git diff] prints *)

Module DiffFormat.
Import JSString JSText GitDiff.

(** A line of the body of a hunk: a line of both files, a line of the
    new file only, a line of the old file only, or the remark that a
    file does not end with a line feed. *)
Inductive DiffLine :=
| Context (text : jsstring)
| Addition (text : jsstring)
| Removal (text : jsstring)
| NoNewline.

Definition diff_line (l : DiffLine) : jsstring :=
  match l with
  | Context t => 32 :: t
  | Addition t => 43 :: t
  | Removal t => 45 :: t
  | NoNewline => js "\ No newline at end of file"
  end.

(** A hunk: where it starts in the two files and, unless it is 1, the
    number of lines it has of each, the heading after the ranges, and
    the body. *)
Record Hunk := {
  old_start : Z;
  old_count : option Z;
  new_start : Z;
  new_count : option Z;
  heading : jsstring;
  body : list DiffLine
}.

Definition range (start : Z) (n : option Z) : jsstring :=
  decimal start ++ match n with
                   | Some n => 44 :: decimal n
                   | None => []
                   end.

Definition hunk_header (h : Hunk) : jsstring :=
  js "@@ -" ++ range (old_start h) (old_count h)
  ++ js " +" ++ range (new_start h) (new_count h) ++ js " @@" ++ heading h.

Definition hunk_lines (h : Hunk) : list jsstring :=
  hunk_header h :: map diff_line (body h).

(** The output for a file: the lines before the first hunk, then the
    hunks, every line ended by a line feed. *)
Definition diff_text (preamble : list jsstring) (hunks : list Hunk)
  : jsstring :=
  concat (map (fun l => l ++ [10])
            (preamble ++ concat (map hunk_lines hunks))).

(** A line before the first hunk begins with none of the characters
    that begin a line of a hunk, unless it names one of the two
    files. *)
Definition preamble_ok (l : jsstring) : Prop :=
  (10 ∉ l) ∧
  (startsWith l (js "---") || startsWith l (js "+++")
   || negb (startsWith l (js "@@") || startsWith l (js "+")
            || startsWith l (js "-") || startsWith l (js " "))) = true.

(** A line of a body is on one line. *)
Definition one_line (l : DiffLine) : Prop :=
  match l with
  | Context t | Addition t | Removal t => 10 ∉ t
  | NoNewline => True
  end.

Definition hunk_ok (h : Hunk) : Prop :=
  0 <= old_start h ∧ 0 <= new_start h ∧
  from_option (fun n => 0 <= n) True (old_count h) ∧
  from_option (fun n => 0 <= n) True (new_count h) ∧
  (10 ∉ heading h) ∧ Forall one_line (body h).

(** Whether a line of a body is a line of the new file. *)
Definition in_new_file (l : DiffLine) : bool :=
  match l with
  | Context _ | Addition _ => true
  | Removal _ | NoNewline => false
  end.

(** The number, in the new file, of the first of its lines that comes
    after the first [j] lines of a body that starts at [start]. *)
Definition new_number (start : Z) (body : list DiffLine) (j : nat) : Z :=
  start + Z.of_nat (length (List.filter in_new_file (take j body))).

(** What marks the line [j] of the body, if it is an addition or a
    removal. *)
Definition marker (start : Z) (body : list DiffLine) (j : nat)
    (l : DiffLine) : option Change :=
  match l with
  | Addition _ => Some (change "added" (new_number start body j))
  | Removal _ => Some (change "deleted" (new_number start body j))
  | _ => None
  end.

Definition markers (start : Z) (body : list DiffLine) : list Change :=
  omap id (imap (marker start body) body).

(** The lines of a body that the parser takes for the lines that name
    the files. *)
Definition skipped (l : DiffLine) : bool :=
  match l with
  | Addition t => startsWith t (js "++")
  | Removal t => startsWith t (js "--")
  | _ => false
  end.

Definition seen (body : list DiffLine) : list DiffLine :=
  List.filter (fun l => negb (skipped l)) body.

(** The changes that are not of the type [modified]. *)
Definition additions_and_removals (changes : list Change) : list Change :=
  List.filter (fun c => negb (bool_decide (type c = js "modified"))) changes.

End DiffFormat.

(** ** The renderer side: the asynchronous functions of [lsp.js] *)

Module Client.
Import JSON JSText Renderer.

(** The calls of [window.api] that the module makes.  The preload
    script forwards each to the [ipcMain] handler of the same name. *)
Inductive Call :=
| CheckLSPServer (command : jsstring)
| StartLSPServer (language command : jsstring) (args : list jsstring)
                 (workspacePath : option jsstring)
| SendLSPRequest (serverId method : jsstring) (params : Json)
| SendLSPNotification (serverId method : jsstring) (params : Json)
| StopLSPServer (serverId : jsstring).

(** What a call resolves with: [check-lsp-server] with a boolean,
    [start-lsp-server] with a server id or [null], [send-lsp-request]
    with the result of the response, the others with [undefined]. *)
Definition reply_type (c : Call) : Type :=
  match c with
  | CheckLSPServer _ => bool
  | StartLSPServer _ _ _ _ => option jsstring
  | SendLSPRequest _ _ _ => jsvalue
  | SendLSPNotification _ _ _ => unit
  | StopLSPServer _ => unit
  end.

(** What is thrown: the error of a rejected call, which is the error
    of the handler of the main process, or the TypeError of reading a
    property of [null]. *)
Inductive Err :=
| Remote (e : Main.Error)
| TypeErr.

(** How the promise of a call is settled. *)
Inductive Result (R : Type) :=
| Resolved (r : R)
| Rejected (e : Err).
Arguments Resolved {R} r.
Arguments Rejected {R} e.

(** The calls of [console.warn] and [console.error]: the text, and the
    error logged after it if there is one.  The calls of [console.log]
    are left out. *)
Inductive LogLine :=
| ConsoleWarn (text : jsstring)
| ConsoleError (text : jsstring) (e : option Err).

(** The variables of the module. *)
Record Vars := {
  lspEnabled : bool;
  session : State;          (* languageServers and documentVersions *)
  lspWorkspacePath : option jsstring   (* [None] is [null] *)
}.





(** An asynchronous function: it returns, throws, awaits a call of
    [window.api], reads or writes the variables of the module, or
    logs. *)
Inductive Proc (A : Type) :=
| Ret (a : A)
| Fail (e : Err)
| Await (c : Call) (k : Result (reply_type c) -> Proc A)
| ReadVars (k : Vars -> Proc A)
| WriteVars (f : Vars -> Vars) (k : Proc A)
| Console (l : LogLine) (k : Proc A).
Arguments Ret {A} a.
Arguments Fail {A} e.
Arguments Await {A} c k.
Arguments ReadVars {A} k.
Arguments WriteVars {A} f k.
Arguments Console {A} l k.

(** [await p; k] *)
Fixpoint bind {A B} (p : Proc A) (k : A -> Proc B) : Proc B :=
  match p with
  | Ret a => k a
  | Fail e => Fail e
  | Await c h => Await c (fun r => bind (h r) k)
  | ReadVars h => ReadVars (fun v => bind (h v) k)
  | WriteVars f h => WriteVars f (bind h k)
  | Console l h => Console l (bind h k)
  end.








(** The [textDocument] object of the feature requests. *)
Definition textDocument_of (filePath : jsstring) : jsstring * Json :=
  (js "textDocument", JObj [(js "uri", uri_of filePath)]).

(** [getCompletions(filePath, position)]: the result, [null] without a
    server for the file and when the request fails. *)
Definition getCompletions (filePath : jsstring) (position : jsvalue)
  : Proc jsvalue :=
  ReadVars (fun v =>
  match getServerForFile (session v) filePath with
  | None => Ret (Some JNull)
  | Some server =>
      Await (SendLSPRequest (server_id server) (js "textDocument/completion")
               (JObj (textDocument_of filePath
                      :: Main.optional_property (js "position") position)))
        (fun r =>
         match r with
         | Resolved result => Ret result
         | Rejected e =>
             Console (ConsoleError (js "Error getting completions:") (Some e)) (Ret (Some JNull))
         end)
  end).

(** [getHover(filePath, position)] *)
Definition getHover (filePath : jsstring) (position : jsvalue)
  : Proc jsvalue :=
  ReadVars (fun v =>
  match getServerForFile (session v) filePath with
  | None => Ret (Some JNull)
  | Some server =>
      Await (SendLSPRequest (server_id server) (js "textDocument/hover")
               (JObj (textDocument_of filePath
                      :: Main.optional_property (js "position") position)))
        (fun r =>
         match r with
         | Resolved result => Ret result
         | Rejected e =>
             Console (ConsoleError (js "Error getting hover:") (Some e)) (Ret (Some JNull))
         end)
  end).

(** [getDefinition(filePath, position)] *)
Definition getDefinition (filePath : jsstring) (position : jsvalue)
  : Proc jsvalue :=
  ReadVars (fun v =>
  match getServerForFile (session v) filePath with
  | None => Ret (Some JNull)
  | Some server =>
      Await (SendLSPRequest (server_id server) (js "textDocument/definition")
               (JObj (textDocument_of filePath
                      :: Main.optional_property (js "position") position)))
        (fun r =>
         match r with
         | Resolved result => Ret result
         | Rejected e =>
             Console (ConsoleError (js "Error getting definition:") (Some e)) (Ret (Some JNull))
         end)
  end).

(** [getReferences(filePath, position)] *)
Definition getReferences (filePath : jsstring) (position : jsvalue)
  : Proc jsvalue :=
  ReadVars (fun v =>
  match getServerForFile (session v) filePath with
  | None => Ret (Some JNull)
  | Some server =>
      Await (SendLSPRequest (server_id server) (js "textDocument/references")
               (JObj (textDocument_of filePath
                      :: Main.optional_property (js "position") position
                      ++ [(js "context",
                           JObj [(js "includeDeclaration", JBool true)])])))
        (fun r =>
         match r with
         | Resolved result => Ret result
         | Rejected e =>
             Console (ConsoleError (js "Error getting references:") (Some e)) (Ret (Some JNull))
         end)
  end).

(** [formatDocument(filePath)] *)
Definition formatDocument (filePath : jsstring) : Proc jsvalue :=
  ReadVars (fun v =>
  match getServerForFile (session v) filePath with
  | None => Ret (Some JNull)
  | Some server =>
      Await (SendLSPRequest (server_id server) (js "textDocument/formatting")
               (JObj [textDocument_of filePath;
                      (js "options",
                       JObj [(js "tabSize", JInt 4);
                             (js "insertSpaces", JBool true)])]))
        (fun r =>
         match r with
         | Resolved result => Ret result
         | Rejected e =>
             Console (ConsoleError (js "Error formatting document:") (Some e)) (Ret (Some JNull))
         end)
  end).




(** [window.lsp.isEnabled] *)
Definition isEnabled (v : Vars) : bool := lspEnabled v.

(** *** Running a function to its end *)

(** How the calls are answered, given the calls made before. *)
Definition Env := list Call -> forall c : Call, Result (reply_type c).

(** How a function ends. *)
Inductive End (A : Type) :=
| Done (a : A)
| Thrown (e : Err).
Arguments Done {A} a.
Arguments Thrown {A} e.

(** The state of a run: the variables, the calls made and the lines
    logged. *)
Record Trace := {
  vars : Vars;
  calls : list Call;
  logs : list LogLine
}.

(** The run of a function when nothing else runs between its steps:
    how it ends, and the state it leaves. *)
Fixpoint run {A} (env : Env) (p : Proc A) (t : Trace) : End A * Trace :=
  match p with
  | Ret a => (Done a, t)
  | Fail e => (Thrown e, t)
  | Await c k =>
      run env (k (env (calls t) c))
          {| vars := vars t; calls := calls t ++ [c]; logs := logs t |}
  | ReadVars k => run env (k (vars t)) t
  | WriteVars f k =>
      run env k {| vars := f (vars t); calls := calls t; logs := logs t |}
  | Console l k =>
      run env k {| vars := vars t; calls := calls t; logs := logs t ++ [l] |}
  end.

(** What [ipcRenderer.invoke] gives for the promise that the handler
    [send-lsp-request] returned, once the promise is settled. *)
Definition delivered (s : option Main.PromiseState)
  : option (Result jsvalue) :=
  match s with
  | Some (Main.Fulfilled value) => Some (Resolved value)
  | Some (Main.Rejected reason) => Some (Rejected (Remote reason))
  | _ => None
  end.







End Client.

(** ** Framed messages on the wire *)

Module Wire.
Import JSON Main.

Definition CL : jsstring := js "Content-Length: ".

(** A string of decimal digits. *)
Definition digits (ds : jsstring) : Prop :=
  Forall (fun c => is_digit c = true) ds.

(** A text that UTF-8 writes one byte per code unit. *)
Definition ascii (s : jsstring) : Prop :=
  Forall (fun c => 0 <= c < 128) s.

(** A header line: not empty, no carriage return inside. *)
Definition header_line (l : jsstring) : Prop := l ≠ [] ∧ 13 ∉ l.

(** The text of header lines, each ended by CR LF. *)
Definition lines_text (ls : list jsstring) : jsstring :=
  concat (map (fun l => l ++ [13; 10]) ls).

(** A framed message whose [Content-Length] line is the last line of
    its header block: the header lines before it, the digits of the
    length, and the payload. *)
Record Frame := {
  headers : list jsstring;
  length_digits : jsstring;
  payload : jsstring
}.

(** The header block with its terminating empty line. *)
Definition header_text (ls : list jsstring) (ds : jsstring) : jsstring :=
  lines_text ls ++ CL ++ ds ++ CRLFCRLF.

Definition frame_text (f : Frame) : jsstring :=
  header_text (headers f) (length_digits f) ++ payload f.

(** The frame is well formed and its text is ASCII, so that the length
    it announces, a number of bytes, is the length of the payload in
    code units too. *)
Definition frame_ok (f : Frame) : Prop :=
  Forall header_line (headers f) ∧
  length_digits f ≠ [] ∧ digits (length_digits f) ∧
  parseInt (length_digits f) = jslength (payload f) ∧
  ascii (frame_text f).

#[global] Instance header_line_dec (l : jsstring) : Decision (header_line l).
Proof. unfold header_line. apply _. Defined.

#[global] Instance digits_dec (ds : jsstring) : Decision (digits ds).
Proof. unfold digits. apply _. Defined.

#[global] Instance ascii_dec (s : jsstring) : Decision (ascii s).
Proof. unfold ascii. apply _. Defined.

#[global] Instance frame_ok_dec (f : Frame) : Decision (frame_ok f).
Proof. unfold frame_ok. apply _. Defined.

(** The text of a sequence of frames. *)
Definition stream_text (fs : list Frame) : jsstring :=
  concat (map frame_text fs).

(** Reading a literal of the examples: an apostrophe stands for a
    quotation mark, and the two-character sequences backslash r and
    backslash n for carriage return and line feed. *)
Fixpoint text (s : jsstring) : jsstring :=
  match s with
  | [] => []
  | 39 :: r => 34 :: text r
  | 92 :: 114 :: r => 13 :: text r
  | 92 :: 110 :: r => 10 :: text r
  | c :: r => c :: text r
  end.

Definition lit (s : string) : jsstring := text (js s).

End Wire.

(** ** Well-formed states of the main process *)

Module Invariants.
Import JSON Main.

(** Every server of the registry is an object of the heap. *)
Definition registry_ok (w : World) : Prop :=
  map_Forall (fun _ a => (a < length (heap w))%nat) (lspServers w).

#[global] Instance registry_ok_dec (w : World) : Decision (registry_ok w).
Proof. unfold registry_ok. apply _. Defined.

(** [w'] differs from [w] in the messages sent to the renderer at most. *)
Definition same_but_ipc (w w' : World) : Prop :=
  w' = with_ipc (fun _ => ipc w') w.

(** The buffer of the server at address [a]. *)
Definition buffer_at (w : World) (a : nat) : option jsstring :=
  messageBuffer <$> heap w !! a.

(** The pending requests of the server at address [a]. *)
Definition pending_at (w : World) (a : nat) : option (gmap Z promise) :=
  pendingRequests <$> heap w !! a.

(** A server object without its pending requests. *)
Definition erase_pending (sd : ServerData) : ServerData :=
  with_pendingRequests ∅ sd.

(** What the handling of one message leaves as it is: the registry, the
    closures, and every server object but for its pending requests. *)
Definition handler_frame (w w' : World) : Prop :=
  lspServers w' = lspServers w ∧
  callbacks w' = callbacks w ∧
  ∀ a, erase_pending <$> heap w' !! a = erase_pending <$> heap w !! a.

(** The buffer holds the beginning of the first of the frames [fs], and
    not all of it; it is empty when no frame is left. *)
Definition waiting (b : jsstring) (fs : list Wire.Frame) : Prop :=
  match fs with
  | [] => b = []
  | f :: _ => ∃ z, b ++ z = Wire.frame_text f ∧ z ≠ []
  end.

(** The calls of [handleLSPMessage] for a list of parse results: one
    for each payload that parsed, none for a payload that did not. *)
Definition parsed (serverId : jsstring) (results : list (option Json))
  : list (jsstring * Json) :=
  map (fun v => (serverId, v)) (omap id results).

(** The server object after a request has been sent: the counter is
    the new id, the promise waits under it, and the framed request has
    been written. *)
Definition sent_data (sd : ServerData) (requestId : Z) (p : promise)
    (requestMessage : jsstring) : ServerData :=
  {| process := {| stdin := stdin (process sd) ++ [requestMessage];
                   killed := killed (process sd) |};
     language := language sd;
     messageBuffer := messageBuffer sd;
     pendingRequests := <[requestId := p]> (pendingRequests sd);
     requestIdCounter := requestId |}.

(** The state after [send-lsp-request] on the server at address [a]. *)
Definition sent_world (a : nat) (sd : ServerData) (requestId : Z)
    (requestMessage : jsstring) (w : World) : World :=
  let p := length (promises w) in
  with_callbacks
    (fun l => l ++ [WriteCallback a requestId p;
                    TimeoutCallback a requestId p 30000])
    (with_heap (fun h => <[a := sent_data sd requestId p requestMessage]> h)
       (with_promises (fun ps => ps ++ [Pending]) w)).

(** Whether a server id is in the registry. *)
Definition registered (w : World) (serverId : jsstring) : bool :=
  bool_decide (is_Some (lspServers w !! serverId)).

(** What the decode loop logs for a parse result: the SyntaxError of a
    payload that does not parse, and the TypeError that a [null]
    message raises in [handleLSPMessage] for a registered server. *)
Definition log_of (is_registered : bool) (r : option Json) : list LogEntry :=
  match r with
  | None => [LogParseError SyntaxError]
  | Some JNull => if is_registered then [LogParseError TypeError] else []
  | Some _ => []
  end.

Definition logged (is_registered : bool) (results : list (option Json))
  : list LogEntry :=
  concat (map (log_of is_registered) results).

(** [m] is a response to the request [requestId]: it carries that id,
    no error, and [result] (which may be [undefined]). *)
Definition response_to (m : Json) (requestId : Z) (result : jsvalue) : Prop :=
  (∃ id, get_property (Some m) (js "id") = Some id ∧
         integer_key id = Some requestId) ∧
  (∃ error, get_property (Some m) (js "error") = Some error ∧
            truthy error = false) ∧
  get_property (Some m) (js "result") = Some result.

(** A response delivered by the server: the call it answers, counted
    from 0 in the order of the calls, the message, and the result the
    message carries. *)
Record Reply := {
  reply_to : nat;
  reply_message : Json;
  reply_result : jsvalue
}.

Section Requests.
Variable JSON_stringify : Json -> jsstring.

(** The framed requests that calls write when the counter of the
    server is [counter] before the first of them. *)
Fixpoint request_messages (counter : Z)
    (requests : list (jsstring * jsvalue)) : list jsstring :=
  match requests with
  | [] => []
  | (method, params) :: rest =>
      frame (JSON_stringify (request_object (counter + 1) method params))
      :: request_messages (counter + 1) rest
  end.
End Requests.

(** [m] carries the id [requestId]. *)
Definition has_id (m : Json) (requestId : Z) : Prop :=
  ∃ id, get_property (Some m) (js "id") = Some id ∧
        integer_key id = Some requestId.

End Invariants.

(** ** The events of the main process and its reachable states *)

Module Events.
Import JSON Main Invariants.

(** What happens to the main process: a call of one of its [ipcMain]
    handlers by the renderer, data or the exit of a server process, or
    the run of a closure that a request left behind.  The stdout handler
    of a server is a closure over the id and the object of that server. *)
Inductive Event :=
| StartServer (language : jsstring) (spawned : SpawnResult)
| SendRequest (serverId method : jsstring) (params : jsvalue)
| SendNotification (serverId method : jsstring) (params : jsvalue)
| StopServer (serverId : jsstring)
| StdoutData (serverId : jsstring) (serverData : nat) (data : Utf8.bytes)
| StderrData (serverId : jsstring) (data : Utf8.bytes)
| ProcessExit (serverId : jsstring)
| RunCallback (cb : Callback) (error : option Error).

(** The variables a closure captures. *)
Definition captured (cb : Callback) : nat * Z * promise :=
  match cb with
  | WriteCallback a requestId p => (a, requestId, p)
  | TimeoutCallback a requestId p _ => (a, requestId, p)
  end.

(** The events that can happen in a state: data can only come to the
    handler of a server object that exists, and only a closure that was
    left behind can run. *)
Definition enabled (w : World) (ev : Event) : Prop :=
  match ev with
  | StdoutData _ serverData _ => (serverData < length (heap w))%nat
  | RunCallback cb _ => cb ∈ callbacks w
  | _ => True
  end.

Section Run.
Variable JSON_parse : jsstring -> option Json.
Variable JSON_stringify : Json -> jsstring.

(** The handler of an event; the value a handler returns goes to the
    renderer and is dropped here. *)
Definition handle_event (ev : Event) : JS unit :=
  match ev with
  | StartServer language spawned =>
      let! _ := start_lsp_server language spawned in ret tt
  | SendRequest serverId method params =>
      let! _ := send_lsp_request JSON_stringify serverId method params in ret tt
  | SendNotification serverId method params =>
      send_lsp_notification JSON_stringify serverId method params
  | StopServer serverId => stop_lsp_server serverId
  | StdoutData serverId serverData data =>
      on_stdout_data JSON_parse serverId serverData data
  | StderrData serverId data => on_stderr_data serverId data
  | ProcessExit serverId => on_exit serverId
  | RunCallback cb error => run_callback cb error
  end.

(** The state after an event.  An exception of an [ipcMain] handler
    rejects the call of the renderer and the main process goes on. *)
Definition next (ev : Event) (w : World) : option World :=
  match handle_event ev w with
  | Normal _ w' => Some w'
  | Throw _ w' => Some w'
  | Stuck => None
  end.

(** The states the main process can be in. *)
Inductive reachable : World -> Prop :=
| reachable_initial : reachable initial_world
| reachable_next (w w' : World) (ev : Event) :
    reachable w -> enabled w ev -> next ev w = Some w' -> reachable w'.

End Run.

(** A pending request: the promise kept under an id in the map of a
    server object. *)
Definition entry (w : World) (a : nat) (requestId : Z) (p : promise) : Prop :=
  ∃ sd, heap w !! a = Some sd ∧ pendingRequests sd !! requestId = Some p.

(** The server object at [a] has counted up to [requestId]. *)
Definition given_out (w : World) (a : nat) (requestId : Z) : Prop :=
  ∃ sd, heap w !! a = Some sd ∧ requestId <= requestIdCounter sd.

(** Every pending request has an id that its server has given out, a
    promise that is pending, and a timer. *)
Definition pending_ok (w : World) : Prop :=
  ∀ a requestId p,
    entry w a requestId p →
    given_out w a requestId ∧
    promises w !! p = Some Pending ∧
    TimeoutCallback a requestId p 30000 ∈ callbacks w.

(** Every closure belongs to one request: its promise exists, its
    server object exists and has given out its id, and no other request
    holds its promise. *)
Definition callbacks_ok (w : World) : Prop :=
  ∀ cb a requestId p,
    cb ∈ callbacks w → captured cb = (a, requestId, p) →
    (p < length (promises w))%nat ∧
    given_out w a requestId ∧
    ∀ a' requestId', entry w a' requestId' p → a' = a ∧ requestId' = requestId.

Definition well_formed (w : World) : Prop :=
  registry_ok w ∧ pending_ok w ∧ callbacks_ok w.

End Events.

(** ** Ids and promises in the reachable states *)

Module Accounting.
Import JSON Main Invariants Events.

(** The number written by the digits a string ends with. *)
Definition trailing_number (s : jsstring) : Z :=
  parseInt (reverse (span_digits (reverse s)).1).

(** The counter of server ids has passed the number every registered
    id ends with. *)
Definition server_ids_ok (w : World) : Prop :=
  0 <= lspServerIdCounter w ∧
  map_Forall (fun serverId _ => trailing_number serverId <= lspServerIdCounter w)
             (lspServers w).

(** Every promise that is pending is the promise of a pending request,
    and a closure whose request is pending holds the promise of that
    request. *)
Definition accounted (w : World) : Prop :=
  (∀ p, promises w !! p = Some Pending → ∃ a requestId, entry w a requestId p) ∧
  (∀ cb a requestId p q,
     cb ∈ callbacks w → captured cb = (a, requestId, p) →
     entry w a requestId q → q = p).

(** The server object [start-lsp-server] creates. *)
Definition new_server (language : jsstring) : ServerData :=
  {| process := {| stdin := []; killed := false |};
     language := language;
     messageBuffer := [];
     pendingRequests := ∅;
     requestIdCounter := 0 |}.

(** The state after [start-lsp-server] has started a server. *)
Definition started_world (language : jsstring) (w : World) : World :=
  let n := lspServerIdCounter w + 1 in
  with_lspServers
    (<[js "lsp-" ++ language ++ js "-" ++ Number_toString n
       := length (heap w)]>)
    (with_heap (fun h => h ++ [new_server language])
       (with_lspServerIdCounter n w)).

(** [message] is a framed message as a server reads it, counting bytes:
    its bytes are the header, with the decimal number of the bytes of
    [content], the empty line, and the bytes of [content]. *)
Definition byte_framed (message content : jsstring) : Prop :=
  ∃ ds, ds ≠ [] ∧ Wire.digits ds ∧
        Utf8.encode message
        = js "Content-Length: " ++ ds ++ CRLFCRLF ++ Utf8.encode content ∧
        parseInt ds = Z.of_nat (length (Utf8.encode content)).

End Accounting.

(** ** Concrete states and messages *)

Module Examples.
Import JSON Main Wire Invariants.

(** The state a handler ends in, when it ends normally. *)
Definition after {A} (c : JS A) (w : World) : option World :=
  match c w with
  | Normal _ w' => Some w'
  | _ => None
  end.

Definition rust_server : jsstring := js "lsp-rust-1".

(** One server started: [lsp-rust-1], at address 0. *)
Definition started : World :=
  default initial_world
    (after (start_lsp_server (js "rust") Spawned) initial_world).

Definition hover_params : Json :=
  JObj [(js "textDocument", JObj [(js "uri", JStr (js "file:///a.rs"))]);
        (js "position", JObj [(js "line", JInt 0); (js "character", JInt 0)])].

(** One request sent and not answered: id 1, promise 0. *)
Definition requested : World :=
  default started
    (after (send_lsp_request stringify rust_server
              (js "textDocument/hover") (Some hover_params)) started).

(** A response to request 1. *)
Definition response_1_text : jsstring :=
  lit "{'jsonrpc':'2.0','id':1,'result':null}".

(** The same response, framed with a [Content-Type] line after the
    [Content-Length] line. *)
Definition typed_message : jsstring :=
  lit "Content-Length: 38\r\nContent-Type: application/vscode-jsonrpc; charset=utf-8\r\n\r\n"
  ++ response_1_text.

(** A request of the server to the client: it has an id and a method. *)
Definition server_request_text : jsstring :=
  lit "{'jsonrpc':'2.0','id':1,'method':'workspace/configuration','params':{'items':[]}}".

Definition server_request : Json :=
  JObj [(js "jsonrpc", JStr (js "2.0")); (js "id", JInt 1);
        (js "method", JStr (js "workspace/configuration"));
        (js "params", JObj [(js "items", JArr [])])].

(** A message whose text has a character of two bytes (e with acute
    accent, U+00E9). *)
Definition accent_message : Json :=
  JObj [(js "jsonrpc", JStr (js "2.0")); (js "id", JInt 1);
        (js "result", JStr [99; 97; 102; 233])].

(** Two frames: the response with a [Content-Type] line before its
    [Content-Length] line, and a diagnostics notification. *)
Definition diagnostics_text : jsstring :=
  lit "{'jsonrpc':'2.0','method':'textDocument/publishDiagnostics','params':{'uri':'file:///a.rs','diagnostics':[]}}".

Definition frame_1 : Frame :=
  {| headers := [js "Content-Type: application/vscode-jsonrpc; charset=utf-8"];
     length_digits := js "38";
     payload := response_1_text |}.

Definition frame_2 : Frame :=
  {| headers := []; length_digits := js "109"; payload := diagnostics_text |}.

Definition response_1 : Json :=
  JObj [(js "jsonrpc", JStr (js "2.0")); (js "id", JInt 1);
        (js "result", JNull)].

Definition diagnostics : Json :=
  JObj [(js "jsonrpc", JStr (js "2.0"));
        (js "method", JStr (js "textDocument/publishDiagnostics"));
        (js "params", JObj [(js "uri", JStr (js "file:///a.rs"));
                            (js "diagnostics", JArr [])])].

(** A frame whose payload is not JSON. *)
Definition broken_frame : Frame :=
  {| headers := []; length_digits := js "9"; payload := lit "{'id': 1," |}.

(** Three calls, and their responses in the order 3, 1, 2; each result
    names the request it answers. *)
Definition three_requests : list (jsstring * jsvalue) :=
  [(js "textDocument/hover", Some hover_params);
   (js "textDocument/definition", Some hover_params);
   (js "textDocument/references", Some hover_params)].

Definition tagged_response (requestId : Z) (tag : string) : Json :=
  JObj [(js "jsonrpc", JStr (js "2.0")); (js "id", JInt requestId);
        (js "result", JStr (js tag))].

Definition replies_3_1_2 : list Reply :=
  [{| reply_to := 2; reply_message := tagged_response 3 "third";
      reply_result := Some (JStr (js "third")) |};
   {| reply_to := 0; reply_message := tagged_response 1 "first";
      reply_result := Some (JStr (js "first")) |};
   {| reply_to := 1; reply_message := tagged_response 2 "second";
      reply_result := Some (JStr (js "second")) |}].

(** The bytes of a text, delivered one at a time. *)
Definition byte_by_byte (s : jsstring) : list Utf8.bytes :=
  map (fun b => [b]) (Utf8.encode s).

End Examples.

Module RendererExamples.
Import JSON Renderer.

Definition rust_config : Config :=
  {| name := js "rust-analyzer"; command := js "rust-analyzer";
     fileExtensions := [js ".rs"]; languageId := js "rust" |}.

Definition rust : Server :=
  {| server_id := js "lsp-rust-1"; config := rust_config;
     capabilities := Some (JObj []) |}.

(** The renderer after [initLSP] found rust-analyzer: one server, no
    document open. *)
Definition ready : State :=
  {| languageServers := [(js "rust", rust)];
     documentVersions := ∅;
     sent := [] |}.

Definition main_rs : jsstring := js "/work/src/main.rs".
Definition notes_txt : jsstring := js "/work/notes.txt".

End RendererExamples.

Module LspExamples.
Import JSON Main Wire Invariants Examples.

(** An error response to request 1. *)
Definition method_not_found : Json :=
  JObj [(js "code", JInt (-32601)); (js "message", JStr (js "Method not found"))].

Definition error_response_1 : Json :=
  JObj [(js "jsonrpc", JStr (js "2.0")); (js "id", JInt 1);
        (js "error", method_not_found);
        (js "result", JStr (js "ignored"))].

(** The process of [lsp-rust-1] has exited while request 1 was
    pending. *)
Definition exited : World :=
  default requested (after (on_exit rust_server) requested).

End LspExamples.

Module ClientExamples.
Import JSON Renderer Client RendererExamples.

(** The module after [initLSP] found rust-analyzer for [/work]. *)
Definition ready_vars : Vars :=
  {| lspEnabled := true; session := ready;
     lspWorkspacePath := Some (js "/work") |}.

Definition ready_trace : Trace :=
  {| vars := ready_vars; calls := []; logs := [] |}.

Definition origin : Json :=
  JObj [(js "line", JInt 0); (js "character", JInt 0)].

End ClientExamples.

Module GitExamples.
Import JSString JSText Git GitFormat.

(** A status with a change of every kind, a conflict, and a path with a
    space. *)
Definition some_status : list Entry :=
  [Changed (js " M") (js "src/main.js");
   Changed (js "??") (js "notes/to do.txt");
   Changed (js "UU") (js "src/conflict.c");
   Moved (js "R ") (js "old.js") (js "lib/new.js");
   Changed (js "A ") (js "added.js");
   Changed (js " D") (js "gone.js")].

(** The output of [git branch --all] for a repository with the
    branches [main] and [dev], and [main] and [fix] on the remote. *)
Definition some_branches : jsstring :=
  js "  dev" ++ [10] ++ js "* main" ++ [10]
  ++ js "  remotes/origin/HEAD -> origin/main" ++ [10]
  ++ js "  remotes/origin/fix" ++ [10]
  ++ js "  remotes/origin/main" ++ [10].

End GitExamples.

Module WorkspaceExamples.
Import JSON Workspace.

(** The state file after [/work/a] and then [/work/b] were opened. *)
Definition entry_a : Json := recent_entry (js "/work/a") (js "2024-01-01T00:00:00.000Z").
Definition entry_b : Json := recent_entry (js "/work/b") (js "2024-01-02T00:00:00.000Z").

Definition saved_props : list (jsstring * Json) :=
  [(js "recentWorkspaces", JArr [entry_b; entry_a]);
   (js "workspace", JStr (js "/work/b"));
   (js "expandedDirs", JArr [JStr (js "/work/b/src")])].

Definition state_file : File := Content (stringify (JObj saved_props)).

(** What the renderer sends when [/work/a] is opened again. *)
Definition sent_props : list (jsstring * Json) :=
  [(js "workspace", JStr (js "/work/a")); (js "expandedDirs", JArr [])].

Definition later : jsstring := js "2024-01-03T00:00:00.000Z".

End WorkspaceExamples.

Module DiffExamples.
Import JSString GitDiff DiffFormat.

(** The lines that [git diff HEAD] prints before the hunks of a file. *)
Definition preamble : list jsstring :=
  [js "diff --git a/src/main.c b/src/main.c";
   js "index 83db48f..bf269f4 100644";
   js "--- a/src/main.c";
   js "+++ b/src/main.c"].

(** A line replaced by two, between two lines that stay. *)
Definition replaced : Hunk :=
  {| old_start := 3; old_count := Some 3; new_start := 3;
     new_count := Some 4; heading := js " int main(void)";
     body := [Context (js "  int i = 0;"); Removal (js "  i = 1;");
              Addition (js "  i = 2;"); Addition (js "  i = i + 1;");
              Context (js "  return i;")] |}.

(** A line added at the end of a file of one line. *)
Definition appended : Hunk :=
  {| old_start := 40; old_count := None; new_start := 41;
     new_count := Some 2; heading := [];
     body := [Context (js "}"); Addition []] |}.

(** Two additions, the first of which is the line [++i;]. *)
Definition increment : Hunk :=
  {| old_start := 7; old_count := None; new_start := 7;
     new_count := Some 3; heading := [];
     body := [Context (js "{"); Addition (js "++i;");
              Addition (js "j = i;")] |}.

End DiffExamples.

Module FramerExamples.
Import JSON Main Wire Examples.

(** A message whose payload is not JSON, framed with a [Content-Type]
    line after its [Content-Length] line. *)
Definition typed_broken_message : jsstring :=
  lit "Content-Length: 9\r\nContent-Type: x\r\n\r\n{'id': 1,".

(** That message, and the diagnostics notification after it. *)
Definition broken_then_diagnostics : jsstring :=
  typed_broken_message ++ frame_text frame_2.

End FramerExamples.

(** * Properties *)

(** ** Strings: prefixes, searches and the header pattern *)

Module StringFacts.
Import JSON Main Wire.

Lemma CL_unfold : CL = [67; 111; 110; 116; 101; 110; 116; 45; 76; 101; 110;
                        103; 116; 104; 58; 32].
Proof. reflexivity. Qed.

Lemma startsWith_spec (s p : jsstring) :
  startsWith s p = true ↔ ∃ t, s = p ++ t.
Proof.
  revert s. induction p as [|c p IH]; intros s; simpl.
  - split; [intros _; by exists s | done].
  - destruct s as [|d s].
    + split; [done | intros [t Ht]; done].
    + rewrite andb_true_iff, Z.eqb_eq, IH. split.
      * intros [-> [t ->]]. eauto.
      * intros [t Ht]. injection Ht as -> ->. eauto.
Qed.

Lemma startsWith_app (p t : jsstring) : startsWith (p ++ t) p = true.
Proof. apply startsWith_spec. eauto. Qed.

Lemma span_digits_spec (s ds r : jsstring) :
  span_digits s = (ds, r) → s = ds ++ r ∧ digits ds.
Proof.
  revert ds r. induction s as [|c s IH]; intros ds r; simpl.
  - intros [= <- <-]. split; [done | constructor].
  - destruct (is_digit c) eqn:Hc.
    + destruct (span_digits s) as [ds' r'] eqn:Hs.
      intros [= <- <-]. destruct (IH _ _ eq_refl) as [-> Hd].
      split; [done | by constructor].
    + intros [= <- <-]. split; [done | constructor].
Qed.

Lemma span_digits_stop (ds : jsstring) (c : code_unit) (r : jsstring) :
  digits ds → is_digit c = false →
  span_digits (ds ++ c :: r) = (ds, c :: r).
Proof.
  intros Hd Hc. induction Hd as [|d ds Hd _ IH]; simpl.
  - by rewrite Hc.
  - by rewrite Hd, IH.
Qed.

Lemma digits_no_cr (ds : jsstring) : digits ds → 13 ∉ ds.
Proof.
  intros Hd Hin. unfold digits in Hd. rewrite Forall_forall in Hd.
  specialize (Hd _ Hin). done.
Qed.

Lemma CL_no_cr : 13 ∉ CL.
Proof. apply (bool_decide_unpack _). by vm_compute. Qed.

(** What a match of the pattern at the head of a string looks like. *)
Lemma match_here_Some (s ds : jsstring) :
  match_here s = Some ds →
  ∃ t, s = CL ++ ds ++ CRLFCRLF ++ t ∧ ds ≠ [] ∧ digits ds.
Proof.
  unfold match_here. fold CL.
  destruct (startsWith s CL) eqn:Hp; [|done].
  apply startsWith_spec in Hp as [t ->].
  change 16%nat with (length CL). rewrite drop_app_length.
  destruct (span_digits t) as [ds' r] eqn:Hs.
  apply span_digits_spec in Hs as [-> Hd].
  destruct ds' as [|d ds']; [done|].
  destruct (startsWith r CRLFCRLF) eqn:Hr; [|done].
  apply startsWith_spec in Hr as [t' ->].
  intros [= <-]. by exists t'.
Qed.

Lemma match_here_frame (ds t : jsstring) :
  ds ≠ [] → digits ds →
  match_here (CL ++ ds ++ CRLFCRLF ++ t) = Some ds.
Proof.
  intros Hne Hd. unfold match_here. fold CL.
  rewrite startsWith_app.
  change 16%nat with (length CL). rewrite drop_app_length.
  change (CRLFCRLF ++ t) with (13 :: ([10; 13; 10] ++ t)).
  rewrite span_digits_stop by done.
  destruct ds; [done|].
  change (13 :: [10; 13; 10] ++ t) with (CRLFCRLF ++ t).
  by rewrite startsWith_app.
Qed.

(** The first carriage return of a string splits it in one way only. *)
Lemma first_cr_unique (u u' x x' : jsstring) :
  13 ∉ u → 13 ∉ u' → u ++ 13 :: x = u' ++ 13 :: x' → u = u' ∧ x = x'.
Proof.
  revert u'. induction u as [|a u IH]; intros u' Hu Hu' Heq.
  - destruct u' as [|a' u']; simpl in *.
    + by injection Heq as ->.
    + injection Heq as <- _. by apply not_elem_of_cons in Hu' as [? _].
  - apply not_elem_of_cons in Hu as [Ha Hu].
    destruct u' as [|a' u']; simpl in *.
    + by injection Heq as -> _.
    + apply not_elem_of_cons in Hu' as [_ Hu'].
      injection Heq as -> Heq.
      by destruct (IH u' Hu Hu' Heq) as [-> ->].
Qed.

(** An occurrence of the header terminator in a text that starts with a
    header line lies after that line. *)
Lemma terminator_after_line (l : jsstring) (c : code_unit)
    (t a y : jsstring) :
  13 ∉ l → c ≠ 13 →
  l ++ 13 :: 10 :: c :: t = a ++ CRLFCRLF ++ y →
  ∃ a', a = l ++ 13 :: 10 :: a' ∧ c :: t = a' ++ CRLFCRLF ++ y.
Proof.
  intros Hl Hc. revert a. induction l as [|x l IH]; intros a Heq.
  - destruct a as [|a0 a]; simpl in *; [by injection Heq|].
    injection Heq as <- Heq.
    destruct a as [|a1 a]; simpl in *; [done|].
    injection Heq as <- Heq. eauto.
  - apply not_elem_of_cons in Hl as [Hx Hl].
    destruct a as [|a0 a]; simpl in *.
    + by injection Heq as -> _.
    + injection Heq as <- Heq.
      destruct (IH Hl a Heq) as (a' & -> & Ha).
      eauto.
Qed.

(** In a text without carriage return followed by the terminator, the
    terminator occurs at the end of the text and nowhere before. *)
Lemma terminator_not_before (u z a y : jsstring) :
  13 ∉ u → u ++ CRLFCRLF ++ z = a ++ CRLFCRLF ++ y →
  (length u ≤ length a)%nat.
Proof.
  revert a. induction u as [|x u IH]; intros a Hu Heq; simpl; [lia|].
  apply not_elem_of_cons in Hu as [Hx Hu].
  destruct a as [|a0 a]; simpl in *.
  - by injection Heq as -> _.
  - injection Heq as <- Heq. by apply le_n_S, IH.
Qed.

Lemma String_match_Some_occurs (s ds : jsstring) :
  String_match s = Some ds → ∃ a y, s = a ++ CRLFCRLF ++ y.
Proof.
  induction s as [|c s IH]; simpl.
  - done.
  - destruct (match_here (c :: s)) as [ds'|] eqn:Hm.
    + intros _. apply match_here_Some in Hm as (t & -> & _).
      exists (CL ++ ds'), t. by rewrite <- app_assoc.
    + intros H. destruct (IH H) as (a & y & ->).
      by exists (c :: a), y.
Qed.

(** A match found at the head is the leftmost one. *)
Lemma String_match_here (s ds : jsstring) :
  match_here s = Some ds → String_match s = Some ds.
Proof. intros H. destruct s; cbn [String_match]; by rewrite H. Qed.

Lemma match_here_line (l : jsstring) (c : code_unit) (t : jsstring) :
  13 ∉ l → c ≠ 13 → match_here (l ++ 13 :: 10 :: c :: t) = None.
Proof.
  intros Hl Hc.
  destruct (match_here _) as [ds|] eqn:Hm; [|done].
  apply match_here_Some in Hm as (t' & Heq & _ & Hd).
  rewrite app_assoc in Heq.
  apply first_cr_unique in Heq as [_ Heq]; [by injection Heq| done |].
  rewrite not_elem_of_app. split; [apply CL_no_cr | by apply digits_no_cr].
Qed.

(** The search skips a header line. *)
Lemma String_match_line (l : jsstring) (c : code_unit) (t : jsstring) :
  13 ∉ l → c ≠ 13 →
  String_match (l ++ 13 :: 10 :: c :: t) = String_match (c :: t).
Proof.
  intros Hl Hc. induction l as [|x l IH].
  - pose proof (match_here_line [] c t Hl Hc) as Hcr.
    assert (match_here (10 :: c :: t) = None) as Hlf by reflexivity.
    cbn [app String_match] in *. by rewrite Hcr, Hlf.
  - cbn [app String_match].
    change (x :: l ++ 13 :: 10 :: c :: t)
      with ((x :: l) ++ 13 :: 10 :: c :: t).
    rewrite match_here_line by done.
    apply IH. by apply not_elem_of_cons in Hl as [_ ?].
Qed.

Lemma String_match_lines (ls : list jsstring) (c : code_unit)
    (t : jsstring) :
  Forall header_line ls → c ≠ 13 →
  String_match (lines_text ls ++ c :: t) = String_match (c :: t).
Proof.
  intros Hls Hc. induction Hls as [|l ls [Hne Hl] Hls IH]; [done|].
  unfold lines_text in *. cbn [map concat].
  rewrite <- !app_assoc. cbn [app].
  destruct (concat (map (λ l0 : list Z, l0 ++ [13; 10]) ls) ++ c :: t)
    as [|c' t'] eqn:Hrest.
  { destruct (concat _); done. }
  rewrite String_match_line.
  - exact IH.
  - done.
  - destruct Hls as [|l' ls' [Hne' Hl'] _]; simpl in Hrest.
    + by injection Hrest as <- _.
    + destruct l' as [|x l']; [done|]. simpl in Hrest.
      injection Hrest as <- _. intros ->. apply Hl'. by left.
Qed.

Lemma indexOf_unfold (s p : jsstring) :
  indexOf s p =
    if startsWith s p then 0
    else match s with
         | [] => -1
         | _ :: s' => let r := indexOf s' p in if r <? 0 then -1 else r + 1
         end.
Proof. by destruct s. Qed.

(** [indexOf] returns the position of the first occurrence. *)
Lemma indexOf_first (s p a y : jsstring) :
  s = a ++ p ++ y →
  (∀ a2 y2, s = a2 ++ p ++ y2 → (length a ≤ length a2)%nat) →
  indexOf s p = Z.of_nat (length a).
Proof.
  revert s. induction a as [|x a IH]; intros s -> Hmin.
  - change ([] ++ p ++ y) with (p ++ y).
    by rewrite indexOf_unfold, startsWith_app.
  - rewrite indexOf_unfold.
    destruct (startsWith _ p) eqn:Hs.
    + apply startsWith_spec in Hs as [t Ht].
      specialize (Hmin [] t Ht). simpl in Hmin. lia.
    + cbn [app]. rewrite (IH (a ++ p ++ y) eq_refl).
      * cbn zeta. destruct (Z.ltb_spec (Z.of_nat (length a)) 0);
          simpl length; lia.
      * intros a2 y2 H2. specialize (Hmin (x :: a2) y2).
        cbn [app] in Hmin. rewrite H2 in Hmin.
        specialize (Hmin eq_refl). simpl in Hmin. lia.
Qed.

Lemma indexOf_bounds (s p : jsstring) :
  -1 <= indexOf s p <= Z.of_nat (length s).
Proof.
  induction s as [|c s IH]; rewrite indexOf_unfold.
  - destruct (startsWith [] p); simpl; lia.
  - destruct (startsWith (c :: s) p); [simpl length; lia|].
    cbn zeta. destruct (Z.ltb_spec (indexOf s p) 0); simpl length; lia.
Qed.

(** Where the pattern occurs, [indexOf] is not negative. *)
Lemma indexOf_occurs (s p a y : jsstring) :
  s = a ++ p ++ y → 0 <= indexOf s p.
Proof.
  revert s. induction a as [|x a IH]; intros s ->.
  - change ([] ++ p ++ y) with (p ++ y).
    rewrite indexOf_unfold, startsWith_app. lia.
  - rewrite indexOf_unfold. destruct (startsWith _ p); [lia|].
    cbn [app]. specialize (IH _ eq_refl). cbn zeta.
    destruct (Z.ltb_spec (indexOf (a ++ p ++ y) p) 0); lia.
Qed.

Lemma terminator_after_lines (ls : list jsstring) (c : code_unit)
    (t a y : jsstring) :
  Forall header_line ls → c ≠ 13 →
  lines_text ls ++ c :: t = a ++ CRLFCRLF ++ y →
  ∃ a', a = lines_text ls ++ a' ∧ c :: t = a' ++ CRLFCRLF ++ y.
Proof.
  intros Hls Hc. revert a.
  induction Hls as [|l ls [Hne Hl] Hls IH]; intros a Heq.
  - by exists a.
  - unfold lines_text in *. cbn [map concat] in *.
    rewrite <- !app_assoc in Heq. cbn [app] in Heq.
    destruct (concat (map (λ l0 : list Z, l0 ++ [13; 10]) ls) ++ c :: t)
      as [|c' t'] eqn:Hrest.
    { destruct (concat _); done. }
    apply terminator_after_line in Heq as (a' & -> & Ha'); [|done|].
    + destruct (IH a' Ha') as (a'' & -> & Ha'').
      exists a''. split; [|done]. by rewrite <- !app_assoc.
    + destruct Hls as [|l' ls' [Hne' Hl'] _]; simpl in Hrest.
      * by injection Hrest as <- _.
      * destruct l' as [|x l']; [done|]. simpl in Hrest.
        injection Hrest as <- _. intros ->. apply Hl'. by left.
Qed.

Lemma CL_digits_no_cr (ds : jsstring) : digits ds → 13 ∉ CL ++ ds.
Proof.
  intros Hd. rewrite not_elem_of_app.
  split; [apply CL_no_cr | by apply digits_no_cr].
Qed.

(** The pattern finds the digits of the last header line. *)
Lemma String_match_header (ls : list jsstring) (ds rest : jsstring) :
  Forall header_line ls → ds ≠ [] → digits ds →
  String_match (header_text ls ds ++ rest) = Some ds.
Proof.
  intros Hls Hne Hd. unfold header_text.
  rewrite <- !app_assoc. rewrite CL_unfold at 1. cbn [app].
  rewrite String_match_lines by done.
  apply String_match_here.
  by apply (match_here_frame ds rest).
Qed.

(** The first header terminator is the one that ends the block. *)
Lemma indexOf_header (ls : list jsstring) (ds rest : jsstring) :
  Forall header_line ls → digits ds →
  indexOf (header_text ls ds ++ rest) CRLFCRLF + 4
  = Z.of_nat (length (header_text ls ds)).
Proof.
  intros Hls Hd. unfold header_text.
  rewrite (indexOf_first _ CRLFCRLF (lines_text ls ++ CL ++ ds) rest).
  - rewrite !length_app. simpl length. lia.
  - by rewrite <- !app_assoc.
  - intros a2 y2 Heq. rewrite <- !app_assoc in Heq.
    rewrite CL_unfold in Heq at 1. cbn [app] in Heq.
    apply terminator_after_lines in Heq as (a' & -> & Heq); [|done..].
    rewrite !length_app.
    apply (terminator_not_before (CL ++ ds) rest a' y2) in Heq.
    + rewrite length_app in Heq. lia.
    + by apply CL_digits_no_cr.
Qed.

(** Before its terminator is complete, a header block holds no match. *)
Lemma String_match_partial_header (ls : list jsstring)
    (ds b z : jsstring) :
  Forall header_line ls → digits ds →
  b ++ z = header_text ls ds → z ≠ [] → String_match b = None.
Proof.
  intros Hls Hd Heq Hz.
  destruct (String_match b) as [x|] eqn:Hm; [|done].
  apply String_match_Some_occurs in Hm as (a & y & ->).
  unfold header_text in Heq. rewrite <- !app_assoc in Heq.
  rewrite CL_unfold in Heq at 1. cbn [app] in Heq.
  symmetry in Heq.
  apply terminator_after_lines in Heq as (a' & -> & Heq); [|done..].
  assert (length (CL ++ ds) ≤ length a')%nat as Hlen.
  { apply (terminator_not_before (CL ++ ds) [] a' (y ++ z)).
    - by apply CL_digits_no_cr.
    - rewrite app_nil_r. rewrite <- app_assoc. exact Heq. }
  apply (f_equal length) in Heq.
  repeat (rewrite length_app in Heq || rewrite length_cons in Heq).
  rewrite length_app in Hlen.
  destruct z; [done|]. simpl in Heq, Hlen. lia.
Qed.

End StringFacts.

(** ** The decode loop *)

Module FramerFacts.
Import JSON Main Wire StringFacts.

(** *** Decoding ASCII bytes *)

Lemma toString_ascii (data : list Z) : ascii data → Utf8.toString data = data.
Proof.
  unfold Utf8.toString. induction 1 as [|b bs Hb _ IH]; [done|].
  cbn [Utf8.decode_from]. unfold Utf8.decode_lead.
  destruct (Z.leb_spec b 127); [|lia]. cbn [app]. by rewrite IH.
Qed.

Lemma ascii_app (s t : list Z) : ascii (s ++ t) ↔ ascii s ∧ ascii t.
Proof. apply Forall_app. Qed.

Lemma ascii_concat (ss : list (list Z)) :
  ascii (concat ss) ↔ Forall ascii ss.
Proof.
  induction ss as [|s ss IH]; simpl.
  - split; constructor.
  - rewrite ascii_app, IH. split.
    + intros [? ?]. by constructor.
    + by inversion 1.
Qed.

(** *** [substring] on a buffer that starts with a frame *)

Lemma clamp_inside (s : list Z) (n : nat) :
  (n ≤ length s)%nat → clamp s (Z.of_nat n) = n.
Proof. intros H. unfold clamp, jslength. lia. Qed.

Lemma substring_middle (a b c : list Z) :
  substring (a ++ b ++ c) (Z.of_nat (length a))
            (Z.of_nat (length a) + Z.of_nat (length b)) = b.
Proof.
  unfold substring.
  rewrite <- Nat2Z.inj_add.
  rewrite !clamp_inside by (rewrite !length_app; lia).
  rewrite Nat.min_l, Nat.max_r by lia.
  rewrite drop_app_length.
  replace (length a + length b - length a)%nat with (length b) by lia.
  by rewrite take_app_length.
Qed.

Lemma substring_from_app (a c : list Z) :
  substring_from (a ++ c) (Z.of_nat (length a)) = c.
Proof.
  unfold substring_from.
  rewrite clamp_inside by (rewrite length_app; lia).
  by rewrite drop_app_length.
Qed.

(** What the loop computes on a buffer that starts with a frame. *)
Lemma frame_step (f : Frame) (rest : list Z) :
  frame_ok f →
  let buf := frame_text f ++ rest in
  let messageStart := indexOf buf CRLFCRLF + 4 in
  let contentLength := parseInt (length_digits f) in
  String_match buf = Some (length_digits f) ∧
  (jslength buf >=? messageStart + contentLength) = true ∧
  substring buf messageStart (messageStart + contentLength) = payload f ∧
  substring_from buf (messageStart + contentLength) = rest.
Proof.
  intros (Hls & Hne & Hd & Hlen & _). unfold frame_text. cbn zeta.
  rewrite <- !app_assoc.
  rewrite String_match_header, indexOf_header by done.
  rewrite Hlen. unfold jslength. split_and!.
  - done.
  - rewrite !length_app. apply Z.geb_le. lia.
  - apply substring_middle.
  - rewrite <- Nat2Z.inj_add, <- length_app, app_assoc.
    apply substring_from_app.
Qed.

(** What the loop computes on a frame that has not arrived whole: no
    match yet, or a match and too short a buffer. *)
Lemma partial_frame_step (f : Frame) (b z : list Z) :
  frame_ok f → b ++ z = frame_text f → z ≠ [] →
  String_match b = None ∨
  (String_match b = Some (length_digits f) ∧
   (jslength b >=? indexOf b CRLFCRLF + 4 + parseInt (length_digits f))
   = false).
Proof.
  intros (Hls & Hne & Hd & Hlen & _) Heq Hz. unfold frame_text in Heq.
  set (h := header_text (headers f) (length_digits f)) in *.
  destruct (decide (length b < length h)%nat) as [Hlt|Hge].
  - left.
    apply (String_match_partial_header (headers f) (length_digits f) b
             (drop (length b) h)); [done..| |].
    + change (b ++ drop (length b) h = h).
      rewrite <- (take_drop (length b) h) at 2. f_equal.
      apply (f_equal (take (length b))) in Heq.
      rewrite take_app_length in Heq.
      by rewrite take_app_le in Heq by lia.
    + intros Hnil. apply (f_equal length) in Hnil.
      rewrite length_drop in Hnil. simpl in Hnil. lia.
  - right.
    assert (b = h ++ drop (length h) b) as Hb.
    { rewrite <- (take_drop (length h) b) at 1. f_equal.
      apply (f_equal (take (length h))) in Heq.
      rewrite take_app_length in Heq.
      by rewrite take_app_le in Heq by lia. }
    set (p' := drop (length h) b) in *. rewrite Hb in Heq |- *.
    rewrite <- app_assoc in Heq. apply app_inv_head in Heq.
    subst h. rewrite String_match_header, indexOf_header by done.
    split; [done|].
    rewrite Hlen. unfold jslength. rewrite <- Heq, !length_app.
    rewrite Z.geb_leb. apply Z.leb_gt.
    destruct z; [done|]. simpl length. lia.
Qed.

End FramerFacts.

(** ** Running the handlers *)

Module RunFacts.
Import JSON Main Wire Invariants.

Lemma bind_Normal {A B} (c : JS A) (k : A → JS B) (w w1 : World) (a : A) :
  c w = Normal a w1 → bind c k w = k a w1.
Proof. unfold bind. by intros ->. Qed.

Lemma bind_Throw {A B} (c : JS A) (k : A → JS B) (w w1 : World) (e : Error) :
  c w = Throw e w1 → bind c k w = Throw e w1.
Proof. unfold bind. by intros ->. Qed.

Lemma run_property (v : option Json) (k : list Z) (x : option Json)
    (w : World) :
  get_property v k = Some x → property v k w = Normal x w.
Proof. unfold property. by intros ->. Qed.

Lemma run_property_null (v : option Json) (k : list Z) (w : World) :
  get_property v k = None → property v k w = Throw TypeError w.
Proof. unfold property. by intros ->. Qed.

Lemma run_deref (a : nat) (sd : ServerData) (w : World) :
  heap w !! a = Some sd → deref a w = Normal sd w.
Proof. unfold deref. by intros ->. Qed.

Lemma run_update (a : nat) (f : ServerData → ServerData) (sd : ServerData)
    (w : World) :
  heap w !! a = Some sd →
  update a f w = Normal tt (with_heap (fun h => <[a := f sd]> h) w).
Proof. intros H. unfold update. by rewrite (bind_Normal _ _ _ _ _ (run_deref _ _ _ H)). Qed.

Lemma null_or_not (m : Json) : m = JNull ∨ m ≠ JNull.
Proof. destruct m; by eauto. Qed.

(** A property of a value that is not [null] or [undefined] can be read. *)
Lemma get_property_defined (m : Json) (k : list Z) :
  m ≠ JNull → ∃ x, get_property (Some m) k = Some x.
Proof. destruct m; intros Hm; simpl; eauto; done. Qed.

Lemma get_property_truthy (v : option Json) (k : list Z) :
  truthy v = true → ∃ x, get_property v k = Some x.
Proof. destruct v as [[]|]; simpl; eauto; done. Qed.

Lemma run_settle (p : nat) (s : PromiseState) (w : World) :
  settle p s w = Normal tt (settle_world p s w).
Proof. reflexivity. Qed.

Lemma run_new_promise (w : World) :
  new_promise w
  = Normal (length (promises w))
      (with_promises (fun ps => ps ++ [Pending]) w).
Proof. reflexivity. Qed.

(** *** The frame of a handler *)

Lemma handler_frame_refl (w : World) : handler_frame w w.
Proof. by split_and!. Qed.

Lemma handler_frame_trans (w1 w2 w3 : World) :
  handler_frame w1 w2 → handler_frame w2 w3 → handler_frame w1 w3.
Proof.
  intros (H1 & H2 & H3) (H4 & H5 & H6).
  split_and!; [congruence | congruence | intros a; by rewrite H6, H3].
Qed.

Lemma handler_frame_length (w w' : World) :
  handler_frame w w' → length (heap w') = length (heap w).
Proof.
  intros (_ & _ & H).
  destruct (decide (length (heap w') = length (heap w))) as [|Hne]; [done|].
  exfalso.
  destruct (decide (length (heap w') < length (heap w))%nat).
  - specialize (H (length (heap w'))).
    rewrite (lookup_ge_None_2 (heap w')) in H by lia.
    destruct (lookup_lt_is_Some_2 (heap w) (length (heap w'))) as [x Hx];
      [lia|]. by rewrite Hx in H.
  - specialize (H (length (heap w))).
    rewrite (lookup_ge_None_2 (heap w)) in H by lia.
    destruct (lookup_lt_is_Some_2 (heap w') (length (heap w))) as [x Hx];
      [lia|]. by rewrite Hx in H.
Qed.

Lemma handler_frame_registry_ok (w w' : World) :
  handler_frame w w' → registry_ok w → registry_ok w'.
Proof.
  intros Hf Hok sid a Ha. rewrite (handler_frame_length _ _ Hf).
  destruct Hf as (Hs & _). rewrite Hs in Ha. eauto.
Qed.

Lemma handler_frame_buffer (w w' : World) (a : nat) :
  handler_frame w w' → buffer_at w' a = buffer_at w a.
Proof.
  intros (_ & _ & H). specialize (H a). unfold buffer_at.
  destruct (heap w' !! a) as [[]|], (heap w !! a) as [[]|]; simpl in *;
    try done.
  by injection H as _ _ -> _.
Qed.

(** Changing the pending requests of one object is within the frame. *)
Lemma handler_frame_pending (w : World) (a : nat) (sd : ServerData)
    (m : gmap Z nat) :
  heap w !! a = Some sd →
  handler_frame w
    (with_heap (fun h => <[a := with_pendingRequests m sd]> h) w).
Proof.
  intros Ha. split_and!; [done..|]. intros a'. cbn [heap with_heap].
  destruct (decide (a = a')) as [<-|Hne].
  - rewrite list_lookup_insert_eq by (by eapply lookup_lt_Some).
    by rewrite Ha.
  - by rewrite list_lookup_insert_ne.
Qed.

Lemma handler_frame_settle (w : World) (p : nat) (s : PromiseState) :
  handler_frame w (settle_world p s w).
Proof. by split_and!. Qed.

Lemma same_but_ipc_frame (w w' : World) :
  same_but_ipc w w' → handler_frame w w'.
Proof. intros ->. by split_and!. Qed.

(** *** The two blocks of [handleLSPMessage] *)

(** The second block sends diagnostics to the renderer and does nothing
    else. *)
Lemma handle_notification_effect (serverId : list Z) (m : Json) (w : World) :
  m ≠ JNull →
  ∃ w', handle_notification serverId m w = Normal tt w' ∧ same_but_ipc w w'.
Proof.
  intros Hm. unfold handle_notification.
  destruct (get_property_defined m (js "method") Hm) as [x Hx].
  rewrite (bind_Normal _ _ _ _ _ (run_property _ _ _ _ Hx)).
  destruct (truthy x); [|by exists w; destruct w].
  destruct (strict_equals_string _ _); [|by exists w; destruct w].
  unfold bind at 1, gets. destruct (mainWindow w) eqn:Hopen;
    [|by exists w; destruct w].
  destruct (get_property_defined m (js "params") Hm) as [ps Hps].
  rewrite (bind_Normal _ _ _ _ _ (run_property _ _ _ _ Hps)).
  eexists. split; [reflexivity|]. by destruct w.
Qed.

(** The first block, on a message without [id] or whose [id] is not
    pending: nothing happens. *)
Lemma handle_response_unknown (a : nat) (m : Json) (w : World)
    (sd : ServerData) (id : option Json) :
  heap w !! a = Some sd →
  get_property (Some m) (js "id") = Some id →
  Map_get (pendingRequests sd) id = None →
  handle_response a m w = Normal tt w.
Proof.
  intros Ha Hid Hget. unfold handle_response.
  rewrite (bind_Normal _ _ _ _ _ (run_property _ _ _ _ Hid)).
  destruct id as [j|]; [|done].
  rewrite (bind_Normal _ _ _ _ _ (run_deref _ _ _ Ha)).
  by rewrite Hget.
Qed.

(** The first block, on a message whose [id] is pending: the entry is
    deleted and its promise settled, with the error or with the result
    of the message. *)
Lemma handle_response_pending (a : nat) (m : Json) (w : World)
    (sd : ServerData) (id : option Json) (p : nat) :
  heap w !! a = Some sd →
  get_property (Some m) (js "id") = Some id →
  Map_get (pendingRequests sd) id = Some p →
  ∃ error result,
    get_property (Some m) (js "error") = Some error ∧
    get_property (Some m) (js "result") = Some result ∧
    handle_response a m w =
      Normal tt
        (settle_world p
           (if truthy error
            then Rejected (ResponseError
                   (default None (get_property error (js "message"))))
            else Fulfilled result)
           (with_heap
              (fun h => <[a := with_pendingRequests
                                 (Map_delete (pendingRequests sd) id) sd]> h)
              w)).
Proof.
  intros Ha Hid Hget.
  assert (m ≠ JNull) as Hm by (intros ->; done).
  destruct (get_property_defined m (js "error") Hm) as [error Herr].
  destruct (get_property_defined m (js "result") Hm) as [result Hres].
  exists error, result. split_and!; [done..|].
  unfold handle_response.
  rewrite (bind_Normal _ _ _ _ _ (run_property _ _ _ _ Hid)).
  destruct id as [j|]; [|done].
  rewrite (bind_Normal _ _ _ _ _ (run_deref _ _ _ Ha)).
  rewrite Hget.
  rewrite (bind_Normal _ _ _ _ _ (run_update _ _ _ _ Ha)).
  rewrite (bind_Normal _ _ _ _ _ (run_property _ _ _ _ Herr)).
  destruct (truthy error) eqn:Htruthy.
  - destruct (get_property_truthy error (js "message") Htruthy) as [msg Hmsg].
    rewrite (bind_Normal _ _ _ _ _ (run_property _ _ _ _ Hmsg)).
    by rewrite Hmsg.
  - by rewrite (bind_Normal _ _ _ _ _ (run_property _ _ _ _ Hres)).
Qed.

(** Whatever the message, the first block stays within the frame. *)
Lemma handle_response_frame (a : nat) (m : Json) (w : World) :
  m ≠ JNull → is_Some (heap w !! a) →
  ∃ w', handle_response a m w = Normal tt w' ∧ handler_frame w w' ∧
        handled w' = handled w ∧ console w' = console w.
Proof.
  intros Hm [sd Ha].
  destruct (get_property_defined m (js "id") Hm) as [id Hid].
  destruct (Map_get (pendingRequests sd) id) as [p|] eqn:Hget.
  - destruct (handle_response_pending a m w sd id p Ha Hid Hget)
      as (error & result & _ & _ & ->).
    eexists. split; [reflexivity|]. split_and!; [|done..].
    eapply handler_frame_trans; [|apply handler_frame_settle].
    by apply handler_frame_pending.
  - rewrite (handle_response_unknown a m w sd id Ha Hid Hget).
    exists w. split_and!; [done| apply handler_frame_refl | done..].
Qed.

(** *** [handleLSPMessage] *)

Lemma handleLSPMessage_unregistered (serverId : list Z) (m : Json)
    (w : World) :
  lspServers w !! serverId = None →
  handleLSPMessage serverId m w
  = Normal tt (with_handled (fun l => l ++ [(serverId, m)]) w).
Proof. intros H. unfold handleLSPMessage, bind, modify, gets. cbn. by rewrite H. Qed.

Lemma handleLSPMessage_null (serverId : list Z) (w : World) (a : nat) :
  lspServers w !! serverId = Some a →
  handleLSPMessage serverId JNull w
  = Throw TypeError (with_handled (fun l => l ++ [(serverId, JNull)]) w).
Proof. intros H. unfold handleLSPMessage, bind, modify, gets. cbn. by rewrite H. Qed.

Lemma registered_Some (w : World) (serverId : list Z) (a : nat) :
  lspServers w !! serverId = Some a → registered w serverId = true.
Proof. intros H. unfold registered. rewrite H. by apply bool_decide_eq_true. Qed.

Lemma registered_None (w : World) (serverId : list Z) :
  lspServers w !! serverId = None → registered w serverId = false.
Proof.
  intros H. unfold registered. rewrite H. apply bool_decide_eq_false.
  by intros [? ?].
Qed.

Lemma handler_frame_registered (w w' : World) (serverId : list Z) :
  handler_frame w w' → registered w' serverId = registered w serverId.
Proof. intros (H & _). unfold registered. by rewrite H. Qed.

(** The handler of a message ends within the frame and has recorded
    the message; it ends by a TypeError when the message is [null] and
    the server registered, and normally otherwise. *)
Lemma handleLSPMessage_frame (serverId : list Z) (m : Json) (w : World) :
  registry_ok w →
  ∃ w', handleLSPMessage serverId m w =
          match log_of (registered w serverId) (Some m) with
          | [] => Normal tt w'
          | _ => Throw TypeError w'
          end ∧
        handler_frame w w' ∧
        handled w' = handled w ++ [(serverId, m)] ∧
        console w' = console w.
Proof.
  intros Hok.
  destruct (lspServers w !! serverId) as [a|] eqn:Hs.
  - rewrite (registered_Some _ _ _ Hs).
    destruct (null_or_not m) as [->|Hm].
    + rewrite (handleLSPMessage_null _ _ _ Hs). eexists.
      split; [done|]. by split_and!.
    + unfold handleLSPMessage, bind at 1, modify, bind at 1, gets.
      cbn [lspServers with_handled]. rewrite Hs.
      set (w0 := with_handled _ w).
      destruct (handle_response_frame a m w0 Hm) as (w1 & Hr & Hf1 & Hh1 & Hc1).
      { apply lookup_lt_is_Some_2. by eapply Hok. }
      rewrite (bind_Normal _ _ _ _ _ Hr).
      destruct (handle_notification_effect serverId m w1 Hm) as (w2 & Hn & Hi).
      rewrite Hn. exists w2. split; [by destruct m|].
      pose proof (same_but_ipc_frame _ _ Hi) as Hf2.
      rewrite Hi. cbn [handled console with_ipc]. rewrite Hh1, Hc1.
      split_and!; [|done..].
      rewrite <- Hi. eapply handler_frame_trans; [|exact Hf2].
      eapply handler_frame_trans; [|exact Hf1]. by split_and!.
  - rewrite (registered_None _ _ Hs).
    rewrite (handleLSPMessage_unregistered _ _ _ Hs). eexists.
    split; [by destruct m|]. by split_and!.
Qed.

(** *** [send-lsp-request] and its closures *)

Section Send.
Variable JSON_stringify : Json → list Z.

Lemma send_lsp_request_effect (serverId method : list Z)
    (params : option Json) (w : World) (a : nat) (sd : ServerData) :
  lspServers w !! serverId = Some a → heap w !! a = Some sd →
  send_lsp_request JSON_stringify serverId method params w =
  Normal (length (promises w))
    (sent_world a sd (requestIdCounter sd + 1)
       (frame (JSON_stringify
                 (request_object (requestIdCounter sd + 1) method params)))
       w).
Proof.
  intros Hs Ha. unfold send_lsp_request.
  assert (a < length (heap w))%nat as Hlt by (by eapply lookup_lt_Some).
  unfold bind at 1, gets. rewrite Hs.
  rewrite (bind_Normal _ _ _ _ _ (run_deref _ _ _ Ha)).
  rewrite (bind_Normal _ _ _ _ _ (run_update _ _ _ _ Ha)).
  set (rid := requestIdCounter sd + 1).
  set (msg := frame _).
  set (w1 := with_heap _ w).
  rewrite (bind_Normal _ _ _ _ _ (run_new_promise w1)).
  set (w2 := with_promises _ w1).
  assert (heap w2 !! a = Some (with_requestIdCounter rid sd)) as Ha2.
  { subst w2 w1. cbn [heap with_heap with_promises].
    by apply list_lookup_insert_eq. }
  rewrite (bind_Normal _ _ _ _ _ (run_update _ _ _ _ Ha2)).
  set (w3 := with_heap _ w2).
  assert (heap w3 !! a =
            Some (with_pendingRequests
                    (<[rid := length (promises w1)]> (pendingRequests sd))
                    (with_requestIdCounter rid sd))) as Ha3.
  { subst w3 w2 w1. cbn [heap with_heap with_promises].
    apply list_lookup_insert_eq. by rewrite length_insert. }
  unfold stdin_write.
  rewrite (bind_Normal _ _ _ _ _ (run_update _ _ _ _ Ha3)).
  unfold bind, modify, ret. f_equal.
  subst w3 w2 w1. clearbody msg rid. clear.
  unfold sent_world, sent_data. destruct w, sd.
  unfold with_callbacks, with_heap, with_promises, with_process,
    with_pendingRequests, with_requestIdCounter. cbn.
  rewrite !list_insert_insert_eq. by rewrite <- app_assoc.
Qed.

Lemma sent_world_lookup (a : nat) (sd : ServerData) (requestId : Z)
    (msg : list Z) (w : World) :
  heap w !! a = Some sd →
  heap (sent_world a sd requestId msg w) !! a
  = Some (sent_data sd requestId (length (promises w)) msg).
Proof.
  intros Ha. unfold sent_world.
  cbn [heap with_heap with_promises with_callbacks].
  apply list_lookup_insert_eq. by eapply lookup_lt_Some.
Qed.

(** Calls in a row take the ids that follow the counter and fresh
    promises, in order, and leave the older requests as they are. *)
Lemma send_requests_effect (serverId : list Z) (a : nat)
    (requests : list (list Z * option Json)) :
  ∀ (w : World) (sd : ServerData),
    lspServers w !! serverId = Some a → heap w !! a = Some sd →
    ∃ w1 sd1,
      send_requests JSON_stringify serverId requests w
      = Normal (seq (length (promises w)) (length requests)) w1 ∧
      lspServers w1 = lspServers w ∧ heap w1 !! a = Some sd1 ∧
      promises w1 = promises w ++ replicate (length requests) Pending ∧
      stdin (process sd1)
      = stdin (process sd)
        ++ request_messages JSON_stringify (requestIdCounter sd) requests ∧
      requestIdCounter sd1
      = requestIdCounter sd + Z.of_nat (length requests) ∧
      (∀ k, (k < length requests)%nat →
            pendingRequests sd1 !! (requestIdCounter sd + 1 + Z.of_nat k)
            = Some (length (promises w) + k)%nat) ∧
      (∀ key, key <= requestIdCounter sd →
              pendingRequests sd1 !! key = pendingRequests sd !! key).
Proof.
  induction requests as [|[method params] rest IH]; intros w sd Hs Ha.
  - exists w, sd. cbn. rewrite !app_nil_r.
    split_and!; try done; [lia | intros; lia].
  - cbn [send_requests].
    rewrite (bind_Normal _ _ _ _ _
               (send_lsp_request_effect serverId method params w a sd Hs Ha)).
    set (msg := frame _). set (w' := sent_world _ _ _ _ _).
    pose proof (sent_world_lookup a sd (requestIdCounter sd + 1) msg w Ha)
      as Ha'. fold w' in Ha'.
    set (sd' := sent_data _ _ _ _) in Ha'.
    destruct (IH w' sd') as
      (w1 & sd1 & Hrun & Hs1 & Ha1 & Hp1 & Hin1 & Hc1 & Hpend1 & Hold1);
      [done..|].
    assert (length (promises w') = S (length (promises w))) as Hlen.
    { subst w'. unfold sent_world.
      cbn [promises with_promises with_heap with_callbacks].
      rewrite length_app. simpl. lia. }
    exists w1, sd1. rewrite (bind_Normal _ _ _ _ _ Hrun).
    rewrite Hlen in *. split_and!.
    + done.
    + done.
    + done.
    + rewrite Hp1. subst w'. unfold sent_world.
      cbn [promises with_promises with_heap with_callbacks].
      by rewrite <- app_assoc.
    + rewrite Hin1. subst sd'. cbn. by rewrite <- app_assoc.
    + rewrite Hc1. subst sd'. cbn [requestIdCounter sent_data length]. lia.
    + intros [|k] Hk.
      * rewrite Hold1 by (subst sd'; cbn; lia).
        subst sd'. cbn [pendingRequests sent_data].
        replace (requestIdCounter sd + 1 + Z.of_nat 0)
          with (requestIdCounter sd + 1) by lia.
        rewrite lookup_insert_eq. f_equal. lia.
      * specialize (Hpend1 k ltac:(simpl in Hk; lia)).
        subst sd'. cbn [requestIdCounter sent_data] in Hpend1.
        replace (requestIdCounter sd + 1 + Z.of_nat (S k))
          with (requestIdCounter sd + 1 + 1 + Z.of_nat k) by lia.
        rewrite Hpend1. f_equal. lia.
    + intros key Hkey.
      rewrite Hold1 by (subst sd'; cbn; lia).
      subst sd'. cbn [pendingRequests sent_data].
      apply lookup_insert_ne. lia.
Qed.

End Send.

(** The timer of a request that is still pending deletes its entry and
    rejects its promise. *)
Lemma timeout_callback_pending (a : nat) (requestId : Z) (p q : nat)
    (w : World) (sd : ServerData) :
  heap w !! a = Some sd → pendingRequests sd !! requestId = Some q →
  timeout_callback a requestId p w =
  Normal tt
    (settle_world p (Rejected RequestTimeout)
       (with_heap
          (fun h => <[a := with_pendingRequests
                             (delete requestId (pendingRequests sd)) sd]> h)
          w)).
Proof.
  intros Ha Hq. unfold timeout_callback.
  rewrite (bind_Normal _ _ _ _ _ (run_deref _ _ _ Ha)), Hq.
  by rewrite (bind_Normal _ _ _ _ _ (run_update _ _ _ _ Ha)).
Qed.

(** The timer of a request that is no longer pending does nothing. *)
Lemma timeout_callback_settled (a : nat) (requestId : Z) (p : nat)
    (w : World) (sd : ServerData) :
  heap w !! a = Some sd → pendingRequests sd !! requestId = None →
  timeout_callback a requestId p w = Normal tt w.
Proof.
  intros Ha Hq. unfold timeout_callback.
  by rewrite (bind_Normal _ _ _ _ _ (run_deref _ _ _ Ha)), Hq.
Qed.

Lemma write_callback_error (a : nat) (requestId : Z) (p : nat) (e : Error)
    (w : World) (sd : ServerData) :
  heap w !! a = Some sd →
  write_callback a requestId p (Some e) w =
  Normal tt
    (settle_world p (Rejected e)
       (with_heap
          (fun h => <[a := with_pendingRequests
                             (delete requestId (pendingRequests sd)) sd]> h)
          w)).
Proof.
  intros Ha. unfold write_callback.
  by rewrite (bind_Normal _ _ _ _ _ (run_update _ _ _ _ Ha)).
Qed.

(** A pending promise that is settled takes the state it is given. *)
Lemma settle_world_pending (p : nat) (s : PromiseState) (w : World) :
  promises w !! p = Some Pending →
  promises (settle_world p s w) !! p = Some s.
Proof.
  intros Hp. unfold settle_world. cbn [promises with_promises with_settled].
  rewrite Hp. apply list_lookup_insert_eq. by eapply lookup_lt_Some.
Qed.

Lemma settle_world_other (p q : nat) (s : PromiseState) (w : World) :
  p ≠ q → promises (settle_world p s w) !! q = promises w !! q.
Proof.
  intros Hne. unfold settle_world. cbn [promises with_promises with_settled].
  destruct (promises w !! p) as [[]|]; try done.
  by apply list_lookup_insert_ne.
Qed.

(** A message whose id is not pending on a registered server changes
    neither a promise nor a server object. *)
Lemma handleLSPMessage_unknown_id (serverId : list Z) (m : Json)
    (w : World) (a : nat) (sd : ServerData) (requestId : Z) :
  lspServers w !! serverId = Some a → heap w !! a = Some sd →
  has_id m requestId → pendingRequests sd !! requestId = None →
  ∃ w', handleLSPMessage serverId m w = Normal tt w' ∧
        promises w' = promises w ∧ settled w' = settled w ∧
        heap w' = heap w ∧ lspServers w' = lspServers w.
Proof.
  intros Hs Ha (id & Hid & Hkey) Hnone.
  assert (m ≠ JNull) as Hm by (intros ->; done).
  unfold handleLSPMessage, bind at 1, modify, bind at 1, gets.
  cbn [lspServers with_handled]. rewrite Hs.
  set (w0 := with_handled _ w).
  rewrite (bind_Normal _ _ _ _ _
             (handle_response_unknown a m w0 sd id Ha Hid
                ltac:(unfold Map_get; by rewrite Hkey))).
  destruct (handle_notification_effect serverId m w0 Hm) as (w' & -> & ->).
  by eexists.
Qed.

(** A response whose id is pending on a registered server: the entry
    is deleted and its promise fulfilled with the result of the
    message; no other promise is touched. *)
Lemma handleLSPMessage_response (serverId : list Z) (m : Json) (w : World)
    (a : nat) (sd : ServerData) (requestId : Z) (p : nat)
    (result : option Json) :
  lspServers w !! serverId = Some a → heap w !! a = Some sd →
  pendingRequests sd !! requestId = Some p →
  response_to m requestId result →
  ∃ w', handleLSPMessage serverId m w = Normal tt w' ∧
        lspServers w' = lspServers w ∧
        heap w' = <[a := with_pendingRequests
                           (delete requestId (pendingRequests sd)) sd]>
                    (heap w) ∧
        promises w' = promises (settle_world p (Fulfilled result) w) ∧
        settled w' = settled w ++ [(p, Fulfilled result)].
Proof.
  intros Hs Ha Hp ((id & Hid & Hkey) & (error & Herr & Hfalsy) & Hres).
  assert (m ≠ JNull) as Hm by (intros ->; done).
  unfold handleLSPMessage, bind at 1, modify, bind at 1, gets.
  cbn [lspServers with_handled]. rewrite Hs.
  set (w0 := with_handled _ w).
  destruct (handle_response_pending a m w0 sd id p Ha Hid)
    as (error' & result' & Herr' & Hres' & Hrun).
  { unfold Map_get. by rewrite Hkey. }
  rewrite Herr in Herr'. rewrite Hres in Hres'.
  injection Herr' as <-. injection Hres' as <-.
  rewrite Hfalsy in Hrun. unfold Map_delete in Hrun. rewrite Hkey in Hrun.
  rewrite (bind_Normal _ _ _ _ _ Hrun).
  destruct (handle_notification_effect serverId m
              (settle_world p (Fulfilled result)
                 (with_heap
                    (λ h, <[a:=with_pendingRequests
                                 (delete requestId (pendingRequests sd)) sd]> h)
                    w0)) Hm) as (w' & -> & ->).
  by eexists.
Qed.

(** Responses delivered in any order: each fulfils the promise of the
    call it answers. *)
Lemma handle_messages_replies (serverId : list Z) (a : nat)
    (id_of : nat → Z) (promise_of : nat → nat)
    (replies : list Reply) :
  Inj (=) (=) id_of → Inj (=) (=) promise_of →
  ∀ (w : World) (sd : ServerData),
    lspServers w !! serverId = Some a → heap w !! a = Some sd →
    NoDup (map reply_to replies) →
    (∀ r, r ∈ replies →
          pendingRequests sd !! id_of (reply_to r)
          = Some (promise_of (reply_to r)) ∧
          promises w !! promise_of (reply_to r) = Some Pending ∧
          response_to (reply_message r) (id_of (reply_to r))
                      (reply_result r)) →
    ∃ w', handle_messages serverId (map reply_message replies) w
          = Normal tt w' ∧
          (∀ r, r ∈ replies →
                promises w' !! promise_of (reply_to r)
                = Some (Fulfilled (reply_result r))) ∧
          (∀ q, (∀ r, r ∈ replies → q ≠ promise_of (reply_to r)) →
                promises w' !! q = promises w !! q).
Proof.
  intros Hinj_id Hinj_p.
  induction replies as [|r rest IH]; intros w sd Hs Ha Hnodup Hpre.
  - exists w. split_and!; [done| |done]. intros r Hr. by apply elem_of_nil in Hr.
  - cbn [map] in Hnodup. apply NoDup_cons in Hnodup as [Hnotin Hnodup].
    destruct (Hpre r ltac:(by left)) as (Hpend & Hpending & Hresp).
    destruct (handleLSPMessage_response serverId (reply_message r) w a sd
                _ _ _ Hs Ha Hpend Hresp)
      as (w1 & Hrun & Hs1 & Hh1 & Hp1 & _).
    assert (∀ r', r' ∈ rest → reply_to r' ≠ reply_to r) as Hother.
    { intros r' Hr' Heq. apply Hnotin. rewrite <- Heq.
      apply list_elem_of_fmap. by exists r'. }
    destruct (IH w1 (with_pendingRequests
                       (delete (id_of (reply_to r)) (pendingRequests sd)) sd))
      as (w' & Hrun' & Hdone & Hrest).
    + by rewrite Hs1.
    + rewrite Hh1. apply list_lookup_insert_eq. by eapply lookup_lt_Some.
    + done.
    + intros r' Hr'. destruct (Hpre r' ltac:(by right)) as (H1 & H2 & H3).
      split_and!; [| |done].
      * cbn [pendingRequests with_pendingRequests].
        rewrite lookup_delete_ne; [done|].
        intros Heq. by apply Hinj_id, symmetry, Hother in Heq.
      * rewrite Hp1, settle_world_other; [done|].
        intros Heq. by apply Hinj_p, symmetry, Hother in Heq.
    + exists w'. cbn [map handle_messages].
      rewrite (bind_Normal _ _ _ _ _ Hrun). split_and!; [done| |].
      * intros r' [->|Hr']%elem_of_cons; [|by apply Hdone].
        rewrite Hrest.
        -- rewrite Hp1. by apply settle_world_pending.
        -- intros r' Hr' Heq. by apply Hinj_p, symmetry, Hother in Heq.
      * intros q Hq. rewrite Hrest.
        -- rewrite Hp1. apply settle_world_other.
           intros Heq. by apply (Hq r); [left|].
        -- intros r' Hr'. apply Hq. by right.
Qed.

End RunFacts.

(** ** The stdout handler *)

Module DecodeFacts.
Import JSON Main Wire Invariants StringFacts FramerFacts RunFacts.

Lemma encode_ascii (s : list Z) : ascii s → Utf8.encode s = s.
Proof.
  induction 1 as [|c s Hc _ IH]; [done|]. cbn [Utf8.encode].
  unfold Utf8.is_high_surrogate, Utf8.is_low_surrogate,
    Utf8.encode_code_point.
  destruct (Z.leb_spec 0xD800 c); [lia|].
  destruct (Z.leb_spec 0xDC00 c); [lia|]. cbn [andb].
  destruct (Z.ltb_spec c 0x80); [|lia]. by rewrite IH.
Qed.

Lemma parseInt_nonneg (ds : list Z) : digits ds → 0 <= parseInt ds.
Proof.
  intros Hd. unfold parseInt.
  assert (∀ acc, 0 <= acc →
            0 <= fold_left (λ acc c : Z, 10 * acc + (c - 48)) ds acc) as H;
    [|by apply H].
  induction Hd as [|d ds Hd _ IH]; intros acc Hacc; [done|].
  cbn [fold_left]. apply IH. unfold is_digit in Hd.
  apply andb_true_iff in Hd as [H1 _]. apply Z.leb_le in H1. lia.
Qed.

Lemma String_match_Some_digits (s ds : list Z) :
  String_match s = Some ds → digits ds.
Proof.
  induction s as [|c s IH]; cbn [String_match].
  - destruct (match_here []) eqn:Hm; [|done].
    apply match_here_Some in Hm as (? & ? & ? & ?). by intros [= <-].
  - destruct (match_here (c :: s)) eqn:Hm; [|done].
    apply match_here_Some in Hm as (? & ? & ? & ?). by intros [= <-].
Qed.

Lemma buffer_at_Some (w : World) (a : nat) (b : list Z) :
  buffer_at w a = Some b ↔
  ∃ sd, heap w !! a = Some sd ∧ messageBuffer sd = b.
Proof.
  unfold buffer_at. destruct (heap w !! a) as [sd|]; simpl.
  - split; [intros [= <-]; eauto | by intros (? & [= <-] & <-)].
  - split; [done | by intros (? & ? & _)].
Qed.

Lemma registry_ok_with_heap (w : World) (a : nat) (sd : ServerData) :
  registry_ok w →
  registry_ok (with_heap (fun h => <[a := sd]> h) w).
Proof.
  intros Hok sid a' Ha'. cbn [heap with_heap]. rewrite length_insert.
  by eapply Hok.
Qed.

Lemma buffer_at_with_heap (w : World) (a : nat) (sd sd' : ServerData) :
  heap w !! a = Some sd →
  buffer_at (with_heap (fun h => <[a := sd']> h) w) a
  = Some (messageBuffer sd').
Proof.
  intros Ha. unfold buffer_at. cbn [heap with_heap].
  by rewrite list_lookup_insert_eq by (by eapply lookup_lt_Some).
Qed.

Section Loop.
Variable JSON_parse : list Z → option Json.

Lemma process_messages_unfold (fuel : nat) (serverId : list Z) (a : nat) :
  process_messages JSON_parse fuel serverId a =
  (let! sd := deref a in
   match String_match (messageBuffer sd) with
   | None => ret tt
   | Some contentLengthMatch =>
       let contentLength := parseInt contentLengthMatch in
       let messageStart := indexOf (messageBuffer sd) CRLFCRLF + 4 in
       if jslength (messageBuffer sd) >=? messageStart + contentLength then
         do! update a
               (with_messageBuffer
                  (substring_from (messageBuffer sd)
                                  (messageStart + contentLength))) in
         do! parse_and_handle JSON_parse serverId
               (substring (messageBuffer sd) messageStart
                          (messageStart + contentLength)) in
         match fuel with
         | S fuel' => process_messages JSON_parse fuel' serverId a
         | O => stuck
         end
       else ret tt
   end).
Proof. by destruct fuel. Qed.

(** The [try] statement always ends normally, within the frame; a
    payload that parses has been handed to [handleLSPMessage], and
    what was thrown has been logged. *)
Lemma parse_and_handle_effect (serverId content : list Z) (w : World) :
  registry_ok w →
  ∃ w', parse_and_handle JSON_parse serverId content w = Normal tt w' ∧
        handler_frame w w' ∧
        handled w' = handled w ++ parsed serverId [JSON_parse content] ∧
        console w' = console w
                     ++ log_of (registered w serverId) (JSON_parse content).
Proof.
  intros Hok. unfold parse_and_handle, try_catch, parsed.
  destruct (JSON_parse content) as [m|]; cbn [omap map id].
  - destruct (handleLSPMessage_frame serverId m w Hok)
      as (w' & H & Hf & Hh & Hc); rewrite H.
    destruct (log_of _ (Some m)) as [|e l] eqn:Hlog.
    + exists w'. rewrite app_nil_r. by split_and!.
    + assert (e :: l = [LogParseError TypeError]) as ->.
      { destruct m; try done. simpl in Hlog.
        by destruct (registered w serverId). }
      eexists. split; [reflexivity|].
      cbn [handled console with_console]. rewrite Hc.
      split_and!; [|done..]. destruct Hf as (? & ? & ?). by split_and!.
  - eexists. split; [reflexivity|]. cbn. rewrite app_nil_r.
    by split_and!.
Qed.

(** A payload that does not parse is logged and nothing else. *)
Lemma parse_and_handle_syntax_error (serverId content : list Z)
    (w : World) :
  JSON_parse content = None →
  parse_and_handle JSON_parse serverId content w
  = Normal tt (with_console (fun l => l ++ [LogParseError SyntaxError]) w).
Proof. intros H. unfold parse_and_handle, try_catch. by rewrite H. Qed.

(** One turn of the loop on a buffer from which a message can be
    taken. *)
Lemma process_messages_turn (fuel : nat) (serverId : list Z) (a : nat)
    (w : World) (sd : ServerData) (ds : list Z) :
  heap w !! a = Some sd →
  String_match (messageBuffer sd) = Some ds →
  let messageStart := indexOf (messageBuffer sd) CRLFCRLF + 4 in
  (jslength (messageBuffer sd) >=? messageStart + parseInt ds) = true →
  process_messages JSON_parse fuel serverId a w =
  (do! parse_and_handle JSON_parse serverId
         (substring (messageBuffer sd) messageStart
                    (messageStart + parseInt ds)) in
   match fuel with
   | S fuel' => process_messages JSON_parse fuel' serverId a
   | O => stuck
   end)
    (with_heap
       (fun h => <[a := with_messageBuffer
                          (substring_from (messageBuffer sd)
                             (messageStart + parseInt ds)) sd]> h) w).
Proof.
  intros Ha Hm ms Hlen. rewrite process_messages_unfold.
  rewrite (bind_Normal _ _ _ _ _ (run_deref _ _ _ Ha)).
  rewrite Hm. cbn zeta. fold ms. rewrite Hlen.
  by rewrite (bind_Normal _ _ _ _ _ (run_update _ _ _ _ Ha)).
Qed.

(** The loop stops at a buffer that holds no whole message. *)
Lemma process_messages_waiting (fuel : nat) (serverId : list Z) (a : nat)
    (w : World) (b : list Z) (fs : list Frame) :
  buffer_at w a = Some b → waiting b fs → Forall frame_ok fs →
  process_messages JSON_parse fuel serverId a w = Normal tt w.
Proof.
  intros (sd & Ha & <-)%buffer_at_Some Hw Hfs.
  rewrite process_messages_unfold.
  rewrite (bind_Normal _ _ _ _ _ (run_deref _ _ _ Ha)).
  destruct fs as [|f fs]; cbn [waiting] in Hw.
  - by rewrite Hw.
  - destruct Hw as (z & Hz & Hne). inversion_clear Hfs as [|? ? Hf _].
    destruct (partial_frame_step f _ z Hf Hz Hne) as [->|[-> Hlen]];
      [done|].
    cbn zeta. by rewrite Hlen.
Qed.

Lemma frame_text_nonempty (f : Frame) : (0 < length (frame_text f))%nat.
Proof.
  unfold frame_text, header_text. rewrite !length_app.
  change (length CL) with 16%nat. lia.
Qed.

(** An empty buffer waits for whatever comes. *)
Lemma waiting_nil (fs : list Frame) : waiting [] fs.
Proof.
  destruct fs as [|f fs]; [done|]. exists (frame_text f).
  split; [done|]. intros H. pose proof (frame_text_nonempty f) as Hlen.
  rewrite H in Hlen. simpl in Hlen. lia.
Qed.

(** The loop takes the whole frames at the head of the buffer, in
    order, and stops at the first that is not whole. *)
Lemma process_messages_frames (fs1 : list Frame) :
  ∀ (fuel : nat) (serverId : list Z) (a : nat) (w : World)
    (results : list (option Json)) (b : list Z) (fs2 : list Frame),
  registry_ok w →
  buffer_at w a = Some (stream_text fs1 ++ b) →
  Forall frame_ok fs1 →
  Forall2 (fun f r => JSON_parse (payload f) = r) fs1 results →
  waiting b fs2 → Forall frame_ok fs2 →
  (length fs1 ≤ fuel)%nat →
  ∃ w', process_messages JSON_parse fuel serverId a w = Normal tt w' ∧
        registry_ok w' ∧ lspServers w' = lspServers w ∧
        buffer_at w' a = Some b ∧
        handled w' = handled w ++ parsed serverId results ∧
        console w' = console w
                     ++ logged (registered w serverId) results.
Proof.
  induction fs1 as [|f fs1 IH];
    intros fuel sid a w results b fs2 Hok Hbuf Hfs1 Hres Hw Hfs2 Hfuel.
  - apply Forall2_nil_inv_l in Hres as ->. exists w.
    rewrite (process_messages_waiting fuel sid a w b fs2) by done.
    unfold parsed, logged. cbn. by rewrite !app_nil_r.
  - apply Forall2_cons_inv_l in Hres as (r & results' & Hr & Hres & ->).
    inversion_clear Hfs1 as [|? ? Hf Hfs1'].
    apply buffer_at_Some in Hbuf as (sd & Ha & Hb).
    unfold stream_text in Hb. cbn [map concat] in Hb.
    rewrite <- app_assoc in Hb.
    destruct (frame_step f (stream_text fs1 ++ b) Hf)
      as (Hm & Hlen & Hsub & Hfrom).
    cbn zeta in Hlen, Hsub, Hfrom. unfold stream_text in *.
    rewrite <- Hb in Hm, Hlen, Hsub, Hfrom.
    rewrite (process_messages_turn fuel sid a w sd _ Ha Hm Hlen).
    rewrite Hsub, Hfrom.
    set (w1 := with_heap _ w).
    assert (registry_ok w1) as Hok1 by by apply registry_ok_with_heap.
    destruct (parse_and_handle_effect sid (payload f) w1 Hok1)
      as (w2 & Hrun & Hframe & Hh & Hc).
    rewrite (bind_Normal _ _ _ _ _ Hrun).
    destruct fuel as [|fuel]; [simpl in Hfuel; lia|].
    destruct (IH fuel sid a w2 results' b fs2)
      as (w' & Hrun' & ? & Hs' & ? & Hh' & Hc'); try done.
    + by eapply handler_frame_registry_ok.
    + rewrite (handler_frame_buffer _ _ a Hframe). subst w1.
      by rewrite (buffer_at_with_heap _ _ sd).
    + simpl in Hfuel. lia.
    + exists w'. split_and!; [done| done | | done | |].
      * rewrite Hs'. by destruct Hframe as (-> & _).
      * rewrite Hh', Hh. subst w1 r. cbn [handled with_heap].
        unfold parsed. rewrite <- app_assoc. f_equal.
        by destruct (JSON_parse (payload f)).
      * rewrite Hc', Hc, (handler_frame_registered _ _ sid Hframe).
        subst w1 r. cbn [console with_heap]. unfold logged.
        cbn [map concat]. by rewrite <- app_assoc.
Qed.

(** A beginning of the text of frames is made of whole frames and of
    a part of the next one. *)
Lemma split_stream (fs : list Frame) :
  ∀ s t : list Z,
    s ++ t = stream_text fs →
    ∃ fs1 fs2 b,
      fs = fs1 ++ fs2 ∧ s = stream_text fs1 ++ b ∧
      waiting b fs2 ∧ b ++ t = stream_text fs2.
Proof.
  induction fs as [|f fs IH]; intros s t Heq.
  - apply app_eq_nil in Heq as [-> ->]. by exists [], [], [].
  - unfold stream_text in Heq. cbn [map concat] in Heq.
    destruct (decide (length s < length (frame_text f))%nat) as [Hlt|Hge].
    + exists [], (f :: fs), s. split_and!; [done..| |done].
      exists (drop (length s) (frame_text f)). split.
      * rewrite <- (take_drop (length s) (frame_text f)) at 2. f_equal.
        apply (f_equal (take (length s))) in Heq.
        rewrite take_app_length in Heq.
        by rewrite take_app_le in Heq by lia.
      * intros Hnil. apply (f_equal length) in Hnil.
        rewrite length_drop in Hnil. simpl in Hnil. lia.
    + assert (s = frame_text f ++ drop (length (frame_text f)) s) as Hs.
      { rewrite <- (take_drop (length (frame_text f)) s) at 1. f_equal.
        apply (f_equal (take (length (frame_text f)))) in Heq.
        rewrite take_app_length in Heq.
        by rewrite take_app_le in Heq by lia. }
      set (s' := drop (length (frame_text f)) s) in *.
      rewrite Hs in Heq. rewrite <- app_assoc in Heq.
      apply app_inv_head in Heq.
      destruct (IH s' t Heq) as (fs1 & fs2 & b & -> & Hs' & Hw & Hb).
      exists (f :: fs1), fs2, b. split_and!; [done| |done..].
      rewrite Hs, Hs'. unfold stream_text. cbn [map concat].
      by rewrite <- app_assoc.
Qed.

Lemma stream_text_length (fs : list Frame) :
  (length fs ≤ length (stream_text fs))%nat.
Proof.
  induction fs as [|f fs IH]; [done|].
  unfold stream_text in *. cbn [map concat]. rewrite length_app.
  pose proof (frame_text_nonempty f). simpl. lia.
Qed.

Lemma stream_text_app (fs1 fs2 : list Frame) :
  stream_text (fs1 ++ fs2) = stream_text fs1 ++ stream_text fs2.
Proof. unfold stream_text. by rewrite map_app, concat_app. Qed.

Lemma stream_text_ascii (fs : list Frame) :
  Forall frame_ok fs → ascii (stream_text fs).
Proof.
  intros Hfs. unfold stream_text. apply ascii_concat.
  apply Forall_map. eapply Forall_impl; [exact Hfs|].
  by intros f (_ & _ & _ & _ & ?).
Qed.

Lemma on_stdout_data_unfold (serverId : list Z) (a : nat) (data : list Z)
    (w : World) (sd : ServerData) :
  heap w !! a = Some sd →
  let buf := messageBuffer sd ++ Utf8.toString data in
  on_stdout_data JSON_parse serverId a data w
  = process_messages JSON_parse (length buf) serverId a
      (with_heap (fun h => <[a := with_messageBuffer buf sd]> h) w).
Proof.
  intros Ha buf. unfold on_stdout_data.
  rewrite (bind_Normal _ _ _ _ _ (run_update _ _ _ _ Ha)).
  set (w1 := with_heap _ w).
  assert (heap w1 !! a = Some (with_messageBuffer buf sd)) as Ha1.
  { subst w1. cbn [heap with_heap].
    by rewrite list_lookup_insert_eq by (by eapply lookup_lt_Some). }
  by rewrite (bind_Normal _ _ _ _ _ (run_deref _ _ _ Ha1)).
Qed.

(** One chunk: the whole frames the buffer now holds are taken. *)
Lemma on_stdout_data_frames (serverId : list Z) (a : nat) (w : World)
    (data b b' : list Z) (fs1 fs2 : list Frame)
    (results : list (option Json)) :
  registry_ok w → buffer_at w a = Some b → ascii data →
  b ++ data = stream_text fs1 ++ b' →
  Forall frame_ok fs1 →
  Forall2 (fun f r => JSON_parse (payload f) = r) fs1 results →
  waiting b' fs2 → Forall frame_ok fs2 →
  ∃ w', on_stdout_data JSON_parse serverId a data w = Normal tt w' ∧
        registry_ok w' ∧ lspServers w' = lspServers w ∧
        buffer_at w' a = Some b' ∧
        handled w' = handled w ++ parsed serverId results ∧
        console w' = console w
                     ++ logged (registered w serverId) results.
Proof.
  intros Hok (sd & Ha & Hb)%buffer_at_Some Hdata Heq Hfs1 Hres Hw Hfs2.
  rewrite (on_stdout_data_unfold serverId a data w sd Ha). cbn zeta.
  rewrite toString_ascii, Hb, Heq by done.
  set (w1 := with_heap _ w).
  destruct (process_messages_frames fs1
              (length (stream_text fs1 ++ b')) serverId a w1 results b' fs2)
    as (w2 & Hrun & Hok2 & Hs2 & Hbuf2 & Hh2 & Hc2); try done.
  - by apply registry_ok_with_heap.
  - subst w1. by rewrite (buffer_at_with_heap _ _ sd).
  - rewrite length_app. pose proof (stream_text_length fs1). lia.
  - by exists w2.
Qed.

(** Feeding the text of frames in chunks hands every payload that
    parses to [handleLSPMessage], in the order of the frames, logs
    every payload that does not, and leaves the buffer empty. *)
Lemma feed_chunks_frames (chunks : list (list Z)) :
  ∀ (serverId : list Z) (a : nat) (w : World) (fs : list Frame)
    (results : list (option Json)) (b : list Z),
  registry_ok w → buffer_at w a = Some b →
  waiting b fs → Forall frame_ok fs →
  Forall2 (fun f r => JSON_parse (payload f) = r) fs results →
  b ++ concat chunks = stream_text fs →
  ∃ w', feed_chunks JSON_parse serverId a chunks w = Normal tt w' ∧
        registry_ok w' ∧ lspServers w' = lspServers w ∧
        buffer_at w' a = Some [] ∧
        handled w' = handled w ++ parsed serverId results ∧
        console w' = console w
                     ++ logged (registered w serverId) results.
Proof.
  induction chunks as [|data chunks IH];
    intros sid a w fs results b Hok Hbuf Hw Hfs Hres Heq.
  - cbn [concat] in Heq. rewrite app_nil_r in Heq.
    cbn [feed_chunks]. exists w.
    destruct fs as [|f fs]; cbn [waiting] in Hw.
    + apply Forall2_nil_inv_l in Hres as ->. subst b.
      unfold parsed, logged. cbn. by rewrite !app_nil_r.
    + destruct Hw as (z & Hz & Hne). exfalso.
      unfold stream_text in Heq. cbn [map concat] in Heq.
      apply (f_equal length) in Hz, Heq. rewrite !length_app in Hz, Heq.
      destruct z; [done|]. simpl in Hz. lia.
  - cbn [concat] in Heq. rewrite app_assoc in Heq.
    assert (ascii data) as Hdata.
    { pose proof (stream_text_ascii fs Hfs) as Ha.
      rewrite <- Heq in Ha. by apply ascii_app in Ha as [[_ ?]%ascii_app _]. }
    destruct (split_stream fs (b ++ data) (concat chunks) Heq)
      as (fs1 & fs2 & b' & -> & Hsplit & Hw' & Hrest).
    apply Forall_app in Hfs as [Hfs1 Hfs2].
    apply Forall2_app_inv_l in Hres
      as (results1 & results2 & Hres1 & Hres2 & ->).
    destruct (on_stdout_data_frames sid a w data b b' fs1 fs2 results1)
      as (w2 & Hrun & Hok2 & Hs2 & Hbuf2 & Hh2 & Hc2); try done.
    cbn [feed_chunks]. rewrite (bind_Normal _ _ _ _ _ Hrun).
    destruct (IH sid a w2 fs2 results2 b')
      as (w' & Hrun' & ? & Hs' & ? & Hh' & Hc'); try done.
    exists w'. split_and!; [done | done | congruence | done | |].
    + rewrite Hh', Hh2. unfold parsed.
      by rewrite omap_app, map_app, app_assoc.
    + rewrite Hc', Hc2. unfold registered, logged. rewrite Hs2.
      by rewrite map_app, concat_app, app_assoc.
Qed.

(** The loop ends normally on every buffer, and it keeps every property
    of the state that cutting the buffer and handling a payload keep. *)
Lemma process_messages_invariant (I : World → Prop) (serverId : list Z) :
  (∀ w a sd b,
     I w → heap w !! a = Some sd →
     I (with_heap (fun h => <[a := with_messageBuffer b sd]> h) w)) →
  (∀ w content w',
     I w → registry_ok w →
     parse_and_handle JSON_parse serverId content w = Normal tt w' → I w') →
  ∀ (fuel : nat) (a : nat) (w : World) (b : list Z),
    registry_ok w → I w → buffer_at w a = Some b → (length b ≤ fuel)%nat →
    ∃ w', process_messages JSON_parse fuel serverId a w = Normal tt w' ∧ I w'.
Proof.
  intros Hcut Hhandle fuel.
  induction (lt_wf fuel) as [fuel _ IH].
  intros a w b Hok HI (sd & Ha & <-)%buffer_at_Some Hfuel.
  destruct (String_match (messageBuffer sd)) as [ds|] eqn:Hm.
  2: { rewrite process_messages_unfold.
       rewrite (bind_Normal _ _ _ _ _ (run_deref _ _ _ Ha)), Hm. eauto. }
  set (ms := indexOf (messageBuffer sd) CRLFCRLF + 4).
  destruct (jslength (messageBuffer sd) >=? ms + parseInt ds) eqn:Hlen.
  2: { rewrite process_messages_unfold.
       rewrite (bind_Normal _ _ _ _ _ (run_deref _ _ _ Ha)), Hm.
       cbn zeta. fold ms. rewrite Hlen. eauto. }
  rewrite (process_messages_turn fuel serverId a w sd ds Ha Hm Hlen).
  fold ms. set (w1 := with_heap _ w).
  assert (registry_ok w1) as Hok1 by by apply registry_ok_with_heap.
  assert (I w1) as HI1 by by apply Hcut.
  destruct (parse_and_handle_effect serverId
              (substring (messageBuffer sd) ms (ms + parseInt ds)) w1 Hok1)
    as (w2 & Hrun & Hframe & _ & _).
  rewrite (bind_Normal _ _ _ _ _ Hrun).
  assert (0 < ms + parseInt ds) as Hpos.
  { pose proof (parseInt_nonneg ds (String_match_Some_digits _ _ Hm)).
    pose proof (indexOf_bounds (messageBuffer sd) CRLFCRLF). lia. }
  apply Z.geb_le in Hlen. unfold jslength in Hlen.
  assert (length (substring_from (messageBuffer sd) (ms + parseInt ds))
          < length (messageBuffer sd))%nat as Hshort.
  { unfold substring_from, clamp, jslength. rewrite length_drop. lia. }
  destruct fuel as [|fuel]; [lia|].
  eapply (IH fuel); [lia | | | | ].
  - by eapply handler_frame_registry_ok.
  - by eapply Hhandle.
  - rewrite (handler_frame_buffer _ _ a Hframe). subst w1.
    by rewrite (buffer_at_with_heap _ _ sd).
  - cbn [messageBuffer with_messageBuffer]. lia.
Qed.

(** The loop ends normally on every buffer. *)
Lemma process_messages_total (fuel : nat) :
  ∀ (serverId : list Z) (a : nat) (w : World) (b : list Z),
    registry_ok w → buffer_at w a = Some b → (length b ≤ fuel)%nat →
    ∃ w', process_messages JSON_parse fuel serverId a w = Normal tt w'.
Proof.
  intros sid a w b Hok Hb Hfuel.
  destruct (process_messages_invariant (fun _ => True) sid) with
    (fuel := fuel) (a := a) (w := w) (b := b)
    as (w' & H & _); by eauto.
Qed.

(** The stdout handler ends normally on every chunk of data, and keeps
    what the loop keeps. *)
Lemma on_stdout_data_invariant (I : World → Prop) (serverId : list Z)
    (a : nat) (data : list Z) (w : World) :
  (∀ w a sd b,
     I w → heap w !! a = Some sd →
     I (with_heap (fun h => <[a := with_messageBuffer b sd]> h) w)) →
  (∀ w content w',
     I w → registry_ok w →
     parse_and_handle JSON_parse serverId content w = Normal tt w' → I w') →
  registry_ok w → I w → is_Some (heap w !! a) →
  ∃ w', on_stdout_data JSON_parse serverId a data w = Normal tt w' ∧ I w'.
Proof.
  intros Hcut Hhandle Hok HI [sd Ha].
  rewrite (on_stdout_data_unfold serverId a data w sd Ha). cbn zeta.
  eapply process_messages_invariant; [done | done | | | | done].
  - by apply registry_ok_with_heap.
  - by apply Hcut.
  - by rewrite (buffer_at_with_heap _ _ sd).
Qed.

(** The stdout handler ends normally on every chunk of data. *)
Lemma on_stdout_data_total (serverId : list Z) (a : nat)
    (data : list Z) (w : World) :
  registry_ok w → is_Some (heap w !! a) →
  ∃ w', on_stdout_data JSON_parse serverId a data w = Normal tt w'.
Proof.
  intros Hok Ha.
  destruct (on_stdout_data_invariant (fun _ => True) serverId a data w)
    as (w' & H & _); by eauto.
Qed.

End Loop.
End DecodeFacts.

(** ** The invariant of the main process *)

Module InvariantFacts.
Import JSON Main Invariants Events RunFacts DecodeFacts.

Lemma entry_insert (w : World) (a a' : nat) (sd sd' : ServerData)
    (requestId : Z) (p : nat) :
  heap w !! a = Some sd →
  entry (with_heap (fun h => <[a := sd']> h) w) a' requestId p ↔
  (a' = a ∧ pendingRequests sd' !! requestId = Some p) ∨
  (a' ≠ a ∧ entry w a' requestId p).
Proof.
  intros Ha. unfold entry. cbn [heap with_heap].
  pose proof (lookup_lt_Some _ _ _ Ha) as Hlt.
  destruct (decide (a' = a)) as [->|Hne].
  - rewrite list_lookup_insert_eq by done. split.
    + intros (? & [= <-] & ?). by left.
    + intros [[_ ?]|[? _]]; [eauto | done].
  - rewrite list_lookup_insert_ne by done. split.
    + intros ?. by right.
    + by intros [[? _]|[_ ?]].
Qed.

Lemma given_out_insert (w : World) (a a' : nat) (sd sd' : ServerData)
    (requestId : Z) :
  heap w !! a = Some sd → requestIdCounter sd <= requestIdCounter sd' →
  given_out w a' requestId →
  given_out (with_heap (fun h => <[a := sd']> h) w) a' requestId.
Proof.
  intros Ha Hle (sd1 & Ha1 & Hid). unfold given_out. cbn [heap with_heap].
  pose proof (lookup_lt_Some _ _ _ Ha) as Hlt.
  destruct (decide (a' = a)) as [->|Hne].
  - rewrite list_lookup_insert_eq by done. exists sd'.
    split; [done|]. rewrite Ha in Ha1. injection Ha1 as <-. lia.
  - rewrite list_lookup_insert_ne by done. eauto.
Qed.

Lemma entry_heap (w w' : World) (a : nat) (requestId : Z) (p : nat) :
  heap w' = heap w → entry w' a requestId p ↔ entry w a requestId p.
Proof. unfold entry. by intros ->. Qed.

Lemma given_out_heap (w w' : World) (a : nat) (requestId : Z) :
  heap w' = heap w → given_out w' a requestId ↔ given_out w a requestId.
Proof. unfold given_out. by intros ->. Qed.

Lemma settle_world_length (p : nat) (s : PromiseState) (w : World) :
  length (promises (settle_world p s w)) = length (promises w).
Proof.
  unfold settle_world. cbn [promises with_promises with_settled].
  destruct (promises w !! p) as [[]|]; try done. apply length_insert.
Qed.

(** A step that adds neither a request nor a closure, and settles no
    promise of a request that remains, keeps the invariant. *)
Lemma well_formed_shrink (w w' : World) :
  well_formed w → registry_ok w' →
  callbacks w' = callbacks w →
  length (promises w') = length (promises w) →
  (∀ a requestId, given_out w a requestId → given_out w' a requestId) →
  (∀ a requestId p,
     entry w' a requestId p →
     entry w a requestId p ∧ promises w' !! p = promises w !! p) →
  well_formed w'.
Proof.
  intros (_ & Hp & Hc) Hreg Hcb Hlen Hout Hentry. split_and!; [done| |].
  - intros a rid p [He Hprom]%Hentry.
    destruct (Hp a rid p He) as (H1 & H2 & H3).
    rewrite Hprom, Hcb. eauto.
  - intros cb a rid p Hin Hcap. rewrite Hcb in Hin.
    destruct (Hc cb a rid p Hin Hcap) as (H1 & H2 & H3).
    rewrite Hlen. split_and!; [done | eauto |].
    intros a' rid' [He _]%Hentry. eauto.
Qed.

(** Changing what the invariant does not read of a server object. *)
Lemma well_formed_update (w : World) (a : nat) (sd sd' : ServerData) :
  well_formed w → heap w !! a = Some sd →
  pendingRequests sd' = pendingRequests sd →
  requestIdCounter sd' = requestIdCounter sd →
  well_formed (with_heap (fun h => <[a := sd']> h) w).
Proof.
  intros Hwf Ha Hpend Hcount.
  apply (well_formed_shrink w); [done | | done | done | |].
  - apply registry_ok_with_heap. by destruct Hwf.
  - intros a' rid. apply (given_out_insert _ _ _ sd); [done | lia].
  - intros a' rid p [[-> He]|[_ He]]%(entry_insert _ _ _ sd); [|done..].
    split; [|done]. exists sd. by rewrite <- Hpend.
Qed.

(** Deleting a request and settling a promise that no other request
    holds. *)
Lemma well_formed_delete_settle (w : World) (a : nat) (sd : ServerData)
    (requestId : Z) (p : nat) (s : PromiseState) :
  well_formed w → heap w !! a = Some sd →
  (∀ a' requestId',
     entry w a' requestId' p → a' = a ∧ requestId' = requestId) →
  well_formed
    (settle_world p s
       (with_heap
          (fun h => <[a := with_pendingRequests
                             (delete requestId (pendingRequests sd)) sd]> h)
          w)).
Proof.
  intros Hwf Ha Hown. set (w1 := with_heap _ w).
  apply (well_formed_shrink w); [done | | done | | |].
  - apply (registry_ok_with_heap w). by destruct Hwf.
  - by rewrite settle_world_length.
  - intros a' rid Hout. apply (given_out_heap w1); [done|].
    apply (given_out_insert w a a' sd); [done | cbn; lia | done].
  - intros a' rid q He. apply (entry_heap w1) in He; [|done].
    assert (entry w a' rid q ∧ (a', rid) ≠ (a, requestId)) as [He' Hne].
    { apply (entry_insert w a a' sd _ rid q Ha) in He
        as [[-> He]|[Hne He]].
      - cbn [pendingRequests with_pendingRequests] in He.
        apply lookup_delete_Some in He as [Hrid He].
        split; [by exists sd | congruence].
      - split; [done | congruence]. }
    split; [done|]. rewrite settle_world_other; [done|].
    intros ->. destruct (Hown a' rid He'). congruence.
Qed.

(** The promise of a pending request is held by no other request. *)
Lemma entry_owner (w : World) (a a' : nat) (requestId requestId' : Z)
    (p : nat) :
  well_formed w → entry w a requestId p → entry w a' requestId' p →
  a' = a ∧ requestId' = requestId.
Proof.
  intros (_ & Hp & Hc) He He'.
  destruct (Hp a requestId p He) as (_ & _ & Hin).
  by destruct (Hc _ a requestId p Hin eq_refl) as (_ & _ & H); apply H.
Qed.

Section Send.
Variable JSON_stringify : Json → list Z.

(** A request that has been sent is pending, under a new id and with a
    new promise, and has its two closures. *)
Lemma well_formed_sent (w : World) (a : nat) (sd : ServerData)
    (msg : list Z) :
  well_formed w → heap w !! a = Some sd →
  well_formed (sent_world a sd (requestIdCounter sd + 1) msg w).
Proof.
  intros (Hreg & Hp & Hc) Ha. unfold sent_world.
  set (rid := requestIdCounter sd + 1).
  set (p := length (promises w)).
  set (w1 := with_promises _ w).
  assert (heap w1 !! a = Some sd) as Ha1 by done.
  assert (∀ a' rid' q, entry w a' rid' q → (q < p)%nat) as Hold.
  { intros a' rid' q (_ & Hq & _)%Hp. by eapply lookup_lt_Some. }
  assert (∀ a' rid',
            given_out w a' rid' →
            given_out
              (with_callbacks
                 (fun l => l ++ [WriteCallback a rid p;
                                 TimeoutCallback a rid p 30000])
                 (with_heap (fun h => <[a := sent_data sd rid p msg]> h) w1))
              a' rid') as Hout.
  { intros a' rid' Hg.
    apply (given_out_insert w1 a a' sd (sent_data sd rid p msg) rid' Ha1);
      [cbn; lia | done]. }
  assert (∀ a' rid' q,
            entry
              (with_callbacks
                 (fun l => l ++ [WriteCallback a rid p;
                                 TimeoutCallback a rid p 30000])
                 (with_heap (fun h => <[a := sent_data sd rid p msg]> h) w1))
              a' rid' q →
            (a' = a ∧ rid' = rid ∧ q = p) ∨ entry w a' rid' q) as Hentry.
  { intros a' rid' q He.
    apply (entry_insert w1 a a' sd _ rid' q Ha1) in He as [[-> He]|[_ He]];
      [|by right].
    cbn [pendingRequests sent_data] in He.
    apply lookup_insert_Some in He as [[<- <-]|[_ He]]; [by left|].
    right. by exists sd. }
  split_and!.
  - intros sid a' Hs. cbn [heap with_heap with_callbacks with_promises w1].
    rewrite length_insert. by eapply Hreg.
  - intros a' rid' q [(-> & -> & ->)|He]%Hentry.
    + split_and!.
      * exists (sent_data sd rid p msg). split; [|cbn; lia].
        cbn [heap with_heap with_callbacks with_promises w1].
        apply list_lookup_insert_eq. by eapply lookup_lt_Some.
      * cbn [promises with_heap with_callbacks with_promises w1].
        subst p. by rewrite lookup_app_r, Nat.sub_diag by lia.
      * cbn [callbacks with_callbacks]. apply elem_of_app. right.
        apply elem_of_cons. right. by apply list_elem_of_singleton.
    + destruct (Hp a' rid' q He) as (H1 & H2 & H3). split_and!.
      * by apply Hout.
      * cbn [promises with_heap with_callbacks with_promises w1].
        rewrite lookup_app_l; [done | by eapply lookup_lt_Some].
      * cbn [callbacks with_callbacks]. apply elem_of_app. by left.
  - intros cb a' rid' q Hin Hcap.
    cbn [callbacks with_callbacks with_heap with_promises w1] in Hin.
    cbn [promises with_heap with_callbacks with_promises w1].
    rewrite length_app. cbn [length].
    apply elem_of_app in Hin as [Hin|Hin].
    + destruct (Hc cb a' rid' q Hin Hcap) as (H1 & H2 & H3).
      split_and!; [lia | by apply Hout |].
      intros a2 rid2 [(-> & -> & ->)|He]%Hentry; [subst p; lia | eauto].
    + assert ((a', rid', q) = (a, rid, p)) as [= -> -> ->].
      { apply elem_of_cons in Hin as [->|Hin]; [done|].
        apply list_elem_of_singleton in Hin as ->. done. }
      split_and!; [subst p; lia | |].
      * exists (sent_data sd rid p msg). split; [|cbn; lia].
        cbn [heap with_heap with_callbacks with_promises w1].
        apply list_lookup_insert_eq. by eapply lookup_lt_Some.
      * intros a2 rid2 [(-> & -> & _)|He]%Hentry; [done|].
        apply Hold in He. lia.
Qed.

End Send.

Lemma well_formed_initial : well_formed initial_world.
Proof.
  split_and!.
  - apply map_Forall_empty.
  - by intros a rid p (sd & Ha & _).
  - intros cb a rid p Hin. by apply elem_of_nil in Hin.
Qed.

Lemma well_formed_unregister (w : World) (serverId : list Z) :
  well_formed w → well_formed (with_lspServers (delete serverId) w).
Proof.
  intros (Hreg & Hp & Hc). split_and!; [|exact Hp | exact Hc].
  by apply map_Forall_delete.
Qed.

(** A new server object has no pending request. *)
Lemma well_formed_register (w : World) (serverId : list Z)
    (sd : ServerData) :
  well_formed w → pendingRequests sd = ∅ →
  well_formed
    (with_lspServers (<[serverId := length (heap w)]>)
       (with_heap (fun h => h ++ [sd]) w)).
Proof.
  intros Hwf Hempty.
  apply (well_formed_shrink w); [done | | done | done | |].
  - destruct Hwf as (Hreg & _). apply map_Forall_insert_2.
    + cbn [heap with_heap with_lspServers]. rewrite length_app. simpl. lia.
    + intros sid a Hs. cbn [heap with_heap with_lspServers].
      rewrite length_app. specialize (Hreg sid a Hs). simpl in Hreg. lia.
  - intros a rid (sd' & Ha & Hid). exists sd'. split; [|done].
    cbn [heap with_heap with_lspServers].
    rewrite lookup_app_l; [done | by eapply lookup_lt_Some].
  - intros a rid p (sd' & Ha & Hid).
    cbn [heap with_heap with_lspServers] in Ha.
    apply lookup_app_Some in Ha as [Ha|[_ Ha]].
    + split; [by exists sd' | done].
    + apply list_lookup_singleton_Some in Ha as [_ <-].
      by rewrite Hempty in Hid.
Qed.

Lemma Map_get_Some (m : gmap Z nat) (id : option Json) (p : nat) :
  Map_get m id = Some p →
  ∃ k, integer_key id = Some k ∧ m !! k = Some p ∧
       Map_delete m id = delete k m.
Proof.
  unfold Map_get, Map_delete. destruct (integer_key id); [eauto | done].
Qed.

(** *** The handlers keep the invariant *)

Lemma handle_response_well_formed (a : nat) (m : Json) (w : World) :
  m ≠ JNull → is_Some (heap w !! a) → well_formed w →
  ∃ w', handle_response a m w = Normal tt w' ∧ well_formed w'.
Proof.
  intros Hm [sd Ha] Hwf.
  destruct (get_property_defined m (js "id") Hm) as [id Hid].
  destruct (Map_get (pendingRequests sd) id) as [p|] eqn:Hget.
  - destruct (handle_response_pending a m w sd id p Ha Hid Hget)
      as (error & result & _ & _ & ->).
    eexists. split; [reflexivity|].
    destruct (Map_get_Some _ _ _ Hget) as (k & _ & Hk & ->).
    apply well_formed_delete_settle; [done..|].
    intros a' rid'. apply entry_owner; [done|]. by exists sd.
  - rewrite (handle_response_unknown a m w sd id Ha Hid Hget). eauto.
Qed.

Lemma handleLSPMessage_well_formed (serverId : list Z) (m : Json)
    (w : World) :
  well_formed w →
  ∃ w', (handleLSPMessage serverId m w = Normal tt w' ∨
         handleLSPMessage serverId m w = Throw TypeError w') ∧
        well_formed w'.
Proof.
  intros Hwf.
  destruct (lspServers w !! serverId) as [a|] eqn:Hs.
  - destruct (null_or_not m) as [->|Hm].
    + rewrite (handleLSPMessage_null _ _ _ Hs). eexists.
      split; [by right|]. exact Hwf.
    + unfold handleLSPMessage, bind at 1, modify, bind at 1, gets.
      cbn [lspServers with_handled]. rewrite Hs.
      set (w0 := with_handled _ w).
      destruct (handle_response_well_formed a m w0 Hm) as (w1 & Hr & Hwf1).
      { apply lookup_lt_is_Some_2. destruct Hwf as (Hreg & _).
        by eapply Hreg. }
      { exact Hwf. }
      rewrite (bind_Normal _ _ _ _ _ Hr).
      destruct (handle_notification_effect serverId m w1 Hm) as (w2 & Hn & Hi).
      exists w2. split; [by left|]. rewrite Hi. exact Hwf1.
  - rewrite (handleLSPMessage_unregistered _ _ _ Hs). eexists.
    split; [by left|]. exact Hwf.
Qed.

Section Handlers.
Variable JSON_parse : list Z → option Json.
Variable JSON_stringify : Json → list Z.

Lemma parse_and_handle_well_formed (serverId content : list Z)
    (w w' : World) :
  well_formed w →
  parse_and_handle JSON_parse serverId content w = Normal tt w' →
  well_formed w'.
Proof.
  intros Hwf. unfold parse_and_handle, try_catch.
  destruct (JSON_parse content) as [m|].
  - destruct (handleLSPMessage_well_formed serverId m w Hwf)
      as (w1 & [->| ->] & Hwf1); intros [= <-]; exact Hwf1.
  - intros [= <-]. exact Hwf.
Qed.

Lemma on_stdout_data_well_formed (serverId : list Z) (a : nat)
    (data : list Z) (w : World) :
  well_formed w → (a < length (heap w))%nat →
  ∃ w', on_stdout_data JSON_parse serverId a data w = Normal tt w' ∧
        well_formed w'.
Proof.
  intros Hwf Ha.
  apply on_stdout_data_invariant; [| |by destruct Hwf | done |].
  - intros w0 a0 sd b Hwf0 Ha0. by apply (well_formed_update w0 a0 sd).
  - intros w0 content w' Hwf0 _. by apply parse_and_handle_well_formed.
  - by apply lookup_lt_is_Some_2.
Qed.

Lemma start_lsp_server_well_formed (language : list Z)
    (spawned : SpawnResult) (w : World) :
  well_formed w →
  ∃ r w', start_lsp_server language spawned w = Normal r w' ∧
          well_formed w'.
Proof.
  intros Hwf.
  destruct spawned; unfold start_lsp_server, bind, gets, modify, ret;
    cbv beta iota zeta.
  - eexists _, _. split; [reflexivity|].
    by apply (well_formed_register (with_lspServerIdCounter _ w)).
  - eexists _, _. split; [reflexivity|]. exact Hwf.
  - eexists _, _. split; [reflexivity|]. exact Hwf.
Qed.

Lemma send_lsp_request_well_formed (serverId method : list Z)
    (params : option Json) (w : World) :
  well_formed w →
  ∃ w', ((∃ p, send_lsp_request JSON_stringify serverId method params w
               = Normal p w') ∨
         send_lsp_request JSON_stringify serverId method params w
         = Throw (ServerNotFound serverId) w') ∧
        well_formed w'.
Proof.
  intros Hwf.
  destruct (lspServers w !! serverId) as [a|] eqn:Hs.
  - destruct (lookup_lt_is_Some_2 (heap w) a) as [sd Ha].
    { destruct Hwf as (Hreg & _). by eapply Hreg. }
    rewrite (send_lsp_request_effect JSON_stringify serverId method params
               w a sd Hs Ha).
    eexists. split; [left; eauto|]. by apply well_formed_sent.
  - exists w. split; [right|done].
    unfold send_lsp_request, bind, gets. by rewrite Hs.
Qed.

Lemma send_lsp_notification_well_formed (serverId method : list Z)
    (params : option Json) (w : World) :
  well_formed w →
  ∃ w', (send_lsp_notification JSON_stringify serverId method params w
         = Normal tt w' ∨
         send_lsp_notification JSON_stringify serverId method params w
         = Throw (ServerNotFound serverId) w') ∧
        well_formed w'.
Proof.
  intros Hwf. unfold send_lsp_notification, bind, gets.
  destruct (lspServers w !! serverId) as [a|] eqn:Hs.
  - destruct (lookup_lt_is_Some_2 (heap w) a) as [sd Ha].
    { destruct Hwf as (Hreg & _). by eapply Hreg. }
    unfold stdin_write. rewrite (run_update _ _ _ _ Ha).
    eexists. split; [by left|]. by apply (well_formed_update w a sd).
  - exists w. by split; [right|].
Qed.

Lemma stop_lsp_server_well_formed (serverId : list Z) (w : World) :
  well_formed w →
  ∃ w', stop_lsp_server serverId w = Normal tt w' ∧ well_formed w'.
Proof.
  intros Hwf. unfold stop_lsp_server, bind at 1, gets.
  destruct (lspServers w !! serverId) as [a|] eqn:Hs; [|by exists w].
  destruct (lookup_lt_is_Some_2 (heap w) a) as [sd Ha].
  { destruct Hwf as (Hreg & _). by eapply Hreg. }
  rewrite (bind_Normal _ _ _ _ _ (run_update _ _ _ _ Ha)).
  eexists. split; [reflexivity|].
  apply well_formed_unregister. by apply (well_formed_update w a sd).
Qed.

Lemma run_callback_well_formed (cb : Callback) (error : option Error)
    (w : World) :
  well_formed w → cb ∈ callbacks w →
  ∃ w', run_callback cb error w = Normal tt w' ∧ well_formed w'.
Proof.
  intros Hwf Hin.
  destruct (captured cb) as [[a rid] p] eqn:Hcap.
  destruct Hwf as (Hreg & Hp & Hc).
  destruct (Hc cb a rid p Hin Hcap) as (_ & (sd & Ha & _) & Hown).
  assert (well_formed w) as Hwf by done.
  destruct cb as [a0 rid0 p0|a0 rid0 p0 ms]; injection Hcap as -> -> ->;
    cbn [run_callback].
  - destruct error as [e|]; [|by exists w].
    rewrite (write_callback_error a rid p e w sd Ha).
    eexists. split; [reflexivity|]. by apply well_formed_delete_settle.
  - destruct (pendingRequests sd !! rid) as [q|] eqn:Hq.
    + rewrite (timeout_callback_pending a rid p q w sd Ha Hq).
      eexists. split; [reflexivity|]. by apply well_formed_delete_settle.
    + rewrite (timeout_callback_settled a rid p w sd Ha Hq). by exists w.
Qed.

(** Every event that can happen in a state of the invariant is handled
    to the end, and the state after it is in the invariant. *)
Lemma next_well_formed (ev : Event) (w : World) :
  well_formed w → enabled w ev →
  ∃ w', next JSON_parse JSON_stringify ev w = Some w' ∧ well_formed w'.
Proof.
  intros Hwf Hen. unfold next.
  destruct ev as [language spawned|sid method params|sid method params|sid|
                  sid a data|sid data|sid|cb error]; cbn [handle_event enabled] in *.
  - destruct (start_lsp_server_well_formed language spawned w Hwf)
      as (r & w' & H & Hwf').
    rewrite (bind_Normal _ _ _ _ _ H). by exists w'.
  - destruct (send_lsp_request_well_formed sid method params w Hwf)
      as (w' & [[p H]|H] & Hwf').
    + rewrite (bind_Normal _ _ _ _ _ H). by exists w'.
    + rewrite (bind_Throw _ _ _ _ _ H). by exists w'.
  - destruct (send_lsp_notification_well_formed sid method params w Hwf)
      as (w' & [->| ->] & Hwf'); by exists w'.
  - destruct (stop_lsp_server_well_formed sid w Hwf) as (w' & -> & Hwf').
    by exists w'.
  - destruct (on_stdout_data_well_formed sid a data w Hwf Hen)
      as (w' & -> & Hwf').
    by exists w'.
  - eexists. split; [reflexivity|]. exact Hwf.
  - eexists. split; [reflexivity|]. by apply well_formed_unregister.
  - destruct (run_callback_well_formed cb error w Hwf Hen)
      as (w' & -> & Hwf').
    by exists w'.
Qed.

(** The reachable states are in the invariant. *)
Lemma reachable_well_formed (w : World) :
  reachable JSON_parse JSON_stringify w → well_formed w.
Proof.
  induction 1 as [|w w' ev _ IH Hen Hnext]; [apply well_formed_initial|].
  destruct (next_well_formed ev w IH Hen) as (w'' & H & Hwf).
  rewrite H in Hnext. by injection Hnext as <-.
Qed.

(** No handler gets stuck in a reachable state. *)
Lemma reachable_next_total (ev : Event) (w : World) :
  reachable JSON_parse JSON_stringify w → enabled w ev →
  is_Some (next JSON_parse JSON_stringify ev w).
Proof.
  intros Hw%reachable_well_formed Hen.
  destruct (next_well_formed ev w Hw Hen) as (w' & -> & _). eauto.
Qed.

End Handlers.

(** The states of the examples are reachable: a server is started, and
    a request is sent to it. *)
Lemma started_reachable (JSON_parse : list Z → option Json)
    (JSON_stringify : Json → list Z) :
  reachable JSON_parse JSON_stringify Examples.started.
Proof.
  apply (reachable_next _ _ initial_world _ (StartServer (js "rust") Spawned));
    [apply reachable_initial | done | by vm_compute].
Qed.

Lemma requested_reachable (JSON_parse : list Z → option Json) :
  reachable JSON_parse JSON.stringify Examples.requested.
Proof.
  apply (reachable_next _ _ Examples.started _
           (SendRequest Examples.rust_server (js "textDocument/hover")
              (Some Examples.hover_params)));
    [apply started_reachable | done | by vm_compute].
Qed.

End InvariantFacts.

(** ** The round trip of the senders' framing *)

Module RoundTripFacts.
Import JSON Main Wire Invariants.
Import StringFacts FramerFacts RunFacts DecodeFacts.


Lemma digits_fuel_parse (fuel : nat) :
  ∀ (n : Z) (acc : list Z),
    0 <= n < 2 ^ Z.of_nat fuel →
    fold_left (fun acc c => 10 * acc + (c - 48)) (digits_fuel fuel n acc) 0
    = fold_left (fun acc c => 10 * acc + (c - 48)) acc n.
Proof.
  induction fuel as [|fuel IH]; intros n acc Hn.
  - cbn [digits_fuel]. replace n with 0 by (simpl in Hn; lia). done.
  - cbn [digits_fuel]. cbn zeta.
    rewrite Nat2Z.inj_succ, Z.pow_succ_r in Hn by lia.
    destruct (Z.ltb_spec n 10).
    + cbn [fold_left]. f_equal. rewrite Z.mod_small by lia. lia.
    + rewrite IH.
      * cbn [fold_left]. f_equal.
        pose proof (Z.div_mod n 10 ltac:(lia)). lia.
      * split; [apply Z.div_pos; lia|].
        apply Z.div_lt_upper_bound; lia.
Qed.

Lemma digits_fuel_digits (fuel : nat) :
  ∀ (n : Z) (acc : list Z),
    0 <= n → digits acc → digits (digits_fuel fuel n acc).
Proof.
  induction fuel as [|fuel IH]; intros n acc Hn Hacc; [done|].
  cbn [digits_fuel]. cbn zeta.
  assert (digits ((48 + n mod 10) :: acc)) as Hacc'.
  { constructor; [|done]. unfold is_digit.
    pose proof (Z.mod_pos_bound n 10 ltac:(lia)).
    apply andb_true_iff. split; apply Z.leb_le; lia. }
  destruct (n <? 10); [done|].
  apply IH; [apply Z.div_pos; lia | done].
Qed.

Lemma digits_fuel_length (fuel : nat) :
  ∀ (n : Z) (acc : list Z),
    (length acc ≤ length (digits_fuel fuel n acc))%nat.
Proof.
  induction fuel as [|fuel IH]; intros n acc; [done|].
  cbn [digits_fuel]. cbn zeta.
  destruct (n <? 10); [simpl; lia|].
  etrans; [|apply IH]. simpl. lia.
Qed.

Lemma decimal_spec (n : Z) :
  0 <= n →
  parseInt (decimal n) = n ∧ digits (decimal n) ∧ decimal n ≠ [].
Proof.
  intros Hn. unfold decimal, parseInt. split_and!.
  - rewrite digits_fuel_parse; [done|].
    rewrite Nat2Z.inj_succ, Z2Nat.id by apply Z.log2_nonneg.
    destruct (decide (n = 0)) as [->|]; [done|].
    pose proof (Z.log2_spec n ltac:(lia)). lia.
  - apply digits_fuel_digits; [done | constructor].
  - cbn [digits_fuel]. cbn zeta. intros Hnil.
    destruct (n <? 10); [done|].
    pose proof (digits_fuel_length (Z.to_nat (Z.log2 n)) (n / 10)
                  [48 + n mod 10]) as Hlen.
    rewrite Hnil in Hlen. simpl in Hlen. lia.
Qed.

Lemma digits_ascii (ds : list Z) : digits ds → ascii ds.
Proof.
  intros Hd. eapply Forall_impl; [exact Hd|].
  intros c Hc. unfold is_digit in Hc.
  apply andb_true_iff in Hc as [H1 H2].
  apply Z.leb_le in H1, H2. lia.
Qed.

(** What the senders write for an ASCII content is a frame. *)
Lemma frame_of_ascii (content : list Z) :
  ascii content →
  let f := {| headers := [];
              length_digits := decimal (jslength content);
              payload := content |} in
  frame content = frame_text f ∧ frame_ok f.
Proof.
  intros Hc. cbn zeta.
  assert (0 <= jslength content) as Hlen by (unfold jslength; lia).
  destruct (decimal_spec _ Hlen) as (Hparse & Hd & Hne).
  assert (Utf8.byteLength content = jslength content) as Hbytes.
  { unfold Utf8.byteLength. by rewrite encode_ascii. }
  assert (frame content
          = frame_text {| headers := [];
                          length_digits := decimal (jslength content);
                          payload := content |}) as Heq.
  { unfold frame, frame_text, header_text, Number_toString. cbn.
    rewrite Hbytes. destruct (Z.ltb_spec (jslength content) 0); [lia|].
    by rewrite <- !app_assoc. }
  split; [done|]. unfold frame_ok. cbn [headers length_digits payload].
  split_and!; [constructor | done..|].
  rewrite <- Heq. unfold frame.
  rewrite Hbytes. unfold Number_toString.
  destruct (Z.ltb_spec (jslength content) 0); [lia|].
  rewrite !ascii_app. split_and!; [|by apply digits_ascii| |done].
  - apply (bool_decide_unpack _). by vm_compute.
  - apply (bool_decide_unpack _). by vm_compute.
Qed.

(** For a message whose serialization is ASCII, framing it the way the
    senders do and feeding the bytes to the stdout handler gives the
    message back, once. *)
Lemma roundtrip_ascii (JSON_parse : list Z → option Json)
    (JSON_stringify : Json → list Z) (message : Json)
    (serverId : list Z) (a : nat) (w : World) :
  registry_ok w → buffer_at w a = Some [] →
  ascii (JSON_stringify message) →
  JSON_parse (JSON_stringify message) = Some message →
  ∃ w', on_stdout_data JSON_parse serverId a
          (Utf8.encode (frame (JSON_stringify message))) w = Normal tt w' ∧
        handled w' = handled w ++ [(serverId, message)] ∧
        buffer_at w' a = Some [].
Proof.
  intros Hok Hbuf Hascii Hparse.
  destruct (frame_of_ascii _ Hascii) as [Heq Hf]. cbn zeta in Heq, Hf.
  set (f := {| headers := [];
               length_digits := decimal (jslength (JSON_stringify message));
               payload := JSON_stringify message |}) in *.
  assert (ascii (frame (JSON_stringify message))) as Hframe.
  { rewrite Heq. by destruct Hf as (_ & _ & _ & _ & ?). }
  destruct (on_stdout_data_frames JSON_parse serverId a w
              (Utf8.encode (frame (JSON_stringify message))) [] []
              [f] [] [Some message])
    as (w' & Hrun & _ & _ & Hb & Hh & _); try done.
  - by rewrite encode_ascii.
  - rewrite encode_ascii by done. unfold stream_text. cbn [map concat app].
    by rewrite !app_nil_r.
  - by constructor.
  - by constructor.
  - by exists w'.
Qed.

End RoundTripFacts.

(** ** The Message Framer *)

Module FramerClaims.
Import JSON Main Wire Invariants Examples FramerExamples.
Import StringFacts FramerFacts RunFacts DecodeFacts RoundTripFacts.

(** C1, as stated, fails: a message whose header block has a line after
    the Content-Length line is a valid framed message, yet the decode
    loop emits nothing for it and keeps its text in the buffer; the
    pattern of the loop wants the empty line right after the digits. *)
Lemma header_after_content_length_not_decoded :
  parse response_1_text = Some response_1 ∧
  handled <$> after (on_stdout_data parse rust_server 0
                       (Utf8.encode typed_message)) started
  = Some [] ∧
  handled <$> after (on_stdout_data parse rust_server 0
                       (Utf8.encode typed_message)) started
  ≠ Some [(rust_server, response_1)] ∧
  (fun w => buffer_at w 0) <$> after (on_stdout_data parse rust_server 0
                                        (Utf8.encode typed_message)) started
  = Some (Some typed_message).
Proof. by vm_compute. Qed.

(** C1 (amended): for every sequence of chunks whose concatenation is
    the bytes of N framed messages in ASCII, each with its
    Content-Length line as the last line of its header block (other
    header lines may come before it and are ignored) and a payload
    that parses, the decode loop hands exactly the N decoded values to
    handleLSPMessage, in order, whatever the chunk boundaries, and
    leaves the buffer empty. *)
Theorem framer_emits_frames_in_order
    (JSON_parse : list Z → option Json) (serverId : list Z) (a : nat)
    (w : World) (frames : list Frame) (values : list Json)
    (chunks : list (list Z)) :
  registry_ok w → buffer_at w a = Some [] →
  Forall frame_ok frames →
  Forall2 (fun f v => JSON_parse (payload f) = Some v) frames values →
  concat chunks = Utf8.encode (stream_text frames) →
  ∃ w', feed_chunks JSON_parse serverId a chunks w = Normal tt w' ∧
        handled w' = handled w ++ map (fun v => (serverId, v)) values ∧
        buffer_at w' a = Some [].
Proof.
  intros Hok Hbuf Hfs Hvs Hchunks.
  rewrite (encode_ascii _ (stream_text_ascii frames Hfs)) in Hchunks.
  destruct (feed_chunks_frames JSON_parse chunks serverId a w frames
              (map Some values) [])
    as (w' & Hrun & _ & _ & Hb & Hh & _); try done.
  - apply waiting_nil.
  - clear -Hvs. induction Hvs; by constructor.
  - exists w'. split_and!; [done| |done].
    rewrite Hh. unfold parsed. f_equal. f_equal.
    clear. induction values as [|v vs IH]; [done|]. cbn. by rewrite IH.
Qed.

Lemma framer_emits_frames_in_order_witness :
  ∃ w', feed_chunks parse rust_server 0
          (byte_by_byte (stream_text [frame_1; frame_2])) requested
        = Normal tt w' ∧
        handled w' = handled requested
                     ++ map (fun v => (rust_server, v))
                          [response_1; diagnostics] ∧
        buffer_at w' 0 = Some [].
Proof.
  apply (framer_emits_frames_in_order parse rust_server 0 requested
           [frame_1; frame_2] [response_1; diagnostics]).
  - apply (bool_decide_unpack _). by vm_compute.
  - by vm_compute.
  - apply (bool_decide_unpack _). by vm_compute.
  - repeat constructor; by vm_compute.
  - by vm_compute.
Defined.

(** C9, as stated, fails: the handler does not throw, but a payload
    that does not parse can take the next message with it.  Here the
    malformed message has a Content-Type line after its Content-Length
    line, and the diagnostics notification follows it.  The pattern of
    the loop skips the first header and matches the second, so the
    length is 109; the content is taken from the first empty line, 109
    code units that are the malformed payload, the header of the
    notification and the first 77 code units of its payload.  The
    parse error is logged, the last 32 code units of the notification
    stay in the buffer, and the notification is never handed to
    handleLSPMessage. *)
Lemma malformed_message_takes_next_message :
  parse (lit "{'id': 1,") = None ∧
  parse diagnostics_text = Some diagnostics ∧
  handled <$> after (on_stdout_data parse rust_server 0
                       (Utf8.encode broken_then_diagnostics)) started
  = Some [] ∧
  handled <$> after (on_stdout_data parse rust_server 0
                       (Utf8.encode broken_then_diagnostics)) started
  ≠ Some [(rust_server, diagnostics)] ∧
  console <$> after (on_stdout_data parse rust_server 0
                       (Utf8.encode broken_then_diagnostics)) started
  = Some [LogParseError SyntaxError] ∧
  (fun w => buffer_at w 0) <$> after (on_stdout_data parse rust_server 0
                                        (Utf8.encode broken_then_diagnostics))
                                 started
  = Some (Some (drop 77 diagnostics_text)).
Proof. by vm_compute. Qed.

(** C9 (amended): the stdout handler never throws, whatever the data
    and the buffer: it ends normally on every chunk.  When the loop
    takes a payload that does not parse, the error is logged, the text
    it took has left the buffer, and the loop goes on with what
    follows it.  For every sequence of chunks, from an empty buffer,
    whose concatenation is the bytes of framed messages in ASCII, each
    with its Content-Length line as the last line of its header block,
    some of whose payloads do not parse: every malformed message is
    logged and discarded, exactly the payloads that parse are handed
    to handleLSPMessage, in order, whatever the chunk boundaries, and
    the buffer is left empty. *)
Theorem feed_survives_malformed_payloads
    (JSON_parse : list Z → option Json) (serverId : list Z) (a : nat)
    (w : World) (sd : ServerData) :
  registry_ok w → heap w !! a = Some sd →
  (∀ data, ∃ w', on_stdout_data JSON_parse serverId a data w = Normal tt w')
  ∧
  (∀ fuel ds,
     String_match (messageBuffer sd) = Some ds →
     let messageStart := indexOf (messageBuffer sd) CRLFCRLF + 4 in
     let messageEnd := messageStart + parseInt ds in
     (jslength (messageBuffer sd) >=? messageEnd) = true →
     JSON_parse (substring (messageBuffer sd) messageStart messageEnd)
     = None →
     process_messages JSON_parse (S fuel) serverId a w
     = process_messages JSON_parse fuel serverId a
         (with_console (fun l => l ++ [LogParseError SyntaxError])
            (with_heap
               (fun h => <[a := with_messageBuffer
                                  (substring_from (messageBuffer sd)
                                                  messageEnd) sd]> h) w)))
  ∧
  (∀ frames results chunks,
     messageBuffer sd = [] →
     Forall frame_ok frames →
     Forall2 (fun f r => JSON_parse (payload f) = r) frames results →
     concat chunks = Utf8.encode (stream_text frames) →
     ∃ w', feed_chunks JSON_parse serverId a chunks w = Normal tt w' ∧
           handled w' = handled w ++ parsed serverId results ∧
           console w' = console w
                        ++ logged (registered w serverId) results ∧
           buffer_at w' a = Some []).
Proof.
  intros Hok Ha. split_and!.
  - intros data. by apply on_stdout_data_total.
  - intros fuel ds Hm ms me Hlen Hparse.
    rewrite (process_messages_turn JSON_parse (S fuel) serverId a w sd ds
               Ha Hm Hlen).
    fold ms. fold me.
    by rewrite (bind_Normal _ _ _ _ _
                  (parse_and_handle_syntax_error JSON_parse _ _ _ Hparse)).
  - intros frames results chunks Hb Hfs Hres Hchunks.
    rewrite (encode_ascii _ (stream_text_ascii frames Hfs)) in Hchunks.
    destruct (feed_chunks_frames JSON_parse chunks serverId a w frames
                results [])
      as (w' & Hrun & _ & _ & Hb' & Hh & Hc); try done.
    + apply buffer_at_Some. by exists sd.
    + apply waiting_nil.
    + by exists w'.
Qed.

Lemma feed_survives_malformed_payloads_witness :
  ∃ w', feed_chunks parse rust_server 0
          (byte_by_byte (stream_text [broken_frame; frame_2])) started
        = Normal tt w' ∧
        handled w' = [(rust_server, diagnostics)] ∧
        console w' = [LogParseError SyntaxError] ∧
        buffer_at w' 0 = Some [].
Proof.
  assert (registry_ok started) as Hok
    by (apply (bool_decide_unpack _); by vm_compute).
  assert (heap started !! 0%nat
          = Some {| process := {| stdin := []; killed := false |};
                    language := js "rust"; messageBuffer := [];
                    pendingRequests := ∅; requestIdCounter := 0 |})
    as Ha by reflexivity.
  destruct (feed_survives_malformed_payloads parse rust_server 0 started
              _ Hok Ha) as (_ & _ & H).
  apply (H [broken_frame; frame_2] [None; Some diagnostics]).
  - reflexivity.
  - apply (bool_decide_unpack _). by vm_compute.
  - repeat constructor; by vm_compute.
  - by vm_compute.
Defined.

(** C5: the claim fails on the code for a payload with a multi-byte
    character.  The senders frame the content with its length in
    bytes, 41, as the claim says; the content has 40 code units, and
    the decode loop compares the announced length with the number of
    code units in its buffer: it waits for a forty-first unit, and the
    message is not decoded.  When another message follows, the loop
    takes 41 code units, the content and the first character of the
    next header, logs a parse error, and the next message has lost the
    beginning of its header. *)
Theorem multibyte_roundtrip_not_decoded :
  let content := stringify accent_message in
  let data := Utf8.encode (frame content) in
  parse content = Some accent_message ∧
  Utf8.byteLength content = 41 ∧ jslength content = 40 ∧
  frame content = lit "Content-Length: 41\r\n\r\n" ++ content ∧
  Utf8.toString data = frame content ∧
  handled <$> after (on_stdout_data parse rust_server 0 data) started
  = Some [] ∧
  (fun w => buffer_at w 0)
    <$> after (on_stdout_data parse rust_server 0 data) started
  = Some (Some (frame content)) ∧
  let next := Utf8.encode (frame (stringify response_1)) in
  handled <$> after (on_stdout_data parse rust_server 0 (data ++ next)) started
  = Some [] ∧
  console <$> after (on_stdout_data parse rust_server 0 (data ++ next)) started
  = Some [LogParseError SyntaxError].
Proof. by vm_compute. Qed.

End FramerClaims.

(** ** The Request Correlator and the Server Process Registry *)

Module CorrelatorClaims.
Import JSON Main Wire Invariants Events Examples.
Import RunFacts InvariantFacts.

(** C2: calls of sendRequest issued in a row on one server take
    consecutive ids, written in the requests sent to the server; when
    responses come back in any order, each without error and carrying
    the id of one of the calls, the promise of every answered call is
    fulfilled with the result of the response that carries its id, and
    the promises of the calls not answered stay pending. *)
Theorem concurrent_requests_resolve_by_id
    (JSON_stringify : Json → list Z) (serverId : list Z) (a : nat)
    (w : World) (sd : ServerData)
    (requests : list (list Z * option Json)) (replies : list Reply) :
  lspServers w !! serverId = Some a → heap w !! a = Some sd →
  NoDup (map reply_to replies) →
  (∀ r, r ∈ replies →
        (reply_to r < length requests)%nat ∧
        response_to (reply_message r)
          (requestIdCounter sd + 1 + Z.of_nat (reply_to r))
          (reply_result r)) →
  ∃ ps w1 sd1 w2,
    send_requests JSON_stringify serverId requests w = Normal ps w1 ∧
    length ps = length requests ∧
    heap w1 !! a = Some sd1 ∧
    stdin (process sd1)
    = stdin (process sd)
      ++ request_messages JSON_stringify (requestIdCounter sd) requests ∧
    handle_messages serverId (map reply_message replies) w1 = Normal tt w2 ∧
    (∀ r p, r ∈ replies → ps !! reply_to r = Some p →
            promises w2 !! p = Some (Fulfilled (reply_result r))) ∧
    (∀ k p, ps !! k = Some p → k ∉ map reply_to replies →
            promises w2 !! p = Some Pending).
Proof.
  intros Hs Ha Hnodup Hreplies.
  destruct (send_requests_effect JSON_stringify serverId a requests w sd
              Hs Ha)
    as (w1 & sd1 & Hsend & Hs1 & Ha1 & Hp1 & Hin1 & _ & Hpend1 & _).
  set (p0 := length (promises w)) in *.
  set (c := requestIdCounter sd) in *.
  assert (∀ k, (k < length requests)%nat →
               promises w1 !! (p0 + k)%nat = Some Pending) as Hfresh.
  { intros k Hk. rewrite Hp1. subst p0.
    rewrite lookup_app_r by lia.
    replace (length (promises w) + k - length (promises w))%nat with k
      by lia.
    by apply lookup_replicate_2. }
  destruct (handle_messages_replies serverId a
              (fun k => c + 1 + Z.of_nat k) (fun k => (p0 + k)%nat) replies)
    with (w := w1) (sd := sd1) as (w2 & Hrun & Hdone & Hrest).
  - intros k1 k2 Hk. lia.
  - intros k1 k2 Hk. lia.
  - by rewrite Hs1.
  - done.
  - done.
  - intros r Hr. destruct (Hreplies r Hr) as [Hlt Hresp].
    split_and!; [by apply Hpend1 | by apply Hfresh | done].
  - exists (seq p0 (length requests)), w1, sd1, w2.
    split_and!; [done | by rewrite length_seq | done..| |].
    + intros r p Hr Hp. apply lookup_seq in Hp as [-> _]. by apply Hdone.
    + intros k p Hp Hk. apply lookup_seq in Hp as [-> Hlt].
      rewrite Hrest; [by apply Hfresh|].
      intros r Hr Heq. apply Hk.
      replace k with (reply_to r) by lia.
      apply list_elem_of_fmap. by exists r.
Qed.

Lemma concurrent_requests_resolve_by_id_witness :
  ∃ ps w1 sd1 w2,
    send_requests stringify rust_server three_requests started
    = Normal ps w1 ∧
    length ps = 3%nat ∧
    heap w1 !! 0%nat = Some sd1 ∧
    stdin (process sd1) = request_messages stringify 0 three_requests ∧
    handle_messages rust_server (map reply_message replies_3_1_2) w1
    = Normal tt w2 ∧
    (∀ r p, r ∈ replies_3_1_2 → ps !! reply_to r = Some p →
            promises w2 !! p = Some (Fulfilled (reply_result r))) ∧
    (∀ k p, ps !! k = Some p → k ∉ map reply_to replies_3_1_2 →
            promises w2 !! p = Some Pending).
Proof.
  apply (concurrent_requests_resolve_by_id stringify rust_server 0 started
           {| process := {| stdin := []; killed := false |};
              language := js "rust"; messageBuffer := [];
              pendingRequests := ∅; requestIdCounter := 0 |}
           three_requests replies_3_1_2).
  - reflexivity.
  - reflexivity.
  - apply (bool_decide_unpack _). by vm_compute.
  - intros r Hr. unfold replies_3_1_2 in Hr.
    repeat (apply elem_of_cons in Hr as [->|Hr]);
      [..|by apply elem_of_nil in Hr];
      (split; [simpl; lia|]);
      (split_and!; [eexists; split; reflexivity
                   | eexists; split; reflexivity
                   | reflexivity]).
Defined.

(** C4: in every reachable state, a request that is still pending (no
    response has come) has a pending promise and a timer of 30 seconds.
    When the timer fires, the promise is rejected with the timeout
    error by one call of reject, no other promise changes, and the
    entry leaves the pending-request map.  A message that carries the
    id afterwards is handled without an exception and changes no
    promise and no server object, and the timer firing again does
    nothing. *)
Theorem timed_out_request_rejected_once
    (JSON_parse : list Z → option Json) (JSON_stringify : Json → list Z)
    (serverId : list Z) (a : nat) (w : World) (sd : ServerData)
    (requestId : Z) (p : nat) :
  reachable JSON_parse JSON_stringify w →
  lspServers w !! serverId = Some a → heap w !! a = Some sd →
  pendingRequests sd !! requestId = Some p →
  promises w !! p = Some Pending ∧
  TimeoutCallback a requestId p 30000 ∈ callbacks w ∧
  ∃ w1 sd1,
    run_callback (TimeoutCallback a requestId p 30000) None w
    = Normal tt w1 ∧
    promises w1 !! p = Some (Rejected RequestTimeout) ∧
    settled w1 = settled w ++ [(p, Rejected RequestTimeout)] ∧
    (∀ q, q ≠ p → promises w1 !! q = promises w !! q) ∧
    heap w1 !! a = Some sd1 ∧
    pendingRequests sd1 = delete requestId (pendingRequests sd) ∧
    (∀ m, has_id m requestId →
          ∃ w2, handleLSPMessage serverId m w1 = Normal tt w2 ∧
                promises w2 = promises w1 ∧ settled w2 = settled w1 ∧
                heap w2 = heap w1) ∧
    run_callback (TimeoutCallback a requestId p 30000) None w1
    = Normal tt w1.
Proof.
  intros (_ & Hpending & _)%reachable_well_formed Hs Ha Hpend.
  destruct (Hpending a requestId p) as (_ & Hp & Htimer); [by exists sd|].
  split_and!; [done..|]. cbn [run_callback].
  rewrite (timeout_callback_pending a requestId p p w sd Ha Hpend).
  set (sd1 := with_pendingRequests _ sd).
  set (w1 := settle_world _ _ _).
  assert (heap w1 !! a = Some sd1) as Ha1.
  { subst w1. unfold settle_world.
    cbn [heap with_promises with_settled with_heap].
    apply list_lookup_insert_eq. by eapply lookup_lt_Some. }
  assert (pendingRequests sd1 !! requestId = None) as Hgone
    by apply lookup_delete_eq.
  exists w1, sd1. split_and!.
  - done.
  - subst w1. by apply settle_world_pending.
  - done.
  - intros q Hq. subst w1. by rewrite settle_world_other.
  - done.
  - done.
  - intros m Hm.
    destruct (handleLSPMessage_unknown_id serverId m w1 a sd1 requestId)
      as (w2 & Hrun & ? & ? & ? & _); [done..|].
    by exists w2.
  - by apply (timeout_callback_settled a requestId p w1 sd1).
Qed.

Lemma timed_out_request_rejected_once_witness :
  promises requested !! 0%nat = Some Pending ∧
  TimeoutCallback 0 1 0 30000 ∈ callbacks requested ∧
  ∃ w1 sd1,
    run_callback (TimeoutCallback 0 1 0 30000) None requested
    = Normal tt w1 ∧
    promises w1 !! 0%nat = Some (Rejected RequestTimeout) ∧
    settled w1 = settled requested ++ [(0%nat, Rejected RequestTimeout)] ∧
    (∀ q, q ≠ 0%nat → promises w1 !! q = promises requested !! q) ∧
    heap w1 !! 0%nat = Some sd1 ∧
    pendingRequests sd1 = delete 1 (<[1 := 0%nat]> ∅) ∧
    (∀ m, has_id m 1 →
          ∃ w2, handleLSPMessage rust_server m w1 = Normal tt w2 ∧
                promises w2 = promises w1 ∧ settled w2 = settled w1 ∧
                heap w2 = heap w1) ∧
    run_callback (TimeoutCallback 0 1 0 30000) None w1 = Normal tt w1.
Proof.
  apply (timed_out_request_rejected_once parse stringify rust_server 0
           requested
           (sent_data
              {| process := {| stdin := []; killed := false |};
                 language := js "rust"; messageBuffer := [];
                 pendingRequests := ∅; requestIdCounter := 0 |}
              1 0
              (frame (stringify
                        (request_object 1 (js "textDocument/hover")
                           (Some hover_params)))))
           1 0).
  - apply requested_reachable.
  - reflexivity.
  - reflexivity.
  - reflexivity.
Defined.

(** C10: in every reachable state, when the write callback of a
    request reports an error while the request is pending, the entry
    the call had registered is deleted and the promise of the call,
    which was pending, is rejected with that error, by one call of
    reject.  The pending-request map has no entry for the id
    afterwards, so that a message that carries the id settles nothing,
    and neither does the timer of the request. *)
Theorem write_error_rejects_and_unregisters
    (JSON_parse : list Z → option Json) (JSON_stringify : Json → list Z)
    (serverId : list Z) (a : nat) (w : World) (sd : ServerData)
    (requestId : Z) (p : nat) (e : Error) :
  reachable JSON_parse JSON_stringify w →
  lspServers w !! serverId = Some a → heap w !! a = Some sd →
  pendingRequests sd !! requestId = Some p →
  promises w !! p = Some Pending ∧
  ∃ w1 sd1,
    run_callback (WriteCallback a requestId p) (Some e) w = Normal tt w1 ∧
    promises w1 !! p = Some (Rejected e) ∧
    settled w1 = settled w ++ [(p, Rejected e)] ∧
    (∀ q, q ≠ p → promises w1 !! q = promises w !! q) ∧
    heap w1 !! a = Some sd1 ∧
    pendingRequests sd1 = delete requestId (pendingRequests sd) ∧
    pendingRequests sd1 !! requestId = None ∧
    (∀ m, has_id m requestId →
          ∃ w2, handleLSPMessage serverId m w1 = Normal tt w2 ∧
                promises w2 = promises w1 ∧ settled w2 = settled w1 ∧
                heap w2 = heap w1) ∧
    run_callback (TimeoutCallback a requestId p 30000) None w1
    = Normal tt w1.
Proof.
  intros (_ & Hpending & _)%reachable_well_formed Hs Ha Hpend.
  destruct (Hpending a requestId p) as (_ & Hp & _); [by exists sd|].
  split; [done|]. cbn [run_callback].
  rewrite (write_callback_error a requestId p e w sd Ha).
  set (sd1 := with_pendingRequests _ sd).
  set (w1 := settle_world _ _ _).
  assert (heap w1 !! a = Some sd1) as Ha1.
  { subst w1. unfold settle_world.
    cbn [heap with_promises with_settled with_heap].
    apply list_lookup_insert_eq. by eapply lookup_lt_Some. }
  assert (pendingRequests sd1 !! requestId = None) as Hgone
    by apply lookup_delete_eq.
  exists w1, sd1. split_and!.
  - done.
  - subst w1. by apply settle_world_pending.
  - done.
  - intros q Hq. subst w1. by rewrite settle_world_other.
  - done.
  - done.
  - done.
  - intros m Hm.
    destruct (handleLSPMessage_unknown_id serverId m w1 a sd1 requestId)
      as (w2 & Hrun & ? & ? & ? & _); [done..|].
    by exists w2.
  - by apply (timeout_callback_settled a requestId p w1 sd1).
Qed.

Lemma write_error_rejects_and_unregisters_witness :
  WriteCallback 0 1 0 ∈ callbacks requested ∧
  promises requested !! 0%nat = Some Pending ∧
  ∃ w1 sd1,
    run_callback (WriteCallback 0 1 0) (Some (WriteFailed (js "EPIPE")))
      requested
    = Normal tt w1 ∧
    promises w1 !! 0%nat = Some (Rejected (WriteFailed (js "EPIPE"))) ∧
    settled w1
    = settled requested ++ [(0%nat, Rejected (WriteFailed (js "EPIPE")))] ∧
    (∀ q, q ≠ 0%nat → promises w1 !! q = promises requested !! q) ∧
    heap w1 !! 0%nat = Some sd1 ∧
    pendingRequests sd1 = delete 1 (<[1 := 0%nat]> ∅) ∧
    pendingRequests sd1 !! 1 = None ∧
    (∀ m, has_id m 1 →
          ∃ w2, handleLSPMessage rust_server m w1 = Normal tt w2 ∧
                promises w2 = promises w1 ∧ settled w2 = settled w1 ∧
                heap w2 = heap w1) ∧
    run_callback (TimeoutCallback 0 1 0 30000) None w1 = Normal tt w1.
Proof.
  split.
  - assert (callbacks requested
            = [WriteCallback 0 1 0; TimeoutCallback 0 1 0 30000]) as ->
      by (by vm_compute).
    by left.
  - apply (write_error_rejects_and_unregisters parse stringify rust_server 0
             requested
             (sent_data
                {| process := {| stdin := []; killed := false |};
                   language := js "rust"; messageBuffer := [];
                   pendingRequests := ∅; requestIdCounter := 0 |}
                1 0
                (frame (stringify
                          (request_object 1 (js "textDocument/hover")
                             (Some hover_params)))))
             1 0 (WriteFailed (js "EPIPE")));
      [apply requested_reachable | reflexivity..].
Defined.

(** C3, as stated, fails: with one request pending, the exit of the
    process and the stop of the server leave the promise of the
    request pending; neither calls reject. *)
Lemma exit_leaves_request_pending :
  promises requested = [Pending] ∧
  promises <$> after (on_exit rust_server) requested = Some [Pending] ∧
  settled <$> after (on_exit rust_server) requested = Some [] ∧
  promises <$> after (stop_lsp_server rust_server) requested
  = Some [Pending] ∧
  settled <$> after (stop_lsp_server rust_server) requested = Some [].
Proof. by vm_compute. Qed.

Lemma stop_lsp_server_effect (serverId : list Z) (a : nat) (w : World)
    (sd : ServerData) :
  lspServers w !! serverId = Some a → heap w !! a = Some sd →
  stop_lsp_server serverId w =
  Normal tt
    (with_lspServers (delete serverId)
       (with_heap
          (fun h => <[a := with_process
                             {| stdin := stdin (process sd); killed := true |}
                             sd]> h) w)).
Proof.
  intros Hs Ha. unfold stop_lsp_server, bind at 1, gets. rewrite Hs.
  by rewrite (bind_Normal _ _ _ _ _ (run_update _ _ _ _ Ha)).
Qed.

(** C3 (amended): in every reachable state, when the process of a
    server exits, or the server is stopped, while requests are
    pending, the server leaves the registry and no request is settled
    at that point: the promises and the calls of resolve and reject
    are as before, and the entries stay in the pending-request map of
    the server object.  Every pending request has a pending promise
    and its own timer of 30 seconds, which is still there after the
    exit or the stop and rejects the promise with the timeout error
    when it fires.  A message handled for the removed server id
    changes no promise. *)
Theorem exit_or_stop_leaves_requests_to_their_timers
    (JSON_parse : list Z → option Json) (JSON_stringify : Json → list Z)
    (serverId : list Z) (a : nat) (w : World) (sd : ServerData) :
  reachable JSON_parse JSON_stringify w →
  lspServers w !! serverId = Some a → heap w !! a = Some sd →
  ∃ w_exit w_stop sd_stop,
    on_exit serverId w = Normal tt w_exit ∧
    stop_lsp_server serverId w = Normal tt w_stop ∧
    lspServers w_exit !! serverId = None ∧
    lspServers w_stop !! serverId = None ∧
    heap w_exit = heap w ∧
    promises w_exit = promises w ∧ settled w_exit = settled w ∧
    heap w_stop !! a = Some sd_stop ∧
    pendingRequests sd_stop = pendingRequests sd ∧
    killed (process sd_stop) = true ∧
    promises w_stop = promises w ∧ settled w_stop = settled w ∧
    (∀ requestId p,
       pendingRequests sd !! requestId = Some p →
       promises w !! p = Some Pending ∧
       TimeoutCallback a requestId p 30000 ∈ callbacks w_exit ∧
       TimeoutCallback a requestId p 30000 ∈ callbacks w_stop ∧
       (∃ w', run_callback (TimeoutCallback a requestId p 30000) None w_exit
              = Normal tt w' ∧
              promises w' !! p = Some (Rejected RequestTimeout)) ∧
       (∃ w', run_callback (TimeoutCallback a requestId p 30000) None w_stop
              = Normal tt w' ∧
              promises w' !! p = Some (Rejected RequestTimeout))) ∧
    (∀ m, ∃ w', handleLSPMessage serverId m w_exit = Normal tt w' ∧
                promises w' = promises w_exit ∧
                settled w' = settled w_exit) ∧
    (∀ m, ∃ w', handleLSPMessage serverId m w_stop = Normal tt w' ∧
                promises w' = promises w_stop ∧
                settled w' = settled w_stop).
Proof.
  intros (_ & Hpending & _)%reachable_well_formed Hs Ha.
  rewrite (stop_lsp_server_effect serverId a w sd Hs Ha).
  set (sd_stop := with_process _ sd).
  set (w_exit := with_lspServers (delete serverId) w).
  set (w_stop := with_lspServers (delete serverId) (with_heap _ w)).
  assert (heap w_stop !! a = Some sd_stop) as Ha_stop.
  { subst w_stop. cbn [heap with_lspServers with_heap].
    apply list_lookup_insert_eq. by eapply lookup_lt_Some. }
  exists w_exit, w_stop, sd_stop. split_and!; try done.
  - apply lookup_delete_eq.
  - apply lookup_delete_eq.
  - intros requestId p Hpend.
    destruct (Hpending a requestId p) as (_ & Hp & Htimer); [by exists sd|].
    split_and!; [done..| |]; cbn [run_callback].
    + rewrite (timeout_callback_pending a requestId p p w_exit sd Ha Hpend).
      eexists. split; [done|]. by apply settle_world_pending.
    + rewrite (timeout_callback_pending a requestId p p w_stop sd_stop
                 Ha_stop Hpend).
      eexists. split; [done|]. by apply settle_world_pending.
  - intros m. rewrite handleLSPMessage_unregistered by apply lookup_delete_eq.
    by eexists.
  - intros m. rewrite handleLSPMessage_unregistered by apply lookup_delete_eq.
    by eexists.
Qed.

Lemma exit_or_stop_leaves_requests_to_their_timers_witness :
  ∃ w_exit w_stop sd_stop,
    on_exit rust_server requested = Normal tt w_exit ∧
    stop_lsp_server rust_server requested = Normal tt w_stop ∧
    lspServers w_exit !! rust_server = None ∧
    lspServers w_stop !! rust_server = None ∧
    heap w_exit = heap requested ∧
    promises w_exit = promises requested ∧
    settled w_exit = settled requested ∧
    heap w_stop !! 0%nat = Some sd_stop ∧
    pendingRequests sd_stop = <[1 := 0%nat]> ∅ ∧
    killed (process sd_stop) = true ∧
    promises w_stop = promises requested ∧
    settled w_stop = settled requested ∧
    (∀ requestId p,
       (<[1 := 0%nat]> ∅ : gmap Z nat) !! requestId = Some p →
       promises requested !! p = Some Pending ∧
       TimeoutCallback 0 requestId p 30000 ∈ callbacks w_exit ∧
       TimeoutCallback 0 requestId p 30000 ∈ callbacks w_stop ∧
       (∃ w', run_callback (TimeoutCallback 0 requestId p 30000) None w_exit
              = Normal tt w' ∧
              promises w' !! p = Some (Rejected RequestTimeout)) ∧
       (∃ w', run_callback (TimeoutCallback 0 requestId p 30000) None w_stop
              = Normal tt w' ∧
              promises w' !! p = Some (Rejected RequestTimeout))) ∧
    (∀ m, ∃ w', handleLSPMessage rust_server m w_exit = Normal tt w' ∧
                promises w' = promises w_exit ∧
                settled w' = settled w_exit) ∧
    (∀ m, ∃ w', handleLSPMessage rust_server m w_stop = Normal tt w' ∧
                promises w' = promises w_stop ∧
                settled w' = settled w_stop).
Proof.
  apply (exit_or_stop_leaves_requests_to_their_timers parse stringify
           rust_server 0 requested
           (sent_data
              {| process := {| stdin := []; killed := false |};
                 language := js "rust"; messageBuffer := [];
                 pendingRequests := ∅; requestIdCounter := 0 |}
              1 0
              (frame (stringify
                        (request_object 1 (js "textDocument/hover")
                           (Some hover_params))))));
    [apply requested_reachable | reflexivity..].
Defined.

(** C8: the claim fails on the code.  A message of the server that has
    an id and a method, here a workspace/configuration request with
    id 1, goes through the first block of handleLSPMessage like a
    response: request 1 of the client is pending, its entry is
    deleted and its promise is fulfilled, with undefined since the
    message has no result. *)
Theorem server_request_resolves_pending_promise :
  parse server_request_text = Some server_request ∧
  get_property (Some server_request) (js "id") = Some (Some (JInt 1)) ∧
  get_property (Some server_request) (js "method")
  = Some (Some (JStr (js "workspace/configuration"))) ∧
  promises requested = [Pending] ∧
  (fun w => pending_at w 0) requested = Some (<[1 := 0%nat]> ∅) ∧
  promises <$> after (handleLSPMessage rust_server server_request) requested
  = Some [Fulfilled None] ∧
  settled <$> after (handleLSPMessage rust_server server_request) requested
  = Some [(0%nat, Fulfilled None)] ∧
  (fun w => pending_at w 0)
    <$> after (handleLSPMessage rust_server server_request) requested
  = Some (Some ∅) ∧
  promises <$> after (on_stdout_data parse rust_server 0
                        (Utf8.encode (frame server_request_text))) requested
  = Some [Fulfilled None].
Proof. by vm_compute. Qed.

End CorrelatorClaims.

(** ** The Document Session Tracker *)

Module RendererClaims.
Import JSON Renderer RendererExamples.

Lemma didOpenDocument_effect (st : State) (server : Server)
    (filePath languageId content : list Z) :
  getServerForFile st filePath = Some server →
  didOpenDocument filePath languageId content st =
  {| languageServers := languageServers st;
     documentVersions := <[filePath := 1]> (documentVersions st);
     sent := sent st
             ++ [didOpen_notification server filePath languageId content 1] |}.
Proof. intros H. unfold didOpenDocument. by rewrite H. Qed.

Lemma didChangeDocument_effect (st : State) (server : Server)
    (filePath content : list Z) :
  getServerForFile st filePath = Some server →
  didChangeDocument filePath content st =
  {| languageServers := languageServers st;
     documentVersions :=
       <[filePath := version_or_1 st filePath + 1]> (documentVersions st);
     sent := sent st
             ++ [didChange_notification server filePath content
                   (version_or_1 st filePath + 1)] |}.
Proof. intros H. unfold didChangeDocument. by rewrite H. Qed.

Lemma didCloseDocument_effect (st : State) (server : Server)
    (filePath : list Z) :
  getServerForFile st filePath = Some server →
  didCloseDocument filePath st =
  {| languageServers := languageServers st;
     documentVersions := delete filePath (documentVersions st);
     sent := sent st ++ [didClose_notification server filePath] |}.
Proof. intros H. unfold didCloseDocument. by rewrite H. Qed.

(** The server of a file depends on the servers only. *)
Lemma getServerForFile_servers (st st' : State) (filePath : list Z) :
  languageServers st' = languageServers st →
  getServerForFile st' filePath = getServerForFile st filePath.
Proof. intros H. unfold getServerForFile. by rewrite H. Qed.

(** A change of an open document sends the next version. *)
Lemma didChangeDocument_next (st : State) (server : Server)
    (filePath content : list Z) (v : Z) :
  getServerForFile st filePath = Some server →
  documentVersions st !! filePath = Some v → v ≠ 0 →
  didChangeDocument filePath content st =
  {| languageServers := languageServers st;
     documentVersions := <[filePath := v + 1]> (documentVersions st);
     sent := sent st
             ++ [didChange_notification server filePath content (v + 1)] |}.
Proof.
  intros Hs Hv Hne. rewrite (didChangeDocument_effect st server) by done.
  unfold version_or_1. rewrite Hv.
  by destruct (Z.eqb_spec v 0).
Qed.

(** C6: with a language server for the file, didOpen sends version 1
    and records it; three didChange calls on the same file then send
    versions 2, 3 and 4; didClose discards the version, and a didOpen
    of the same file after it sends version 1 again. *)
Theorem versions_follow_the_session (st : State) (server : Server)
    (filePath languageId c0 c1 c2 c3 c4 : list Z) :
  getServerForFile st filePath = Some server →
  let st1 := didOpenDocument filePath languageId c0 st in
  let st4 := didChangeDocument filePath c3
               (didChangeDocument filePath c2
                  (didChangeDocument filePath c1 st1)) in
  let st5 := didCloseDocument filePath st4 in
  let st6 := didOpenDocument filePath languageId c4 st5 in
  sent st1 = sent st ++ [didOpen_notification server filePath languageId c0 1]
  ∧ documentVersions st1 !! filePath = Some 1
  ∧ sent st4 = sent st1 ++ [didChange_notification server filePath c1 2;
                            didChange_notification server filePath c2 3;
                            didChange_notification server filePath c3 4]
  ∧ documentVersions st4 !! filePath = Some 4
  ∧ sent st5 = sent st4 ++ [didClose_notification server filePath]
  ∧ documentVersions st5 !! filePath = None
  ∧ sent st6 = sent st5 ++ [didOpen_notification server filePath languageId c4 1]
  ∧ documentVersions st6 !! filePath = Some 1
  ∧ map version_of (drop (length (sent st)) (sent st6))
    = [Some (JInt 1); Some (JInt 2); Some (JInt 3); Some (JInt 4);
       None; Some (JInt 1)].
Proof.
  intros Hs. cbn zeta.
  rewrite (didOpenDocument_effect st server) by done.
  set (st1 := {| languageServers := _ |}).
  assert (getServerForFile st1 filePath = Some server) as Hs1 by done.
  rewrite (didChangeDocument_next st1 server filePath c1 1 Hs1)
    by (try apply lookup_insert_eq; done).
  set (st2 := {| languageServers := _ |}).
  assert (getServerForFile st2 filePath = Some server) as Hs2 by done.
  rewrite (didChangeDocument_next st2 server filePath c2 2 Hs2)
    by (try apply lookup_insert_eq; done).
  set (st3 := {| languageServers := _ |}).
  assert (getServerForFile st3 filePath = Some server) as Hs3 by done.
  rewrite (didChangeDocument_next st3 server filePath c3 3 Hs3)
    by (try apply lookup_insert_eq; done).
  set (st4 := {| languageServers := _ |}).
  assert (getServerForFile st4 filePath = Some server) as Hs4 by done.
  rewrite (didCloseDocument_effect st4 server) by done.
  set (st5 := {| languageServers := _ |}).
  assert (getServerForFile st5 filePath = Some server) as Hs5 by done.
  rewrite (didOpenDocument_effect st5 server) by done.
  subst st5 st4 st3 st2 st1. cbn [sent documentVersions].
  split_and!.
  - done.
  - apply lookup_insert_eq.
  - by rewrite <- !app_assoc.
  - apply lookup_insert_eq.
  - done.
  - apply lookup_delete_eq.
  - done.
  - apply lookup_insert_eq.
  - rewrite <- !app_assoc. by rewrite drop_app_length.
Qed.

Lemma versions_follow_the_session_witness :
  let st1 := didOpenDocument main_rs (js "rust") (js "fn main() {}") ready in
  let st4 := didChangeDocument main_rs (js "fn main() { c(); }")
               (didChangeDocument main_rs (js "fn main() { b(); }")
                  (didChangeDocument main_rs (js "fn main() { a(); }") st1)) in
  let st5 := didCloseDocument main_rs st4 in
  let st6 := didOpenDocument main_rs (js "rust") (js "fn main() {}") st5 in
  sent st1 = sent ready
             ++ [didOpen_notification rust main_rs (js "rust")
                   (js "fn main() {}") 1]
  ∧ documentVersions st1 !! main_rs = Some 1
  ∧ sent st4
    = sent st1
      ++ [didChange_notification rust main_rs (js "fn main() { a(); }") 2;
          didChange_notification rust main_rs (js "fn main() { b(); }") 3;
          didChange_notification rust main_rs (js "fn main() { c(); }") 4]
  ∧ documentVersions st4 !! main_rs = Some 4
  ∧ sent st5 = sent st4 ++ [didClose_notification rust main_rs]
  ∧ documentVersions st5 !! main_rs = None
  ∧ sent st6 = sent st5
               ++ [didOpen_notification rust main_rs (js "rust")
                     (js "fn main() {}") 1]
  ∧ documentVersions st6 !! main_rs = Some 1
  ∧ map version_of (drop (length (sent ready)) (sent st6))
    = [Some (JInt 1); Some (JInt 2); Some (JInt 3); Some (JInt 4);
       None; Some (JInt 1)].
Proof.
  apply (versions_follow_the_session ready rust main_rs (js "rust")).
  reflexivity.
Defined.

(** C7, as stated, fails: after didOpen and didClose of a file that has
    a language server, a didChange of the file sends a notification,
    with version 2, and records that version; so does a didChange of
    a file that was never opened. *)
Lemma didChange_without_session_sends :
  let closed := didCloseDocument main_rs
                  (didOpenDocument main_rs (js "rust") (js "v1") ready) in
  documentVersions closed !! main_rs = None ∧
  sent (didChangeDocument main_rs (js "v2") closed)
  = sent closed ++ [didChange_notification rust main_rs (js "v2") 2] ∧
  documentVersions (didChangeDocument main_rs (js "v2") closed) !! main_rs
  = Some 2 ∧
  sent (didChangeDocument main_rs (js "v2") ready)
  = [didChange_notification rust main_rs (js "v2") 2] ∧
  didChangeDocument main_rs (js "v2") ready ≠ ready.
Proof.
  cbn zeta. split_and!; by vm_compute.
Qed.

(** C7 (amended): a didChange call for a file that has no session is a
    no-op when no language server serves the file: nothing is sent
    and the state is unchanged.  When a server serves the file, the
    call takes the missing version for 1: it records version 2 for
    the file and sends a didChange notification with version 2. *)
Theorem didChange_without_session (st : State)
    (filePath content : list Z) :
  documentVersions st !! filePath = None →
  (getServerForFile st filePath = None →
   didChangeDocument filePath content st = st) ∧
  (∀ server, getServerForFile st filePath = Some server →
     didChangeDocument filePath content st =
     {| languageServers := languageServers st;
        documentVersions := <[filePath := 2]> (documentVersions st);
        sent := sent st
                ++ [didChange_notification server filePath content 2] |}).
Proof.
  intros Hnone. split.
  - intros Hs. unfold didChangeDocument. by rewrite Hs.
  - intros server Hs. rewrite (didChangeDocument_effect st server) by done.
    unfold version_or_1. by rewrite Hnone.
Qed.

Lemma didChange_without_session_witness :
  (getServerForFile ready notes_txt = None →
   didChangeDocument notes_txt (js "text") ready = ready) ∧
  (∀ server, getServerForFile ready notes_txt = Some server →
     didChangeDocument notes_txt (js "text") ready =
     {| languageServers := languageServers ready;
        documentVersions := <[notes_txt := 2]> (documentVersions ready);
        sent := sent ready
                ++ [didChange_notification server notes_txt (js "text") 2] |}).
Proof.
  apply (didChange_without_session ready notes_txt (js "text")).
  reflexivity.
Defined.

End RendererClaims.

(** ** A rule for the invariants of the main process *)

Module RuleFacts.
Import JSON Main Wire Invariants Events Accounting.
Import RunFacts DecodeFacts InvariantFacts.

Lemma start_lsp_server_started (language : list Z) (w : World) :
  start_lsp_server language Spawned w
  = Normal
      (Some (js "lsp-" ++ language ++ js "-"
             ++ Number_toString (lspServerIdCounter w + 1)))
      (started_world language w).
Proof. reflexivity. Qed.

Lemma stop_lsp_server_registered (serverId : list Z) (a : nat) (w : World)
    (sd : ServerData) :
  lspServers w !! serverId = Some a → heap w !! a = Some sd →
  stop_lsp_server serverId w =
  Normal tt
    (with_lspServers (delete serverId)
       (with_heap
          (fun h => <[a := with_process
                             {| stdin := stdin (process sd); killed := true |}
                             sd]> h) w)).
Proof.
  intros Hs Ha. unfold stop_lsp_server, bind at 1, gets. rewrite Hs.
  by rewrite (bind_Normal _ _ _ _ _ (run_update _ _ _ _ Ha)).
Qed.

Section Rule.
Variable JSON_parse : list Z → option Json.
Variable JSON_stringify : Json → list Z.

(** A property of the state that the steps of the handlers keep. *)
Variable I : World → Prop.

(** Logging, sending to the renderer, and counting server ids. *)
Hypothesis I_other : ∀ w w',
  I w → lspServers w' = lspServers w → heap w' = heap w →
  promises w' = promises w → callbacks w' = callbacks w →
  lspServerIdCounter w <= lspServerIdCounter w' → I w'.

(** Changing the process or the buffer of a server object. *)
Hypothesis I_update : ∀ w a sd sd',
  I w → well_formed w → heap w !! a = Some sd →
  pendingRequests sd' = pendingRequests sd →
  requestIdCounter sd' = requestIdCounter sd →
  I (with_heap (fun h => <[a := sd']> h) w).

(** Deleting a request and settling its promise, or the promise a
    closure holds for its id. *)
Hypothesis I_settle : ∀ w a sd requestId p s,
  I w → well_formed w → heap w !! a = Some sd → s ≠ Pending →
  pendingRequests sd !! requestId = Some p ∨
  (∃ cb, cb ∈ callbacks w ∧ captured cb = (a, requestId, p)) →
  I (settle_world p s
       (with_heap
          (fun h => <[a := with_pendingRequests
                             (delete requestId (pendingRequests sd)) sd]> h)
          w)).

Hypothesis I_sent : ∀ w serverId a sd msg,
  I w → well_formed w →
  lspServers w !! serverId = Some a → heap w !! a = Some sd →
  I (sent_world a sd (requestIdCounter sd + 1) msg w).

Hypothesis I_started : ∀ w language,
  I w → well_formed w → I (started_world language w).

Hypothesis I_unregister : ∀ w serverId,
  I w → I (with_lspServers (delete serverId) w).

Lemma handle_response_rule (a : nat) (m : Json) (w : World) :
  m ≠ JNull → is_Some (heap w !! a) → I w → well_formed w →
  ∃ w', handle_response a m w = Normal tt w' ∧ I w' ∧ well_formed w'.
Proof.
  intros Hm [sd Ha] HI Hwf.
  destruct (get_property_defined m (js "id") Hm) as [id Hid].
  destruct (Map_get (pendingRequests sd) id) as [p|] eqn:Hget.
  - destruct (handle_response_pending a m w sd id p Ha Hid Hget)
      as (error & result & _ & _ & ->).
    eexists. split; [reflexivity|].
    destruct (Map_get_Some _ _ _ Hget) as (k & _ & Hk & ->). split.
    + apply I_settle; [done.. | by destruct (truthy error) | by left].
    + apply well_formed_delete_settle; [done..|].
      intros a' rid'. apply entry_owner; [done|]. by exists sd.
  - rewrite (handle_response_unknown a m w sd id Ha Hid Hget). eauto.
Qed.

Lemma handleLSPMessage_rule (serverId : list Z) (m : Json) (w : World) :
  I w → well_formed w →
  ∃ w', (handleLSPMessage serverId m w = Normal tt w' ∨
         handleLSPMessage serverId m w = Throw TypeError w') ∧
        I w' ∧ well_formed w'.
Proof.
  intros HI Hwf.
  assert (I (with_handled (fun l => l ++ [(serverId, m)]) w)) as HI0
    by (apply (I_other w); [done..|cbn; lia]).
  destruct (lspServers w !! serverId) as [a|] eqn:Hs.
  - destruct (null_or_not m) as [->|Hm].
    + rewrite (handleLSPMessage_null _ _ _ Hs). eexists.
      split; [by right|]. split; [done | exact Hwf].
    + unfold handleLSPMessage, bind at 1, modify, bind at 1, gets.
      cbn [lspServers with_handled]. rewrite Hs.
      set (w0 := with_handled _ w) in *.
      destruct (handle_response_rule a m w0 Hm) as (w1 & Hr & HI1 & Hwf1).
      { apply lookup_lt_is_Some_2. destruct Hwf as (Hreg & _).
        by eapply Hreg. }
      { done. }
      { exact Hwf. }
      rewrite (bind_Normal _ _ _ _ _ Hr).
      destruct (handle_notification_effect serverId m w1 Hm) as (w2 & Hn & Hi).
      exists w2. split; [by left|]. split.
      * apply (I_other w1); [done | by rewrite Hi.. | rewrite Hi; cbn; lia].
      * rewrite Hi. exact Hwf1.
  - rewrite (handleLSPMessage_unregistered _ _ _ Hs). eexists.
    split; [by left|]. split; [done | exact Hwf].
Qed.

Lemma parse_and_handle_rule (serverId content : list Z) (w w' : World) :
  I w ∧ well_formed w →
  parse_and_handle JSON_parse serverId content w = Normal tt w' →
  I w' ∧ well_formed w'.
Proof.
  intros [HI Hwf]. unfold parse_and_handle, try_catch.
  destruct (JSON_parse content) as [m|].
  - destruct (handleLSPMessage_rule serverId m w HI Hwf)
      as (w1 & [->| ->] & HI1 & Hwf1); intros [= <-].
    + done.
    + split; [|exact Hwf1]. apply (I_other w1); [done..|cbn; lia].
  - intros [= <-]. split; [|exact Hwf].
    apply (I_other w); [done..|cbn; lia].
Qed.

Lemma run_callback_rule (cb : Callback) (error : option Error) (w : World) :
  I w → well_formed w → cb ∈ callbacks w →
  ∃ w', run_callback cb error w = Normal tt w' ∧ I w' ∧ well_formed w'.
Proof.
  intros HI Hwf Hin.
  destruct (captured cb) as [[a rid] p] eqn:Hcap.
  pose proof Hwf as (Hreg & Hp & Hc).
  destruct (Hc cb a rid p Hin Hcap) as (_ & (sd & Ha & _) & Hown).
  assert (∃ cb', cb' ∈ callbacks w ∧ captured cb' = (a, rid, p)) as Hcb
    by eauto.
  destruct cb as [a0 rid0 p0|a0 rid0 p0 ms]; injection Hcap as -> -> ->;
    cbn [run_callback].
  - destruct error as [e|]; [|by exists w].
    rewrite (write_callback_error a rid p e w sd Ha).
    eexists. split; [reflexivity|]. split.
    + apply I_settle; [done..|by right].
    + by apply well_formed_delete_settle.
  - destruct (pendingRequests sd !! rid) as [q|] eqn:Hq.
    + rewrite (timeout_callback_pending a rid p q w sd Ha Hq).
      eexists. split; [reflexivity|]. split.
      * apply I_settle; [done..|by right].
      * by apply well_formed_delete_settle.
    + rewrite (timeout_callback_settled a rid p w sd Ha Hq). by exists w.
Qed.

(** Every event that can happen keeps the property. *)
Lemma next_rule (ev : Event) (w : World) :
  I w → well_formed w → enabled w ev →
  ∃ w', next JSON_parse JSON_stringify ev w = Some w' ∧
        I w' ∧ well_formed w'.
Proof.
  intros HI Hwf Hen. unfold next.
  pose proof Hwf as (Hreg & _).
  destruct ev as [language spawned|sid method params|sid method params|sid|
                  sid a data|sid data|sid|cb error];
    cbn [handle_event enabled] in *.
  - destruct spawned.
    + rewrite (bind_Normal _ _ _ _ _ (start_lsp_server_started language w)).
      eexists. split; [reflexivity|]. split; [by apply I_started|].
      by apply (well_formed_register (with_lspServerIdCounter _ w)).
    + eexists. split; [reflexivity|]. split; [|exact Hwf].
      apply (I_other w); [done..|cbn; lia].
    + eexists. split; [reflexivity|]. split; [|exact Hwf].
      apply (I_other w); [done..|cbn; lia].
  - destruct (lspServers w !! sid) as [a|] eqn:Hs.
    + destruct (lookup_lt_is_Some_2 (heap w) a) as [sd Ha];
        [by eapply Hreg|].
      rewrite (bind_Normal _ _ _ _ _
                 (send_lsp_request_effect JSON_stringify sid method params
                    w a sd Hs Ha)).
      eexists. split; [reflexivity|]. split.
      * by apply (I_sent w sid).
      * by apply well_formed_sent.
    + exists w. split; [|done].
      unfold send_lsp_request, bind, gets. by rewrite Hs.
  - unfold send_lsp_notification, bind, gets.
    destruct (lspServers w !! sid) as [a|] eqn:Hs; [|by exists w].
    destruct (lookup_lt_is_Some_2 (heap w) a) as [sd Ha];
      [by eapply Hreg|].
    unfold stdin_write. rewrite (run_update _ _ _ _ Ha).
    eexists. split; [reflexivity|]. split.
    + by apply (I_update w a sd).
    + by apply (well_formed_update w a sd).
  - destruct (lspServers w !! sid) as [a|] eqn:Hs.
    + destruct (lookup_lt_is_Some_2 (heap w) a) as [sd Ha];
        [by eapply Hreg|].
      rewrite (stop_lsp_server_registered sid a w sd Hs Ha).
      eexists. split; [reflexivity|]. split.
      * apply I_unregister. by apply (I_update w a sd).
      * apply well_formed_unregister. by apply (well_formed_update w a sd).
    + exists w. split; [|done].
      unfold stop_lsp_server, bind, gets. by rewrite Hs.
  - destruct (on_stdout_data_invariant JSON_parse
                (fun w => I w ∧ well_formed w) sid a data w)
      as (w' & -> & HI' & Hwf'); [| |done|done| |by exists w'].
    + intros w0 a0 sd b [HI0 Hwf0] Ha0. split.
      * by apply (I_update w0 a0 sd).
      * by apply (well_formed_update w0 a0 sd).
    + intros w0 content w' HJ _. by apply parse_and_handle_rule.
    + by apply lookup_lt_is_Some_2.
  - eexists. split; [reflexivity|]. split; [|exact Hwf].
    apply (I_other w); [done..|cbn; lia].
  - eexists. split; [reflexivity|].
    split; [by apply I_unregister | by apply well_formed_unregister].
  - destruct (run_callback_rule cb error w HI Hwf Hen) as (w' & -> & ?).
    by exists w'.
Qed.

(** A property of the initial state that the steps keep holds in every
    reachable state. *)
Lemma reachable_rule (w : World) :
  I initial_world → reachable JSON_parse JSON_stringify w → I w.
Proof.
  intros Hinit Hreach.
  assert (I w ∧ well_formed w) as [? _]; [|done].
  induction Hreach as [|w w' ev _ [HI Hwf] Hen Hnext];
    [split; [done | apply well_formed_initial]|].
  destruct (next_rule ev w HI Hwf Hen) as (w'' & H & ?).
  rewrite H in Hnext. by injection Hnext as <-.
Qed.

End Rule.

End RuleFacts.

(** ** Ids, promises and writes of the main process *)

Module AccountingFacts.
Import JSON Main Wire Invariants Events Accounting.
Import StringFacts FramerFacts RunFacts DecodeFacts RoundTripFacts.
Import InvariantFacts RuleFacts.

Lemma encode_ascii_app (s t : list Z) :
  ascii s → Utf8.encode (s ++ t) = s ++ Utf8.encode t.
Proof.
  induction 1 as [|c s Hc _ IH]; [done|]. cbn [app Utf8.encode].
  unfold Utf8.is_high_surrogate, Utf8.is_low_surrogate,
    Utf8.encode_code_point.
  destruct (Z.leb_spec 0xD800 c); [lia|].
  destruct (Z.leb_spec 0xDC00 c); [lia|]. cbn [andb].
  destruct (Z.ltb_spec c 0x80); [|lia]. by rewrite IH.
Qed.

Lemma frame_byte_framed (content : list Z) : byte_framed (frame content) content.
Proof.
  assert (0 <= Utf8.byteLength content) as Hlen
    by (unfold Utf8.byteLength; lia).
  destruct (decimal_spec _ Hlen) as (Hparse & Hd & Hne).
  exists (decimal (Utf8.byteLength content)). split_and!; [done..| |done].
  unfold frame, Number_toString.
  destruct (Z.ltb_spec (Utf8.byteLength content) 0); [lia|].
  rewrite !app_assoc. rewrite encode_ascii_app; [done|].
  rewrite !ascii_app. split_and!; [|by apply digits_ascii|].
  - apply (bool_decide_unpack _). by vm_compute.
  - apply (bool_decide_unpack _). by vm_compute.
Qed.

(** *** The number a server id ends with *)

Lemma digits_reverse (ds : list Z) : digits ds → digits (reverse ds).
Proof.
  unfold digits. rewrite !Forall_forall. intros H c Hc.
  apply H. by apply elem_of_reverse.
Qed.

Lemma trailing_number_app (s : list Z) (c : Z) (ds : list Z) :
  is_digit c = false → digits ds →
  trailing_number (s ++ c :: ds) = parseInt ds.
Proof.
  intros Hc Hd. unfold trailing_number.
  rewrite reverse_app, reverse_cons, <- app_assoc. cbn [app].
  rewrite span_digits_stop; [|by apply digits_reverse|done].
  cbn [fst]. by rewrite reverse_involutive.
Qed.

Lemma trailing_number_server_id (language : list Z) (n : Z) :
  0 <= n →
  trailing_number (js "lsp-" ++ language ++ js "-" ++ Number_toString n) = n.
Proof.
  intros Hn. destruct (decimal_spec n Hn) as (Hparse & Hd & _).
  unfold Number_toString. destruct (Z.ltb_spec n 0); [lia|].
  change (js "-") with [45]. rewrite !app_assoc, <- app_assoc. cbn [app].
  by rewrite trailing_number_app.
Qed.

Lemma server_ids_ok_started (w : World) (language : list Z) :
  server_ids_ok w → server_ids_ok (started_world language w).
Proof.
  intros [Hpos Hids]. split; [cbn; lia|].
  unfold started_world. cbn [lspServers lspServerIdCounter with_lspServers
    with_heap with_lspServerIdCounter].
  apply map_Forall_insert_2.
  - rewrite trailing_number_server_id; lia.
  - eapply map_Forall_impl; [exact Hids|]. cbn. intros; lia.
Qed.

(** A response with an error, for a pending request whose promise is
    pending. *)
Lemma handleLSPMessage_error_response (serverId : list Z) (a : nat)
    (w : World) (sd : ServerData) (requestId : Z) (p : nat) (m : Json)
    (error : option Json) :
  lspServers w !! serverId = Some a → heap w !! a = Some sd →
  pendingRequests sd !! requestId = Some p →
  promises w !! p = Some Pending →
  has_id m requestId →
  get_property (Some m) (js "error") = Some error → truthy error = true →
  let reason :=
    ResponseError (default None (get_property error (js "message"))) in
  ∃ w' sd',
    handleLSPMessage serverId m w = Normal tt w' ∧
    promises w' !! p = Some (Rejected reason) ∧
    settled w' = settled w ++ [(p, Rejected reason)] ∧
    (∀ q, q ≠ p → promises w' !! q = promises w !! q) ∧
    heap w' !! a = Some sd' ∧
    pendingRequests sd' = delete requestId (pendingRequests sd).
Proof.
  intros Hs Ha Hpend Hp (id & Hid & Hkey) Herr Htruthy reason.
  assert (m ≠ JNull) as Hm by (intros ->; done).
  unfold handleLSPMessage, bind at 1, modify, bind at 1, gets.
  cbn [lspServers with_handled]. rewrite Hs.
  set (w0 := with_handled _ w).
  destruct (handle_response_pending a m w0 sd id p Ha Hid)
    as (error' & result' & Herr' & _ & Hrun).
  { unfold Map_get. by rewrite Hkey. }
  rewrite Herr in Herr'. injection Herr' as <-.
  rewrite Htruthy in Hrun. unfold Map_delete in Hrun. rewrite Hkey in Hrun.
  rewrite (bind_Normal _ _ _ _ _ Hrun). fold reason.
  set (sd' := with_pendingRequests _ sd).
  set (w1 := settle_world _ _ _).
  destruct (handle_notification_effect serverId m w1 Hm) as (w' & -> & ->).
  exists (with_ipc (fun _ => ipc w') w1), sd'.
  cbn [promises settled heap with_ipc]. split_and!; [done| | | | |done].
  - subst w1. by apply settle_world_pending.
  - done.
  - intros q Hq. subst w1. by rewrite settle_world_other.
  - subst w1. unfold settle_world.
    cbn [heap with_promises with_settled with_heap].
    apply list_lookup_insert_eq. by eapply lookup_lt_Some.
Qed.

(** What a request leaves on a registered server. *)
Lemma send_lsp_request_pending (JSON_stringify : Json → list Z)
    (serverId method : list Z) (params : option Json) (w : World)
    (a : nat) (sd : ServerData) :
  lspServers w !! serverId = Some a → heap w !! a = Some sd →
  let requestId := requestIdCounter sd + 1 in
  let p := length (promises w) in
  ∃ w1 sd1,
    send_lsp_request JSON_stringify serverId method params w = Normal p w1 ∧
    lspServers w1 !! serverId = Some a ∧ heap w1 !! a = Some sd1 ∧
    pendingRequests sd1 !! requestId = Some p ∧
    promises w1 !! p = Some Pending.
Proof.
  intros Hs Ha requestId p.
  rewrite (send_lsp_request_effect JSON_stringify serverId method params
             w a sd Hs Ha).
  fold requestId. fold p. set (msg := frame _).
  exists (sent_world a sd requestId msg w), (sent_data sd requestId p msg).
  split_and!; [done | done | by apply sent_world_lookup | |].
  - cbn. apply lookup_insert_eq.
  - unfold sent_world. cbn [promises with_promises with_heap with_callbacks].
    by apply list_lookup_middle.
Qed.

Section Reach.
Variable JSON_parse : list Z → option Json.
Variable JSON_stringify : Json → list Z.

Lemma reachable_server_ids_ok (w : World) :
  reachable JSON_parse JSON_stringify w → server_ids_ok w.
Proof.
  apply (reachable_rule JSON_parse JSON_stringify server_ids_ok).
  - intros w0 w' [Hpos Hids] Hs _ _ _ Hle. split; [lia|].
    rewrite Hs. eapply map_Forall_impl; [exact Hids|]. cbn. intros; lia.
  - intros w0 a sd sd' H _ _ _ _. exact H.
  - intros w0 a sd rid p s H _ _ _ _. exact H.
  - intros w0 sid a sd msg H _ _ _. exact H.
  - intros w0 language H _. by apply server_ids_ok_started.
  - intros w0 sid [Hpos Hids]. split; [done|]. by apply map_Forall_delete.
  - split; [done | apply map_Forall_empty].
Qed.

(** *** Pending promises *)

Lemma accounted_same (w w' : World) :
  accounted w → heap w' = heap w → promises w' = promises w →
  callbacks w' = callbacks w → accounted w'.
Proof.
  intros [H1 H2] Hh Hp Hc. split.
  - intros p Hpend. rewrite Hp in Hpend.
    destruct (H1 p Hpend) as (a & rid & He). exists a, rid.
    by apply (entry_heap w).
  - intros cb a rid p q Hin Hcap He. rewrite Hc in Hin.
    apply (entry_heap w) in He; [|done]. eauto.
Qed.

Lemma accounted_update (w : World) (a : nat) (sd sd' : ServerData) :
  accounted w → heap w !! a = Some sd →
  pendingRequests sd' = pendingRequests sd →
  accounted (with_heap (fun h => <[a := sd']> h) w).
Proof.
  intros [H1 H2] Ha Hpend.
  assert (∀ a' rid p,
            entry (with_heap (fun h => <[a := sd']> h) w) a' rid p
            ↔ entry w a' rid p) as Hentry.
  { intros a' rid p. rewrite (entry_insert w a a' sd sd' rid p Ha).
    rewrite Hpend. split.
    - intros [[-> ?]|[_ ?]]; [by exists sd | done].
    - intros He. destruct (decide (a' = a)) as [->|Hne]; [left|by right].
      destruct He as (sd1 & Ha1 & ?). rewrite Ha in Ha1.
      by injection Ha1 as <-. }
  split.
  - intros p Hp. destruct (H1 p Hp) as (a' & rid & He).
    exists a', rid. by apply Hentry.
  - intros cb a' rid p q Hin Hcap He%Hentry. eauto.
Qed.

Lemma settle_world_not_pending (p : nat) (s : PromiseState) (w : World) :
  s ≠ Pending → promises (settle_world p s w) !! p ≠ Some Pending.
Proof.
  intros Hs. unfold settle_world. cbn [promises with_promises with_settled].
  destruct (promises w !! p) as [[]|] eqn:Hp; try (by rewrite Hp).
  rewrite list_lookup_insert_eq by (by eapply lookup_lt_Some).
  by intros [= ->].
Qed.

Lemma accounted_settle (w : World) (a : nat) (sd : ServerData)
    (requestId : Z) (p : nat) (s : PromiseState) :
  accounted w → heap w !! a = Some sd → s ≠ Pending →
  pendingRequests sd !! requestId = Some p ∨
  (∃ cb, cb ∈ callbacks w ∧ captured cb = (a, requestId, p)) →
  accounted
    (settle_world p s
       (with_heap
          (fun h => <[a := with_pendingRequests
                             (delete requestId (pendingRequests sd)) sd]> h)
          w)).
Proof.
  intros [H1 H2] Ha Hs Hwhy. set (w1 := with_heap _ w).
  assert (∀ q, entry w a requestId q → q = p) as Hthis.
  { intros q He. destruct Hwhy as [Hp|(cb & Hin & Hcap)]; [|by eauto].
    destruct He as (sd1 & Ha1 & Hq). rewrite Ha in Ha1.
    injection Ha1 as <-. congruence. }
  assert (∀ a' rid q, entry w1 a' rid q ↔
            entry w a' rid q ∧ (a', rid) ≠ (a, requestId)) as Hentry.
  { intros a' rid q. subst w1.
    rewrite (entry_insert w a a' sd _ rid q Ha).
    cbn [pendingRequests with_pendingRequests].
    rewrite lookup_delete_Some. split.
    - intros [[-> [Hne Hq]]|[Hne He]].
      + split; [by exists sd | congruence].
      + split; [done | congruence].
    - intros [He Hne]. destruct (decide (a' = a)) as [->|Hna]; [left|by right].
      destruct He as (sd1 & Ha1 & Hq). rewrite Ha in Ha1.
      injection Ha1 as <-. split_and!; [done| |done]. congruence. }
  split.
  - intros q Hq.
    assert (q ≠ p) as Hqp by (intros ->; by eapply settle_world_not_pending).
    rewrite settle_world_other in Hq by done.
    destruct (H1 q Hq) as (a' & rid & He). exists a', rid.
    apply (entry_heap w1); [done|]. apply Hentry. split; [done|].
    intros [= -> ->]. by apply Hqp, Hthis.
  - intros cb a' rid p' q Hin Hcap He.
    apply (entry_heap w1) in He; [|done]. apply Hentry in He as [He _].
    eauto.
Qed.

Lemma accounted_sent (w : World) (a : nat) (sd : ServerData) (msg : list Z) :
  accounted w → well_formed w → heap w !! a = Some sd →
  accounted (sent_world a sd (requestIdCounter sd + 1) msg w).
Proof.
  intros [H1 H2] (_ & Hp & Hc) Ha. unfold sent_world.
  set (rid := requestIdCounter sd + 1).
  set (p := length (promises w)).
  set (w1 := with_promises _ w).
  assert (heap w1 !! a = Some sd) as Ha1 by done.
  assert (∀ a' rid' q,
            entry
              (with_callbacks
                 (fun l => l ++ [WriteCallback a rid p;
                                 TimeoutCallback a rid p 30000])
                 (with_heap (fun h => <[a := sent_data sd rid p msg]> h) w1))
              a' rid' q ↔
            (a' = a ∧ rid' = rid ∧ q = p) ∨
            (entry w a' rid' q ∧ (a', rid') ≠ (a, rid))) as Hentry.
  { intros a' rid' q.
    rewrite (entry_heap
               (with_heap (fun h => <[a := sent_data sd rid p msg]> h) w1))
      by done.
    rewrite (entry_insert w1 a a' sd _ rid' q Ha1).
    cbn [pendingRequests sent_data]. rewrite lookup_insert_Some. split.
    - intros [[-> [[<- <-]|[Hne Hq]]]|[Hne He]].
      + by left.
      + right. split; [by exists sd | congruence].
      + right. split; [done | congruence].
    - intros [(-> & -> & ->)|[He Hne]]; [left; split; [done|by left]|].
      destruct (decide (a' = a)) as [->|Hna]; [left|by right].
      destruct He as (sd1 & Ha2 & Hq). rewrite Ha in Ha2.
      injection Ha2 as <-. split; [done|]. right. split; [congruence|done]. }
  assert (∀ a' rid', given_out w a' rid' → (a', rid') ≠ (a, rid)) as Hold.
  { intros a' rid' (sd1 & Ha2 & Hle) [= -> ->]. rewrite Ha in Ha2.
    injection Ha2 as <-. subst rid. lia. }
  split.
  - intros q Hq.
    cbn [promises with_heap with_callbacks with_promises w1] in Hq.
    destruct (decide (q = p)) as [->|Hne].
    + exists a, rid. apply Hentry. by left.
    + rewrite lookup_app_l in Hq.
      2: { apply lookup_lt_Some in Hq. rewrite length_app in Hq.
           simpl in Hq. subst p. lia. }
      destruct (H1 q Hq) as (a' & rid' & He). exists a', rid'.
      apply Hentry. right. split; [done|].
      apply Hold. by destruct (Hp a' rid' q He).
  - intros cb a' rid' p' q Hin Hcap He.
    cbn [callbacks with_callbacks with_heap with_promises w1] in Hin.
    apply Hentry in He as [(-> & -> & ->)|[He Hne]].
    + apply elem_of_app in Hin as [Hin|Hin].
      * destruct (Hc cb a rid p' Hin Hcap) as (_ & Hout & _).
        by destruct (Hold a rid Hout).
      * apply elem_of_cons in Hin as [->|Hin]; [by injection Hcap|].
        apply list_elem_of_singleton in Hin as ->. by injection Hcap.
    + apply elem_of_app in Hin as [Hin|Hin]; [by eauto|].
      assert ((a', rid') = (a, rid)); [|done].
      apply elem_of_cons in Hin as [->|Hin]; [by injection Hcap as <- <- _|].
      apply list_elem_of_singleton in Hin as ->.
      by injection Hcap as <- <- _.
Qed.

Lemma accounted_started (w : World) (language : list Z) :
  accounted w → accounted (started_world language w).
Proof.
  intros [H1 H2].
  assert (∀ a rid p, entry (started_world language w) a rid p
                     ↔ entry w a rid p) as Hentry.
  { intros a rid p. unfold entry, started_world.
    cbn [heap with_lspServers with_heap with_lspServerIdCounter]. split.
    - intros (sd & Ha & Hq).
      apply lookup_app_Some in Ha as [Ha|[_ Ha]]; [by exists sd|].
      apply list_lookup_singleton_Some in Ha as [_ <-]. done.
    - intros (sd & Ha & Hq). exists sd. split; [|done].
      rewrite lookup_app_l; [done | by eapply lookup_lt_Some]. }
  split.
  - intros p Hp. destruct (H1 p Hp) as (a & rid & He).
    exists a, rid. by apply Hentry.
  - intros cb a rid p q Hin Hcap He%Hentry. eauto.
Qed.

Lemma reachable_accounted (w : World) :
  reachable JSON_parse JSON_stringify w → accounted w.
Proof.
  apply (reachable_rule JSON_parse JSON_stringify accounted).
  - intros w0 w' H _ Hh Hp Hc _. by apply (accounted_same w0).
  - intros w0 a sd sd' H _ Ha Hpend _. by apply (accounted_update w0 a sd).
  - intros w0 a sd rid p s H _ Ha Hs Hwhy. by apply accounted_settle.
  - intros w0 sid a sd msg H Hwf _ Ha. by apply accounted_sent.
  - intros w0 language H _. by apply accounted_started.
  - intros w0 sid H. exact H.
  - split; [done|]. intros cb a rid p q Hin. by apply elem_of_nil in Hin.
Qed.

End Reach.

End AccountingFacts.

(** ** More on the handlers of the main process *)

Module LspExtras.
Import JSON Main Wire Invariants Events Accounting Examples LspExamples.
Import StringFacts FramerFacts RunFacts DecodeFacts RoundTripFacts.
Import InvariantFacts RuleFacts AccountingFacts.

(** X1: in every reachable state, a response that carries the id of a
    pending request and an error (any value that is not falsy) rejects
    the promise of the request with an Error made of the message of
    that error, by one call of reject, whatever result the response
    has; the request leaves the pending-request map and no other
    promise changes. *)
Theorem error_response_rejects_request
    (JSON_parse : list Z → option Json) (JSON_stringify : Json → list Z)
    (serverId : list Z) (a : nat) (w : World) (sd : ServerData)
    (requestId : Z) (p : nat) (m : Json) (error : option Json) :
  reachable JSON_parse JSON_stringify w →
  lspServers w !! serverId = Some a → heap w !! a = Some sd →
  pendingRequests sd !! requestId = Some p →
  has_id m requestId →
  get_property (Some m) (js "error") = Some error → truthy error = true →
  let reason :=
    ResponseError (default None (get_property error (js "message"))) in
  ∃ w' sd',
    handleLSPMessage serverId m w = Normal tt w' ∧
    promises w' !! p = Some (Rejected reason) ∧
    settled w' = settled w ++ [(p, Rejected reason)] ∧
    (∀ q, q ≠ p → promises w' !! q = promises w !! q) ∧
    heap w' !! a = Some sd' ∧
    pendingRequests sd' = delete requestId (pendingRequests sd).
Proof.
  intros (_ & Hpending & _)%reachable_well_formed Hs Ha Hpend Hid Herr
    Htruthy.
  destruct (Hpending a requestId p) as (_ & Hp & _); [by exists sd|].
  by apply handleLSPMessage_error_response.
Qed.

Lemma error_response_rejects_request_witness :
  ∃ w' sd',
    handleLSPMessage rust_server error_response_1 requested = Normal tt w' ∧
    promises w' !! 0%nat
    = Some (Rejected (ResponseError (Some (JStr (js "Method not found"))))) ∧
    settled w'
    = settled requested
      ++ [(0%nat,
           Rejected (ResponseError (Some (JStr (js "Method not found")))))] ∧
    (∀ q, q ≠ 0%nat → promises w' !! q = promises requested !! q) ∧
    heap w' !! 0%nat = Some sd' ∧
    pendingRequests sd' = delete 1 (<[1 := 0%nat]> ∅).
Proof.
  apply (error_response_rejects_request parse stringify rust_server 0
           requested
           (sent_data (new_server (js "rust")) 1 0
              (frame (stringify
                        (request_object 1 (js "textDocument/hover")
                           (Some hover_params)))))
           1 0 error_response_1 (Some method_not_found)).
  - apply requested_reachable.
  - reflexivity.
  - reflexivity.
  - reflexivity.
  - eexists. split; reflexivity.
  - reflexivity.
  - reflexivity.
Defined.

(** X2: a message of a registered server whose id is undefined or not
    the id of a pending request settles no promise and changes no
    server object.  If its method is textDocument/publishDiagnostics
    and the main window exists, its params are sent to the renderer
    once, with the id of the server; with any other method, or without
    the window, nothing is sent. *)
Theorem diagnostics_forwarded_to_renderer
    (serverId : list Z) (a : nat) (w : World) (sd : ServerData) (m : Json)
    (id method params : option Json) :
  lspServers w !! serverId = Some a → heap w !! a = Some sd →
  get_property (Some m) (js "id") = Some id →
  Map_get (pendingRequests sd) id = None →
  get_property (Some m) (js "method") = Some method →
  get_property (Some m) (js "params") = Some params →
  ∃ w',
    handleLSPMessage serverId m w = Normal tt w' ∧
    ipc w' = ipc w
             ++ (if strict_equals_string method
                      (js "textDocument/publishDiagnostics")
                    && mainWindow w
                 then [(serverId, params)] else []) ∧
    heap w' = heap w ∧ promises w' = promises w ∧ settled w' = settled w ∧
    callbacks w' = callbacks w ∧ lspServers w' = lspServers w.
Proof.
  intros Hs Ha Hid Hget Hmethod Hparams.
  unfold handleLSPMessage, bind at 1, modify, bind at 1, gets.
  cbn [lspServers with_handled]. rewrite Hs.
  set (w0 := with_handled _ w).
  rewrite (bind_Normal _ _ _ _ _
             (handle_response_unknown a m w0 sd id Ha Hid Hget)).
  unfold handle_notification.
  rewrite (bind_Normal _ _ _ _ _ (run_property _ _ _ _ Hmethod)).
  destruct (strict_equals_string method _) eqn:Heq.
  - assert (truthy method = true) as ->.
    { destruct method as [[]|]; try done. cbn in Heq.
      apply bool_decide_eq_true in Heq. by subst. }
    unfold bind at 1, gets. cbn [mainWindow with_handled w0 andb].
    destruct (mainWindow w).
    + rewrite (bind_Normal _ _ _ _ _ (run_property _ _ _ _ Hparams)).
      by eexists.
    + exists w0. rewrite app_nil_r. by split_and!.
  - cbn [andb]. exists w0. rewrite app_nil_r.
    split_and!; [by destruct (truthy method) | done..].
Qed.

Lemma diagnostics_forwarded_to_renderer_witness :
  ∃ w',
    handleLSPMessage rust_server diagnostics started = Normal tt w' ∧
    ipc w'
    = [(rust_server,
        Some (JObj [(js "uri", JStr (js "file:///a.rs"));
                    (js "diagnostics", JArr [])]))] ∧
    heap w' = heap started ∧ promises w' = promises started ∧
    settled w' = settled started ∧ callbacks w' = callbacks started ∧
    lspServers w' = lspServers started.
Proof.
  apply (diagnostics_forwarded_to_renderer rust_server 0 started
           (new_server (js "rust")) diagnostics None
           (Some (JStr (js "textDocument/publishDiagnostics")))
           (Some (JObj [(js "uri", JStr (js "file:///a.rs"));
                        (js "diagnostics", JArr [])])));
    reflexivity.
Defined.

(** X3: once a server has been stopped, or its process has exited, a
    request and a notification for its id throw the not-found error
    and leave the state as it is (nothing is written, no id is taken,
    no promise is made), and stopping it again does nothing. *)
Theorem removed_server_is_not_found
    (JSON_stringify : Json → list Z) (serverId : list Z) (a : nat)
    (w : World) (sd : ServerData) (method : list Z) (params : option Json) :
  lspServers w !! serverId = Some a → heap w !! a = Some sd →
  ∃ w_stop w_exit,
    stop_lsp_server serverId w = Normal tt w_stop ∧
    on_exit serverId w = Normal tt w_exit ∧
    ∀ w', w' = w_stop ∨ w' = w_exit →
      send_lsp_request JSON_stringify serverId method params w'
      = Throw (ServerNotFound serverId) w' ∧
      send_lsp_notification JSON_stringify serverId method params w'
      = Throw (ServerNotFound serverId) w' ∧
      stop_lsp_server serverId w' = Normal tt w'.
Proof.
  intros Hs Ha. rewrite (stop_lsp_server_registered serverId a w sd Hs Ha).
  eexists _, _. split_and!; [reflexivity..|].
  intros w' Hw'.
  assert (lspServers w' !! serverId = None) as Hnone.
  { destruct Hw' as [-> | ->]; apply lookup_delete_eq. }
  unfold send_lsp_request, send_lsp_notification, stop_lsp_server, bind, gets.
  by rewrite Hnone.
Qed.

Lemma removed_server_is_not_found_witness :
  ∃ w_stop w_exit,
    stop_lsp_server rust_server requested = Normal tt w_stop ∧
    on_exit rust_server requested = Normal tt w_exit ∧
    ∀ w', w' = w_stop ∨ w' = w_exit →
      send_lsp_request stringify rust_server (js "textDocument/hover")
        (Some hover_params) w'
      = Throw (ServerNotFound rust_server) w' ∧
      send_lsp_notification stringify rust_server (js "textDocument/hover")
        (Some hover_params) w'
      = Throw (ServerNotFound rust_server) w' ∧
      stop_lsp_server rust_server w' = Normal tt w'.
Proof.
  apply (removed_server_is_not_found stringify rust_server 0 requested
           (sent_data (new_server (js "rust")) 1 0
              (frame (stringify
                        (request_object 1 (js "textDocument/hover")
                           (Some hover_params)))))
           (js "textDocument/hover") (Some hover_params));
    reflexivity.
Defined.

(** X4: what the two senders write to the stdin of a registered server
    is one framed message each, as a server reads it, counting bytes:
    the header announces the number of UTF-8 bytes of the JSON text,
    also when the text has characters of several bytes.  The
    notification makes no promise, no pending request and no closure. *)
Theorem senders_write_byte_framed_messages
    (JSON_stringify : Json → list Z) (serverId : list Z) (a : nat)
    (w : World) (sd : ServerData) (method : list Z) (params : option Json) :
  lspServers w !! serverId = Some a → heap w !! a = Some sd →
  (∃ p w' sd' message,
     send_lsp_request JSON_stringify serverId method params w = Normal p w' ∧
     heap w' !! a = Some sd' ∧
     stdin (process sd') = stdin (process sd) ++ [message] ∧
     byte_framed message
       (JSON_stringify
          (request_object (requestIdCounter sd + 1) method params))) ∧
  (∃ w' sd' message,
     send_lsp_notification JSON_stringify serverId method params w
     = Normal tt w' ∧
     heap w' !! a = Some sd' ∧
     stdin (process sd') = stdin (process sd) ++ [message] ∧
     byte_framed message
       (JSON_stringify (notification_object method params)) ∧
     pendingRequests sd' = pendingRequests sd ∧
     requestIdCounter sd' = requestIdCounter sd ∧
     promises w' = promises w ∧ callbacks w' = callbacks w ∧
     settled w' = settled w ∧ lspServers w' = lspServers w).
Proof.
  intros Hs Ha. split.
  - rewrite (send_lsp_request_effect JSON_stringify serverId method params
               w a sd Hs Ha).
    eexists _, _, _, _. split_and!; [reflexivity | | |].
    + by apply sent_world_lookup.
    + reflexivity.
    + apply frame_byte_framed.
  - unfold send_lsp_notification, bind, gets. rewrite Hs.
    unfold stdin_write. rewrite (run_update _ _ _ _ Ha).
    eexists _, _, _. split; [reflexivity|].
    split.
    { cbn [heap with_heap]. apply list_lookup_insert_eq.
      by eapply lookup_lt_Some. }
    split; [reflexivity|]. split; [apply frame_byte_framed|].
    by split_and!.
Qed.

Lemma senders_write_byte_framed_messages_witness :
  (∃ p w' sd' message,
     send_lsp_request stringify rust_server (js "textDocument/hover")
       (Some accent_message) started = Normal p w' ∧
     heap w' !! 0%nat = Some sd' ∧
     stdin (process sd') = [] ++ [message] ∧
     byte_framed message
       (stringify
          (request_object (0 + 1) (js "textDocument/hover")
             (Some accent_message)))) ∧
  (∃ w' sd' message,
     send_lsp_notification stringify rust_server (js "textDocument/hover")
       (Some accent_message) started = Normal tt w' ∧
     heap w' !! 0%nat = Some sd' ∧
     stdin (process sd') = [] ++ [message] ∧
     byte_framed message
       (stringify (notification_object (js "textDocument/hover")
                     (Some accent_message))) ∧
     pendingRequests sd' = ∅ ∧ requestIdCounter sd' = 0 ∧
     promises w' = promises started ∧ callbacks w' = callbacks started ∧
     settled w' = settled started ∧ lspServers w' = lspServers started).
Proof.
  apply (senders_write_byte_framed_messages stringify rust_server 0 started
           (new_server (js "rust")));
    reflexivity.
Defined.

(** X5: in every reachable state, a request to a registered server
    takes an id under which no request is pending and a promise that
    did not exist: it replaces no pending request.  The requests that
    were pending have smaller ids and other promises, and stay pending
    as they were. *)
Theorem request_takes_a_fresh_id
    (JSON_parse : list Z → option Json) (JSON_stringify : Json → list Z)
    (serverId : list Z) (a : nat) (w : World) (sd : ServerData)
    (method : list Z) (params : option Json) :
  reachable JSON_parse JSON_stringify w →
  lspServers w !! serverId = Some a → heap w !! a = Some sd →
  let requestId := requestIdCounter sd + 1 in
  ∃ p w' sd',
    send_lsp_request JSON_stringify serverId method params w = Normal p w' ∧
    heap w' !! a = Some sd' ∧
    pendingRequests sd !! requestId = None ∧
    promises w !! p = None ∧
    pendingRequests sd' = <[requestId := p]> (pendingRequests sd) ∧
    promises w' !! p = Some Pending ∧
    ∀ requestId' q,
      pendingRequests sd !! requestId' = Some q →
      requestId' < requestId ∧ q ≠ p ∧
      pendingRequests sd' !! requestId' = Some q ∧
      promises w' !! q = Some Pending.
Proof.
  intros (_ & Hpending & _)%reachable_well_formed Hs Ha requestId.
  rewrite (send_lsp_request_effect JSON_stringify serverId method params
             w a sd Hs Ha).
  fold requestId. set (msg := frame _).
  assert (∀ rid q, pendingRequests sd !! rid = Some q →
                   rid < requestId ∧ promises w !! q = Some Pending) as Hold.
  { intros rid q Hq.
    destruct (Hpending a rid q) as ((sd1 & Ha1 & Hle) & Hp & _);
      [by exists sd|].
    rewrite Ha in Ha1. injection Ha1 as <-. subst requestId. split; [lia|done]. }
  eexists _, _, _. split_and!; [reflexivity | by apply sent_world_lookup | ..].
  - destruct (pendingRequests sd !! requestId) as [q|] eqn:Hq; [|done].
    destruct (Hold _ _ Hq). lia.
  - by apply lookup_ge_None_2.
  - reflexivity.
  - unfold sent_world. cbn [promises with_promises with_heap with_callbacks].
    by apply list_lookup_middle.
  - intros rid q Hq. destruct (Hold _ _ Hq) as [Hlt Hp].
    pose proof (lookup_lt_Some _ _ _ Hp) as Hlen.
    split_and!; [done | lia | |].
    + cbn [pendingRequests sent_data]. rewrite lookup_insert_ne; [done|lia].
    + unfold sent_world.
      cbn [promises with_promises with_heap with_callbacks].
      by rewrite lookup_app_l.
Qed.

Lemma request_takes_a_fresh_id_witness :
  ∃ p w' sd',
    send_lsp_request stringify rust_server (js "textDocument/definition")
      (Some hover_params) requested = Normal p w' ∧
    heap w' !! 0%nat = Some sd' ∧
    (<[1 := 0%nat]> ∅ : gmap Z nat) !! (1 + 1) = None ∧
    promises requested !! p = None ∧
    pendingRequests sd' = <[1 + 1 := p]> (<[1 := 0%nat]> ∅) ∧
    promises w' !! p = Some Pending ∧
    ∀ requestId' q,
      (<[1 := 0%nat]> ∅ : gmap Z nat) !! requestId' = Some q →
      requestId' < 1 + 1 ∧ q ≠ p ∧
      pendingRequests sd' !! requestId' = Some q ∧
      promises w' !! q = Some Pending.
Proof.
  apply (request_takes_a_fresh_id parse stringify rust_server 0 requested
           (sent_data (new_server (js "rust")) 1 0
              (frame (stringify
                        (request_object 1 (js "textDocument/hover")
                           (Some hover_params)))))
           (js "textDocument/definition") (Some hover_params));
    [apply requested_reachable | reflexivity..].
Defined.

(** X6: in every reachable state, a server that is started gets an id
    that is not in the registry, and a server object of its own: it
    replaces no registered server, and the servers that were
    registered stay registered with their objects. *)
Theorem started_server_gets_a_fresh_id
    (JSON_parse : list Z → option Json) (JSON_stringify : Json → list Z)
    (language : list Z) (w : World) :
  reachable JSON_parse JSON_stringify w →
  ∃ serverId w',
    start_lsp_server language Spawned w = Normal (Some serverId) w' ∧
    lspServers w !! serverId = None ∧
    lspServers w' !! serverId = Some (length (heap w)) ∧
    heap w' = heap w ++ [new_server language] ∧
    ∀ serverId' a', lspServers w !! serverId' = Some a' →
                    serverId' ≠ serverId ∧ (a' < length (heap w))%nat ∧
                    lspServers w' !! serverId' = Some a'.
Proof.
  intros Hreach.
  pose proof (reachable_server_ids_ok _ _ _ Hreach) as [Hpos Hids].
  pose proof (reachable_well_formed _ _ _ Hreach) as (Hreg & _).
  rewrite start_lsp_server_started.
  set (sid := js "lsp-" ++ language ++ js "-" ++ _).
  assert (∀ sid' a', lspServers w !! sid' = Some a' → sid' ≠ sid) as Hfresh.
  { intros sid' a' Hs ->. specialize (Hids _ _ Hs). cbv beta in Hids.
    subst sid. rewrite trailing_number_server_id in Hids; lia. }
  exists sid, (started_world language w).
  split_and!; [done | | | done |].
  - destruct (lspServers w !! sid) as [a'|] eqn:Hs; [|done].
    by destruct (Hfresh _ _ Hs).
  - unfold started_world. cbn [lspServers with_lspServers with_heap
      with_lspServerIdCounter]. apply lookup_insert_eq.
  - intros sid' a' Hs. split_and!; [by eapply Hfresh | by eapply Hreg |].
    unfold started_world. cbn [lspServers with_lspServers with_heap
      with_lspServerIdCounter].
    rewrite lookup_insert_ne; [done|]. intros Heq. by eapply Hfresh.
Qed.

Lemma started_server_gets_a_fresh_id_witness :
  ∃ serverId w',
    start_lsp_server (js "rust") Spawned requested
    = Normal (Some serverId) w' ∧
    lspServers requested !! serverId = None ∧
    lspServers w' !! serverId = Some (length (heap requested)) ∧
    heap w' = heap requested ++ [new_server (js "rust")] ∧
    ∀ serverId' a', lspServers requested !! serverId' = Some a' →
                    serverId' ≠ serverId ∧
                    (a' < length (heap requested))%nat ∧
                    lspServers w' !! serverId' = Some a'.
Proof.
  apply (started_server_gets_a_fresh_id parse stringify (js "rust") requested).
  apply requested_reachable.
Defined.

(** X7: in every reachable state, every promise that is still pending
    is the promise of a request in the pending-request map of a server
    object, and the timer of that request is among the closures: when
    it fires, the promise is rejected with the timeout error.  No
    promise is left without a request and a timer. *)
Theorem pending_promise_has_request_and_timer
    (JSON_parse : list Z → option Json) (JSON_stringify : Json → list Z)
    (w : World) (p : nat) :
  reachable JSON_parse JSON_stringify w →
  promises w !! p = Some Pending →
  ∃ a sd requestId w',
    heap w !! a = Some sd ∧
    pendingRequests sd !! requestId = Some p ∧
    TimeoutCallback a requestId p 30000 ∈ callbacks w ∧
    run_callback (TimeoutCallback a requestId p 30000) None w
    = Normal tt w' ∧
    promises w' !! p = Some (Rejected RequestTimeout).
Proof.
  intros Hreach Hp.
  pose proof (reachable_accounted _ _ _ Hreach) as [Hacc _].
  pose proof (reachable_well_formed _ _ _ Hreach) as (_ & Hpending & _).
  destruct (Hacc p Hp) as (a & rid & He).
  destruct (Hpending a rid p He) as (_ & _ & Htimer).
  destruct He as (sd & Ha & Hq).
  exists a, sd, rid. eexists. split_and!; [done..| |].
  - cbn [run_callback]. by apply (timeout_callback_pending a rid p p w sd).
  - by apply settle_world_pending.
Qed.

Lemma pending_promise_has_request_and_timer_witness :
  ∃ a sd requestId w',
    heap requested !! a = Some sd ∧
    pendingRequests sd !! requestId = Some 0%nat ∧
    TimeoutCallback a requestId 0 30000 ∈ callbacks requested ∧
    run_callback (TimeoutCallback a requestId 0 30000) None requested
    = Normal tt w' ∧
    promises w' !! 0%nat = Some (Rejected RequestTimeout).
Proof.
  apply (pending_promise_has_request_and_timer parse stringify requested 0).
  - apply requested_reachable.
  - reflexivity.
Defined.

(** X8: data that comes from the process of a server that is no longer
    in the registry is still decoded, and ends normally, but its
    messages have no effect: no promise is settled, no pending request
    is removed, and nothing is sent to the renderer. *)
Theorem output_of_removed_server_is_dropped
    (JSON_parse : list Z → option Json) (serverId : list Z) (a : nat)
    (data : list Z) (w : World) :
  registry_ok w → lspServers w !! serverId = None →
  is_Some (heap w !! a) →
  ∃ w',
    on_stdout_data JSON_parse serverId a data w = Normal tt w' ∧
    promises w' = promises w ∧ settled w' = settled w ∧ ipc w' = ipc w ∧
    callbacks w' = callbacks w ∧ lspServers w' = lspServers w ∧
    ∀ a', pending_at w' a' = pending_at w a'.
Proof.
  intros Hok Hnone Ha.
  apply (on_stdout_data_invariant JSON_parse
           (fun w' => promises w' = promises w ∧ settled w' = settled w ∧
                      ipc w' = ipc w ∧ callbacks w' = callbacks w ∧
                      lspServers w' = lspServers w ∧
                      ∀ a', pending_at w' a' = pending_at w a'));
    [| |done| by split_and! |done].
  - intros w0 a0 sd b (H1 & H2 & H3 & H4 & H5 & H6) Ha0.
    split_and!; [done..|]. intros a'. rewrite <- H6.
    unfold pending_at. cbn [heap with_heap].
    destruct (decide (a' = a0)) as [->|Hne].
    + rewrite list_lookup_insert_eq by (by eapply lookup_lt_Some).
      by rewrite Ha0.
    + by rewrite list_lookup_insert_ne.
  - intros w0 content w' (H1 & H2 & H3 & H4 & H5 & H6) _.
    unfold parse_and_handle, try_catch.
    destruct (JSON_parse content) as [m|].
    + rewrite handleLSPMessage_unregistered by (by rewrite H5).
      intros [= <-]. by split_and!.
    + intros [= <-]. by split_and!.
Qed.

Lemma output_of_removed_server_is_dropped_witness :
  ∃ w',
    on_stdout_data parse rust_server 0
      (Utf8.encode (frame response_1_text)) exited = Normal tt w' ∧
    promises w' = promises exited ∧ settled w' = settled exited ∧
    ipc w' = ipc exited ∧ callbacks w' = callbacks exited ∧
    lspServers w' = lspServers exited ∧
    ∀ a', pending_at w' a' = pending_at exited a'.
Proof.
  apply (output_of_removed_server_is_dropped parse rust_server 0
           (Utf8.encode (frame response_1_text)) exited).
  - apply (bool_decide_unpack _). by vm_compute.
  - reflexivity.
  - by eexists.
Defined.

End LspExtras.

(** ** The asynchronous functions of the renderer *)

Module ClientFacts.
Import JSON JSText Renderer Client.






(** A request whose result is returned, and whose failure is logged
    and gives null. *)
Lemma run_request (env : Env) (serverId method : list Z) (params : Json)
    (text : list Z) (t : Trace) :
  let call := SendLSPRequest serverId method params in
  run env
    (Await call
       (fun r =>
          match r with
          | Resolved result => Ret result
          | Rejected e =>
              Console (ConsoleError text (Some e)) (Ret (Some JNull))
          end)) t
  = (Done match env (calls t) call with
          | Resolved result => result
          | Rejected _ => Some JNull
          end,
     {| vars := vars t; calls := calls t ++ [call];
        logs := logs t ++ match env (calls t) call with
                          | Resolved _ => []
                          | Rejected e => [ConsoleError text (Some e)]
                          end |}).
Proof.
  cbn zeta. cbn [run].
  destruct (env (calls t) (SendLSPRequest serverId method params));
    cbn [run vars calls logs]; by rewrite ?app_nil_r.
Qed.



End ClientFacts.

Module ClientExtras.
Import JSON JSText Main Invariants Events Accounting Renderer Client.
Import RunFacts InvariantFacts AccountingFacts ClientFacts.
Import Examples RendererExamples ClientExamples.

(** X9: the five feature requests never throw and never change the
    variables of the module.  Without a server for the file they
    return null and call nothing.  With one, they send one request to
    that server, for the document with the uri of the file, and return
    its result, or null when the request is rejected. *)
Theorem feature_requests_answer_or_null (env : Env) (t : Trace)
    (filePath : list Z) (position : option Json) (f : Proc (option Json))
    (method : list Z) :
  (f, method) ∈ [(getCompletions filePath position,
                  js "textDocument/completion");
                 (getHover filePath position, js "textDocument/hover");
                 (getDefinition filePath position,
                  js "textDocument/definition");
                 (getReferences filePath position,
                  js "textDocument/references");
                 (formatDocument filePath, js "textDocument/formatting")] →
  match getServerForFile (session (vars t)) filePath with
  | None => run env f t = (Done (Some JNull), t)
  | Some server =>
      ∃ params t',
        let call := SendLSPRequest (server_id server) method params in
        run env f t
        = (Done match env (calls t) call with
                | Resolved result => result
                | Rejected _ => Some JNull
                end, t') ∧
        get_property
          (default None (get_property (Some params) (js "textDocument")))
          (js "uri")
        = Some (Some (uri_of filePath)) ∧
        vars t' = vars t ∧ calls t' = calls t ++ [call]
  end.
Proof.
  intros Hin.
  repeat (apply elem_of_cons in Hin as [[= -> ->]|Hin]);
    [..|by apply elem_of_nil in Hin];
    unfold getCompletions, getHover, getDefinition, getReferences,
      formatDocument; cbn [run];
    (destruct (getServerForFile (session (vars t)) filePath) as [server|];
     [|done]);
    eexists _, _; (split; [apply run_request|]);
    (split; [by destruct position | done]).
Qed.

Lemma feature_requests_answer_or_null_witness :
  ∃ params t',
    let call :=
      SendLSPRequest (js "lsp-rust-1") (js "textDocument/hover") params in
    run (fun _ _ => Rejected (Remote RequestTimeout))
        (getHover main_rs (Some origin)) ready_trace
    = (Done (Some JNull), t') ∧
    get_property
      (default None (get_property (Some params) (js "textDocument")))
      (js "uri")
    = Some (Some (uri_of main_rs)) ∧
    vars t' = vars ready_trace ∧ calls t' = calls ready_trace ++ [call].
Proof.
  apply (feature_requests_answer_or_null
           (fun _ _ => Rejected (Remote RequestTimeout)) ready_trace main_rs
           (Some origin) (getHover main_rs (Some origin))
           (js "textDocument/hover")).
  apply elem_of_cons. right. by left.
Defined.

(** X10: a hover request from the renderer to the main process, in
    every reachable state of the main process where the server of the
    file is registered.  The request of the renderer becomes a pending
    request of the main process.  When its timer fires, or a response
    with an error comes, the promise is rejected and getHover returns
    null; when a response without error comes, getHover returns the
    result of the response. *)
Theorem hover_returns_answer_or_null
    (JSON_parse : list Z → option Json) (JSON_stringify : Json → list Z)
    (w : World) (a : nat) (sd : ServerData) (t : Trace)
    (filePath : list Z) (position : option Json) (server : Server) :
  reachable JSON_parse JSON_stringify w →
  getServerForFile (session (vars t)) filePath = Some server →
  lspServers w !! server_id server = Some a → heap w !! a = Some sd →
  ∃ params p w1,
    let serverId := server_id server in
    let requestId := requestIdCounter sd + 1 in
    let call := SendLSPRequest serverId (js "textDocument/hover") params in
    send_lsp_request JSON_stringify serverId (js "textDocument/hover")
      (Some params) w = Normal p w1 ∧
    (∃ w2,
       run_callback (TimeoutCallback a requestId p 30000) None w1
       = Normal tt w2 ∧
       ∀ env : Env, delivered (promises w2 !! p) = Some (env (calls t) call) →
              (run env (getHover filePath position) t).1 = Done (Some JNull)) ∧
    (∀ m error,
       has_id m requestId →
       get_property (Some m) (js "error") = Some error →
       truthy error = true →
       ∃ w2,
         handleLSPMessage serverId m w1 = Normal tt w2 ∧
         ∀ env : Env, delivered (promises w2 !! p) = Some (env (calls t) call) →
                (run env (getHover filePath position) t).1
                = Done (Some JNull)) ∧
    (∀ m result,
       response_to m requestId result →
       ∃ w2,
         handleLSPMessage serverId m w1 = Normal tt w2 ∧
         ∀ env : Env, delivered (promises w2 !! p) = Some (env (calls t) call) →
                (run env (getHover filePath position) t).1 = Done result).
Proof.
  intros Hreach Hserver Hs Ha.
  destruct (send_lsp_request_pending JSON_stringify (server_id server)
              (js "textDocument/hover")
              (Some (JObj (textDocument_of filePath
                           :: optional_property (js "position") position)))
              w a sd Hs Ha)
    as (w1 & sd1 & Hsend & Hs1 & Ha1 & Hpend1 & Hp1).
  eexists _, _, w1. cbn zeta.
  split; [exact Hsend|].
  assert (∀ (env : Env) o,
            delivered o
            = Some (env (calls t)
                      (SendLSPRequest (server_id server)
                         (js "textDocument/hover")
                         (JObj (textDocument_of filePath
                                :: optional_property (js "position")
                                     position)))) →
            (run env (getHover filePath position) t).1
            = Done match o with
                   | Some (Fulfilled v) => v
                   | _ => Some JNull
                   end) as Hrun.
  { intros env o Ho. unfold getHover. cbn [run]. rewrite Hserver.
    etrans; [apply (f_equal fst), run_request|]. cbn [fst]. cbn zeta.
    destruct o as [[]|]; cbn [delivered] in Ho; try done;
      injection Ho as <-; done. }
  split_and!.
  - eexists. split.
    + cbn [run_callback].
      apply (timeout_callback_pending a _ _ _ w1 sd1 Ha1 Hpend1).
    + intros env Ho. rewrite (Hrun env _ Ho).
      by rewrite settle_world_pending.
  - intros m error Hid Herr Htruthy.
    destruct (handleLSPMessage_error_response (server_id server) a w1 sd1
                _ _ m error Hs1 Ha1 Hpend1 Hp1 Hid Herr Htruthy)
      as (w2 & sd2 & Hm & Hp2 & _).
    exists w2. split; [done|]. intros env Ho.
    rewrite (Hrun env _ Ho). by rewrite Hp2.
  - intros m result Hresp.
    destruct (handleLSPMessage_response (server_id server) m w1 a sd1
                _ _ result Hs1 Ha1 Hpend1 Hresp)
      as (w2 & Hm & _ & _ & Hp2 & _).
    exists w2. split; [done|]. intros env Ho.
    rewrite (Hrun env _ Ho). rewrite Hp2.
    by rewrite settle_world_pending.
Qed.

Lemma hover_returns_answer_or_null_witness :
  ∃ params p w1,
    let call :=
      SendLSPRequest (js "lsp-rust-1") (js "textDocument/hover") params in
    send_lsp_request stringify (js "lsp-rust-1") (js "textDocument/hover")
      (Some params) started = Normal p w1 ∧
    (∃ w2,
       run_callback (TimeoutCallback 0 (0 + 1) p 30000) None w1
       = Normal tt w2 ∧
       ∀ env : Env, delivered (promises w2 !! p)
              = Some (env (calls ready_trace) call) →
              (run env (getHover main_rs (Some origin)) ready_trace).1
              = Done (Some JNull)) ∧
    (∀ m error,
       has_id m (0 + 1) →
       get_property (Some m) (js "error") = Some error →
       truthy error = true →
       ∃ w2,
         handleLSPMessage (js "lsp-rust-1") m w1 = Normal tt w2 ∧
         ∀ env : Env, delivered (promises w2 !! p)
                = Some (env (calls ready_trace) call) →
                (run env (getHover main_rs (Some origin)) ready_trace).1
                = Done (Some JNull)) ∧
    (∀ m result,
       response_to m (0 + 1) result →
       ∃ w2,
         handleLSPMessage (js "lsp-rust-1") m w1 = Normal tt w2 ∧
         ∀ env : Env, delivered (promises w2 !! p)
                = Some (env (calls ready_trace) call) →
                (run env (getHover main_rs (Some origin)) ready_trace).1
                = Done result).
Proof.
  apply (hover_returns_answer_or_null parse stringify started 0
           (new_server (js "rust")) ready_trace main_rs (Some origin) rust).
  - apply started_reachable.
  - reflexivity.
  - reflexivity.
  - reflexivity.
Defined.



End ClientExtras.

(** ** Splitting and trimming *)

Module TextFacts.
Import JSString JSText GitFormat Wire StringFacts FramerFacts.

Lemma split_go_skip (sep : list Z) (x : list Z) :
  ∀ (rest cur : list Z),
    split_go sep (length x) cur (x ++ rest) = split_go sep 0 cur rest.
Proof. induction x as [|c x IH]; intros rest cur; [done|]. apply IH. Qed.

(** A piece that ends at the first line feed. *)
Lemma split_go_line (l rest cur : list Z) :
  10 ∉ l →
  split_go [10] 0 cur (l ++ 10 :: rest)
  = (reverse cur ++ l) :: split_go [10] 0 [] rest.
Proof.
  revert cur. induction l as [|c l IH]; intros cur Hl.
  - cbn. by rewrite app_nil_r.
  - apply not_elem_of_cons in Hl as [Hc Hl]. cbn [app split_go startsWith].
    destruct (Z.eqb_spec 10 c) as [Heq|_]; [by destruct Hc|]. cbn [andb].
    rewrite IH by done. by rewrite reverse_cons, <- app_assoc.
Qed.

Lemma split_lines (ls : list (list Z)) :
  Forall (fun l => 10 ∉ l) ls →
  split (concat (map (fun l => l ++ [10]) ls)) [10] = ls ++ [[]].
Proof.
  unfold split. induction 1 as [|l ls Hl _ IH]; [done|].
  cbn [map concat]. rewrite <- app_assoc. cbn [app].
  rewrite split_go_line by done. by rewrite IH.
Qed.

Lemma startsWith_arrow (s : list Z) :
  s !! 2%nat ≠ Some 62 → startsWith s arrow = false.
Proof.
  destruct s as [|a [|b [|c s]]]; intros H; unfold arrow; cbn [startsWith].
  - done.
  - by rewrite andb_false_r.
  - by rewrite !andb_false_r.
  - cbn in H. destruct (Z.eqb_spec 62 c) as [Heq|_]; [by subst|].
    cbn [andb]. by rewrite !andb_false_r.
Qed.

Lemma split_go_no_arrow (s cur : list Z) :
  62 ∉ s → split_go arrow 0 cur s = [reverse cur ++ s].
Proof.
  revert cur. induction s as [|c s IH]; intros cur Hs.
  - cbn. by rewrite app_nil_r.
  - cbn [split_go]. rewrite startsWith_arrow.
    + apply not_elem_of_cons in Hs as [_ Hs]. rewrite IH by done.
      by rewrite reverse_cons, <- app_assoc.
    + intros Hin%list_elem_of_lookup_2. done.
Qed.

Lemma split_go_arrow (old new cur : list Z) :
  62 ∉ old → 62 ∉ new →
  split_go arrow 0 cur (old ++ arrow ++ new)
  = [reverse cur ++ old; new].
Proof.
  revert cur. induction old as [|c old IH]; intros cur Hold Hnew.
  - cbn [app]. change (arrow ++ new) with (32 :: ([45; 62; 32] ++ new)).
    cbn [split_go].
    assert (startsWith (32 :: [45; 62; 32] ++ new) arrow = true) as ->
      by apply (startsWith_app arrow new).
    change (length arrow - 1)%nat with (length [45; 62; 32]).
    rewrite (split_go_skip arrow [45; 62; 32] new []).
    rewrite split_go_no_arrow by done. by rewrite app_nil_r.
  - apply not_elem_of_cons in Hold as [Hc Hold].
    cbn [app split_go]. rewrite startsWith_arrow.
    + rewrite IH by done. by rewrite reverse_cons, <- app_assoc.
    + destruct old as [|a [|b old]]; cbn; try done.
      intros [= ->]. apply Hold. right. by left.
Qed.

Lemma split_arrow (old new : list Z) :
  62 ∉ old → 62 ∉ new →
  split (old ++ js " -> " ++ new) (js " -> ") = [old; new].
Proof. intros H1 H2. by apply (split_go_arrow old new []). Qed.

(** *** [trim] *)

Lemma trimStart_head (s : list Z) (c : Z) :
  head s = Some c → is_space c = false → trimStart s = s.
Proof. destruct s; [done|]. cbn. by intros [= ->] ->. Qed.

Lemma trimStart_elem_of (s : list Z) (c : Z) :
  c ∈ s → is_space c = false → c ∈ trimStart s.
Proof.
  induction s as [|d s IH]; [done|]. cbn [trimStart].
  intros [->|Hin]%elem_of_cons Hc.
  - rewrite Hc. by left.
  - destruct (is_space d); [by apply IH | by right].
Qed.

Lemma head_reverse (s : list Z) : head (reverse s) = last s.
Proof.
  induction s as [|c s IH] using rev_ind; [done|].
  by rewrite reverse_app, last_snoc.
Qed.

Lemma trim_clean (s : list Z) (c d : Z) :
  head s = Some c → is_space c = false →
  last s = Some d → is_space d = false → trim s = s.
Proof.
  intros Hc Hcs Hd Hds. unfold trim, trimEnd.
  rewrite (trimStart_head s c) by done.
  rewrite (trimStart_head (reverse s) d); [by rewrite reverse_involutive| |done].
  by rewrite head_reverse.
Qed.

Lemma trim_not_blank (s : list Z) (c : Z) :
  c ∈ s → is_space c = false → trim s ≠ [].
Proof.
  intros Hin Hc. unfold trim, trimEnd.
  assert (c ∈ trimStart (reverse (trimStart s))) as H.
  { apply trimStart_elem_of; [|done]. apply elem_of_reverse.
    by apply trimStart_elem_of. }
  intros Heq. apply (f_equal reverse) in Heq.
  rewrite reverse_involutive in Heq. rewrite Heq in H.
  by apply elem_of_nil in H.
Qed.

Lemma filter_Forall {A} (P : A → Prop) `{!∀ x, Decision (P x)}
    (l : list A) :
  Forall P l → filter P l = l.
Proof.
  induction 1 as [|x l Hx _ IH]; [done|].
  by rewrite filter_cons_True, IH.
Qed.

Lemma substring_prefix (a c : list Z) :
  substring (a ++ c) 0 (Z.of_nat (length a)) = a.
Proof.
  pose proof (substring_middle [] a c) as H. cbn [app length] in H.
  by rewrite Z.add_0_l in H.
Qed.

End TextFacts.

(** ** The git handlers *)

Module GitFacts.
Import JSString JSText Git GitFormat Wire StringFacts FramerFacts TextFacts.

Lemma status_line_fields (status : GitStatus) (code path rest : list Z) :
  length code = 2%nat →
  substring (code ++ [32] ++ rest) 0 2 = code ∧
  substring_from (code ++ [32] ++ rest) 3 = rest.
Proof.
  intros Hlen. split.
  - replace 2 with (Z.of_nat (length code)) by lia. apply substring_prefix.
  - rewrite app_assoc.
    replace 3 with (Z.of_nat (length (code ++ [32])))
      by (rewrite length_app; simpl; lia).
    apply substring_from_app.
Qed.

Lemma path_ok_ends (p : list Z) :
  path_ok p →
  ∃ c d, head p = Some c ∧ is_space c = false ∧
         last p = Some d ∧ is_space d = false.
Proof.
  intros (_ & Hh & Hl).
  destruct (head p) as [c|]; [|done]. destruct (last p) as [d|]; [|done].
  injection Hh as Hh. injection Hl as Hl. by exists c, d.
Qed.

Lemma path_ok_trim (p : list Z) : path_ok p → trim p = p.
Proof.
  intros (c & d & Hc & Hcs & Hd & Hds)%path_ok_ends. by eapply trim_clean.
Qed.

Lemma path_ok_cons (p : list Z) : path_ok p → ∃ c s, p = c :: s.
Proof.
  intros (c & _ & Hc & _)%path_ok_ends. destruct p; [done|]. eauto.
Qed.

Lemma status_line_changed (status : GitStatus) (code path : list Z) :
  code_ok code → startsWith code (js "R") = false → path_ok path →
  status_line status (entry_line (Changed code path)) =
  {| modified := modified status
                 ++ (if bool_decide (code ∈ modified_codes)
                     then [path] else []);
     added := added status
              ++ (if bool_decide (code ∈ added_codes) then [path] else []);
     deleted := deleted status
                ++ (if bool_decide (code ∈ deleted_codes)
                    then [path] else []);
     untracked := untracked status
                  ++ (if bool_decide (code ∈ untracked_codes)
                      then [path] else []);
     renamed := renamed status |}.
Proof.
  intros [Hlen _] Hr Hp. unfold status_line, entry_line.
  destruct (status_line_fields status code path path Hlen) as [-> ->].
  rewrite (path_ok_trim path Hp). cbn zeta.
  destruct status as [m a d u r]. cbn [modified added deleted untracked renamed].
  unfold modified_codes, added_codes, deleted_codes, untracked_codes.
  repeat match goal with
         | |- context [bool_decide (code = ?c)] =>
             destruct (decide (code = c)) as [->|?];
             [by rewrite ?app_nil_r
             |rewrite (bool_decide_eq_false_2 (code = c)) by done]
         end.
  cbn [orb]. rewrite Hr.
  rewrite !bool_decide_eq_false_2; [by rewrite !app_nil_r|..];
    rewrite ?not_elem_of_cons; split_and!; try done; apply not_elem_of_nil.
Qed.

Lemma last_app_cons (a : list Z) (c : Z) (s : list Z) :
  last (a ++ c :: s) = last (c :: s).
Proof. induction a as [|x [|y a] IH]; [done|done|]. exact IH. Qed.

Lemma status_line_moved (status : GitStatus) (code old new : list Z) :
  code_ok code → startsWith code (js "R") = true →
  path_ok old → path_ok new → 62 ∉ old → 62 ∉ new →
  status_line status (entry_line (Moved code old new)) =
  {| modified := modified status; added := added status;
     deleted := deleted status; untracked := untracked status;
     renamed := renamed status ++ [(old, new)] |}.
Proof.
  intros [Hlen _] Hr Ho Hn Ho62 Hn62. unfold status_line, entry_line.
  destruct (status_line_fields status code old (old ++ arrow ++ new) Hlen)
    as [-> ->].
  destruct (path_ok_cons new Hn) as (c & s & ->).
  assert (trim (old ++ arrow ++ c :: s) = old ++ arrow ++ c :: s) as ->.
  { destruct (path_ok_ends _ Ho) as (x & _ & Hx & Hxs & _).
    destruct (path_ok_ends _ Hn) as (_ & y & _ & _ & Hy & Hys).
    apply (trim_clean _ x y); [|done| |done].
    - by destruct old.
    - rewrite app_assoc, last_app_cons. done. }
  cbn zeta.
  repeat match goal with
         | |- context [bool_decide (code = ?c)] =>
             rewrite (bool_decide_eq_false_2 (code = c))
               by (intros ->; done)
         end.
  cbn [orb]. rewrite Hr.
  change (js " -> ") with arrow.
  unfold split. unfold arrow at 1. fold arrow.
  rewrite (split_go_arrow old (c :: s) []) by done. done.
Qed.

Lemma status_lines_porcelain (es : list Entry) :
  Forall entry_ok es → status_lines (porcelain es) = map entry_line es.
Proof.
  intros Hok. unfold status_lines, porcelain.
  rewrite <- (map_map entry_line (fun l => l ++ [10])).
  rewrite split_lines.
  - rewrite filter_app, filter_cons_False, filter_nil, app_nil_r
      by (intros H; by apply H).
    apply filter_Forall.
    apply Forall_map. eapply Forall_impl; [exact Hok|].
    intros [code path|code old new]; cbn [entry_ok entry_line].
    + intros (_ & _ & (c & _ & Hc & Hcs & _)%path_ok_ends).
      apply (trim_not_blank _ c); [|done].
      apply elem_of_app. right. apply elem_of_app. right.
      destruct path; [done|]. injection Hc as ->. by left.
    + intros (_ & _ & (c & _ & Hc & Hcs & _)%path_ok_ends & _).
      apply (trim_not_blank _ c); [|done].
      apply elem_of_app. right. apply elem_of_app. right.
      apply elem_of_app. left.
      destruct old; [done|]. injection Hc as ->. by left.
  - apply Forall_map. eapply Forall_impl; [exact Hok|].
    intros [code path|code old new]; cbn [entry_ok entry_line].
    + intros ((_ & Hc) & _ & (Hp & _)).
      rewrite !not_elem_of_app. split_and!; [done| |done].
      by apply not_elem_of_cons; split; [|apply not_elem_of_nil].
    + intros ((_ & Hc) & _ & (Ho & _) & (Hn & _) & _).
      rewrite !not_elem_of_app. split_and!; [done| |done| |done].
      * by apply not_elem_of_cons; split; [|apply not_elem_of_nil].
      * apply (bool_decide_unpack _). by vm_compute.
Qed.

Lemma fold_status_lines (es : list Entry) :
  Forall entry_ok es →
  ∀ status,
    fold_left status_line (map entry_line es) status =
    {| modified := modified status ++ paths_with modified_codes es;
       added := added status ++ paths_with added_codes es;
       deleted := deleted status ++ paths_with deleted_codes es;
       untracked := untracked status ++ paths_with untracked_codes es;
       renamed := renamed status ++ moves es |}.
Proof.
  induction 1 as [|e es He _ IH]; intros status.
  - destruct status. cbn. by rewrite !app_nil_r.
  - cbn [map fold_left]. rewrite IH.
    destruct e as [code path|code old new]; cbn [entry_ok] in He.
    + destruct He as (Hc & Hr & Hp).
      rewrite (status_line_changed status code path Hc Hr Hp).
      cbn [modified added deleted untracked renamed paths_with moves omap].
      f_equal; rewrite <- ?app_assoc; f_equal;
        unfold paths_with; cbn [omap list_omap];
        first [done | by destruct (bool_decide _)].
    + destruct He as (Hc & Hr & Ho & Hn & Ho62 & Hn62).
      rewrite (status_line_moved status code old new Hc Hr Ho Hn Ho62 Hn62).
      cbn [modified added deleted untracked renamed].
      unfold paths_with, moves. cbn [omap list_omap].
      f_equal. by rewrite <- app_assoc.
Qed.

(** *** The loop that removes duplicates *)

Lemma unique_branches_names (branches : list Branch) :
  ∀ seen b, b ∈ unique_branches seen branches →
            b ∈ branches ∧ branch_name b ∉ seen.
Proof.
  induction branches as [|x rest IH]; intros seen b; cbn [unique_branches].
  - by intros ?%elem_of_nil.
  - case_bool_decide as Hx.
    + intros [? ?]%IH. split; [by right|done].
    + intros [->|[Hin Hb]%IH]%elem_of_cons; [split; [by left|done]|].
      split; [by right|]. by apply not_elem_of_cons in Hb as [_ ?].
Qed.

Lemma unique_branches_NoDup (branches : list Branch) :
  ∀ seen, NoDup (map branch_name (unique_branches seen branches)).
Proof.
  induction branches as [|x rest IH]; intros seen; cbn [unique_branches].
  - constructor.
  - case_bool_decide as Hx; [apply IH|].
    cbn [map]. apply NoDup_cons. split; [|apply IH].
    intros (b & Hname & Hb)%list_elem_of_fmap.
    apply unique_branches_names in Hb as [_ Hb].
    apply Hb. rewrite <- Hname. by left.
Qed.

Lemma unique_branches_sublist (branches : list Branch) :
  ∀ seen, unique_branches seen branches `sublist_of` branches.
Proof.
  induction branches as [|x rest IH]; intros seen; cbn [unique_branches].
  - done.
  - case_bool_decide; [by apply sublist_cons | by apply sublist_skip].
Qed.

(** The branch kept for a name is the first of that name. *)
Lemma unique_branches_first (branches : list Branch) :
  ∀ seen b,
    b ∈ branches → branch_name b ∉ seen →
    ∃ b', head (filter (fun x => branch_name x = branch_name b) branches)
          = Some b' ∧
          b' ∈ unique_branches seen branches.
Proof.
  induction branches as [|x rest IH]; intros seen b Hin Hseen;
    [by apply elem_of_nil in Hin|].
  cbn [unique_branches].
  destruct (decide (branch_name x = branch_name b)) as [Heq|Hne].
  - rewrite filter_cons_True by done. exists x. split; [done|].
    rewrite bool_decide_eq_false_2 by (by rewrite Heq). by left.
  - rewrite filter_cons_False by done.
    apply elem_of_cons in Hin as [->|Hin]; [done|].
    case_bool_decide.
    + by apply IH.
    + destruct (IH (branch_name x :: seen) b Hin) as (b' & ? & ?).
      { apply not_elem_of_cons. split; [congruence|done]. }
      exists b'. split; [done | by right].
Qed.

End GitFacts.

Module GitExtras.
Import JSString JSText Git GitFormat GitExamples.
Import Wire StringFacts FramerFacts TextFacts GitFacts.

(** X13: get-git-status on the output of git status --porcelain, one
    line for each entry, with paths that git prints unquoted: the
    paths of the entries with the codes " M", "M " and "MM" are the
    modified ones, "A " and "AM" the added, " D" and "D " the deleted,
    "??" the untracked, and an entry whose code begins with R is a
    rename with its two paths; each list is in the order of the
    output.  Entries with any other code (a conflict, "UU", for
    example) are in no list.  When the command fails all lists are
    empty. *)
Theorem git_status_reads_porcelain (es : list Entry) :
  Forall entry_ok es →
  get_git_status (Some (porcelain es)) =
  {| modified := paths_with modified_codes es;
     added := paths_with added_codes es;
     deleted := paths_with deleted_codes es;
     untracked := paths_with untracked_codes es;
     renamed := moves es |} ∧
  get_git_status None = empty_status.
Proof.
  intros Hok. split; [|done]. unfold get_git_status.
  rewrite status_lines_porcelain by done.
  by rewrite fold_status_lines.
Qed.

Lemma git_status_reads_porcelain_witness :
  get_git_status (Some (porcelain some_status)) =
  {| modified := [js "src/main.js"];
     added := [js "added.js"];
     deleted := [js "gone.js"];
     untracked := [js "notes/to do.txt"];
     renamed := [(js "old.js", js "lib/new.js")] |} ∧
  get_git_status None = empty_status.
Proof.
  apply (git_status_reads_porcelain some_status).
  apply (bool_decide_unpack _). by vm_compute.
Defined.

(** X14: whatever git branch --all prints, get-all-branches lists no
    name twice; every branch read from the output has its name in the
    result; the result keeps the order of the output; and for every
    name it keeps the branch that comes first in the output (the local
    branch, which git prints before the remote ones). *)
Theorem branches_are_listed_once (stdout : list Z) :
  let listed := listed_branches stdout in
  let result := get_all_branches (Some stdout) in
  NoDup (map branch_name result) ∧
  result `sublist_of` listed ∧
  ∀ b, b ∈ listed →
       ∃ b', head (filter (fun x => branch_name x = branch_name b) listed)
             = Some b' ∧
             b' ∈ result.
Proof.
  cbn zeta. unfold get_all_branches. split_and!.
  - apply unique_branches_NoDup.
  - apply unique_branches_sublist.
  - intros b Hb. apply unique_branches_first; [done | apply not_elem_of_nil].
Qed.


End GitExtras.

(** ** The workspace state file *)

Module WorkspaceFacts.
Import JSString JSText JSON Workspace.

Lemma own_property_absent (props : list (jsstring * Json)) (k : jsstring) :
  k ∉ map fst props → own_property props k = None.
Proof.
  induction props as [|[k' v'] rest IH]; [done|].
  cbn [map fst own_property]. intros Hk.
  apply not_elem_of_cons in Hk as [Hne Hrest].
  rewrite (IH Hrest). by rewrite bool_decide_eq_false_2.
Qed.

Lemma own_property_app (a b : list (jsstring * Json)) (k : jsstring) :
  own_property (a ++ b) k
  = match own_property b k with
    | Some v => Some v
    | None => own_property a k
    end.
Proof.
  induction a as [|[k' v'] rest IH]; cbn [app own_property].
  - by destruct (own_property b k).
  - rewrite IH. by destruct (own_property b k).
Qed.

Lemma replace_property_keys (k : jsstring) (v : Json)
    (props : list (jsstring * Json)) :
  map fst (replace_property k v props) = map fst props.
Proof.
  induction props as [|[k' v'] rest IH]; [done|].
  cbn [replace_property]. case_bool_decide as Hk.
  - by subst.
  - cbn [map fst]. by rewrite IH.
Qed.

Lemma own_property_replace (k : jsstring) (v : Json)
    (props : list (jsstring * Json)) (q : jsstring) :
  NoDup (map fst props) → k ∈ map fst props →
  own_property (replace_property k v props) q
  = if bool_decide (q = k) then Some v else own_property props q.
Proof.
  induction props as [|[k' v'] rest IH]; cbn [map fst].
  - intros _ Hin. by apply elem_of_nil in Hin.
  - intros Hnd Hin. apply NoDup_cons in Hnd as [Hk' Hnd].
    cbn [replace_property]. destruct (decide (k' = k)) as [->|Hk].
    + rewrite (bool_decide_eq_true_2 (k = k)) by done. cbn [own_property].
      destruct (decide (q = k)) as [->|Hq].
      * rewrite (own_property_absent rest k Hk').
        by rewrite !bool_decide_eq_true_2.
      * rewrite (bool_decide_eq_false_2 (q = k)) by done.
        destruct (own_property rest q); [done|].
        by rewrite !(bool_decide_eq_false_2 (k = q)).
    + rewrite (bool_decide_eq_false_2 (k' = k)) by done.
      apply elem_of_cons in Hin as [Hin|Hin]; [by subst|].
      cbn [own_property]. rewrite (IH Hnd Hin).
      by destruct (decide (q = k)) as [->|Hq];
        [rewrite !bool_decide_eq_true_2
        |rewrite (bool_decide_eq_false_2 (q = k))].
Qed.

Lemma insert_index_keys (k : jsstring) (v : Json)
    (props : list (jsstring * Json)) :
  map fst (insert_index k v props) ≡ₚ k :: map fst props.
Proof.
  induction props as [|[k' v'] rest IH]; [done|].
  cbn [insert_index].
  destruct (is_array_index k' && (parseInt k' <? parseInt k)); [|done].
  cbn [map fst]. rewrite IH. apply Permutation_swap.
Qed.

Lemma own_property_insert_index (k : jsstring) (v : Json)
    (props : list (jsstring * Json)) (q : jsstring) :
  k ∉ map fst props →
  own_property (insert_index k v props) q
  = if bool_decide (q = k) then Some v else own_property props q.
Proof.
  induction props as [|[k' v'] rest IH]; cbn [map fst insert_index].
  - intros _. cbn [own_property].
    case_bool_decide; subst.
    + by rewrite bool_decide_eq_true_2.
    + by rewrite bool_decide_eq_false_2.
  - intros Hk. pose proof Hk as Hk0.
    apply not_elem_of_cons in Hk as [Hne Hrest].
    destruct (is_array_index k' && (parseInt k' <? parseInt k)).
    + cbn [own_property]. rewrite (IH Hrest).
      by case_bool_decide.
    + change (own_property ((k, v) :: (k', v') :: rest) q)
        with (match own_property ((k', v') :: rest) q with
              | Some x => Some x
              | None => if bool_decide (k = q) then Some v else None
              end).
      case_bool_decide as Hq.
      * subst q. rewrite (own_property_absent ((k', v') :: rest) k Hk0).
        by rewrite bool_decide_eq_true_2.
      * destruct (own_property ((k', v') :: rest) q); [done|].
        by rewrite bool_decide_eq_false_2.
Qed.

(** An assignment keeps the names of an object distinct. *)
Lemma put_NoDup (props : list (jsstring * Json)) (kv : jsstring * Json) :
  NoDup (map fst props) → NoDup (map fst (put props kv)).
Proof.
  destruct kv as [k v]. intros Hnd. unfold put.
  case_bool_decide as Hin.
  - by rewrite replace_property_keys.
  - destruct (is_array_index k).
    + rewrite insert_index_keys. by apply NoDup_cons.
    + rewrite map_app. apply NoDup_app. split; [done|]. split.
      * intros x Hx Hx'. apply list_elem_of_singleton in Hx'. by subst.
      * apply NoDup_singleton.
Qed.

(** The property assigned has the new value, and no other property
    changes. *)
Lemma own_property_put (props : list (jsstring * Json)) (k : jsstring)
    (v : Json) (q : jsstring) :
  NoDup (map fst props) →
  own_property (put props (k, v)) q
  = if bool_decide (q = k) then Some v else own_property props q.
Proof.
  intros Hnd. unfold put. case_bool_decide as Hin.
  - by apply own_property_replace.
  - destruct (is_array_index k).
    + by apply own_property_insert_index.
    + rewrite own_property_app. cbn [own_property].
      case_bool_decide as Hq.
      * subst. by rewrite bool_decide_eq_true_2.
      * by rewrite bool_decide_eq_false_2.
Qed.

Lemma fold_put_NoDup (kvs props : list (jsstring * Json)) :
  NoDup (map fst props) → NoDup (map fst (fold_left put kvs props)).
Proof.
  revert props. induction kvs as [|kv kvs IH]; [done|].
  intros props Hnd. cbn [fold_left]. apply IH. by apply put_NoDup.
Qed.

(** A property of [{ ...a, ...b }] is that of [b] if [b] has it, and
    that of [a] otherwise. *)
Lemma own_property_fold_put (kvs props : list (jsstring * Json))
    (q : jsstring) :
  NoDup (map fst props) →
  own_property (fold_left put kvs props) q
  = match own_property kvs q with
    | Some v => Some v
    | None => own_property props q
    end.
Proof.
  revert props. induction kvs as [|[k v] kvs IH]; [done|].
  intros props Hnd. cbn [fold_left own_property].
  rewrite (IH _ (put_NoDup props (k, v) Hnd)).
  destruct (own_property kvs q); [done|].
  rewrite (own_property_put props k v q Hnd).
  case_bool_decide as Hq.
  - subst. by rewrite bool_decide_eq_true_2.
  - by rewrite bool_decide_eq_false_2.
Qed.


Section Save.
Variable JSON_parse : jsstring → option Json.


End Save.

End WorkspaceFacts.

Module WorkspaceExtras.
Import JSString JSText JSON Workspace WorkspaceFacts WorkspaceExamples.



(** X17: saveWorkspaceState.  Over a state file that holds an
    object (or is missing, blank or not JSON), what is written is the
    old state overridden by the state that is saved: a property of the
    saved state has the saved value, also [recentWorkspaces]; any other
    property but [recentWorkspaces] is as it was in the file. *)
Theorem save_merges_state (JSON_parse : jsstring → option Json)
    (file : File) (sprops props : list (jsstring * Json))
    (now : jsstring) (newState : Json) (k : jsstring) :
  read_state JSON_parse file = Some (JObj props) →
  NoDup (map fst props) →
  saveWorkspaceState JSON_parse file (Some (JObj sprops)) now
  = Some newState →
  (∀ v, own_property sprops k = Some v →
        get_property (Some newState) k = Some (Some v)) ∧
  (own_property sprops k = None → k ≠ js "recentWorkspaces" →
   get_property (Some newState) k = Some (own_property props k)).
Proof.
  intros Hread Hnd. unfold saveWorkspaceState. rewrite Hread.
  destruct (update_recent (JObj props) (Some (JObj sprops)) now)
    as [props'|] eqn:Hup; [|done].
  intros [= <-].
  assert (NoDup (map fst props') ∧
          (k ≠ js "recentWorkspaces" →
           own_property props' k = own_property props k)) as [Hnd' Hsame].
  { revert Hup. unfold update_recent.
    destruct (get_property (Some (JObj sprops)) (js "workspace"))
      as [workspace|]; [|done].
    destruct (truthy workspace); [|by intros [= <-]].
    destruct workspace as [[| | |ws| |]|]; try done.
    destruct (get_property (Some (JObj props)) (js "recentWorkspaces"))
      as [recent|]; [|done].
    destruct (if truthy recent then _ else _) as [items|]; [|done].
    destruct (filter_recent ws items) as [filtered|]; [|done].
    intros [= <-]. split.
    - by apply (put_NoDup props (js "recentWorkspaces", _)).
    - intros Hk.
      etrans; [by apply (own_property_put props (js "recentWorkspaces"))|].
      by rewrite bool_decide_eq_false_2. }
  unfold spread_over. cbn [get_property spread].
  rewrite own_property_fold_put by done. split.
  - by intros v ->.
  - intros -> Hk. by rewrite Hsame.
Qed.

Lemma save_merges_state_witness :
  ∃ newState,
    saveWorkspaceState parse state_file (Some (JObj sent_props)) later
    = Some newState ∧
    (∀ v, own_property sent_props (js "expandedDirs") = Some v →
          get_property (Some newState) (js "expandedDirs") = Some (Some v)) ∧
    (own_property sent_props (js "expandedDirs") = None →
     js "expandedDirs" ≠ js "recentWorkspaces" →
     get_property (Some newState) (js "expandedDirs")
     = Some (own_property saved_props (js "expandedDirs"))).
Proof.
  eexists. split; [by vm_compute|].
  apply (save_merges_state parse state_file sent_props saved_props later).
  - by vm_compute.
  - apply (bool_decide_unpack _). by vm_compute.
  - by vm_compute.
Defined.



End WorkspaceExtras.

(** ** The parser of the diff *)

Module DiffFacts.
Import JSString JSText GitDiff DiffFormat Wire.
Import StringFacts RoundTripFacts TextFacts.

Lemma digits_no_lf (ds : jsstring) : digits ds → 10 ∉ ds.
Proof.
  intros Hd Hin. eapply Forall_forall in Hd; [|exact Hin]. done.
Qed.

Lemma span_digits_all (ds r : jsstring) :
  digits ds → is_digit <$> head r ≠ Some true →
  span_digits (ds ++ r) = (ds, r).
Proof.
  intros Hd Hr. destruct r as [|c r].
  - rewrite app_nil_r. induction Hd as [|d ds Hd _ IH]; [done|].
    cbn [span_digits]. by rewrite Hd, IH.
  - apply span_digits_stop; [done|].
    cbn in Hr. by destruct (is_digit c).
Qed.

(** The ranges of a header are read as the pattern has them. *)
Lemma span_range (start : Z) (n : option Z) (c : Z) (r : jsstring) :
  0 <= start → from_option (fun n => 0 <= n) True n →
  c = 32 →
  ∃ r1, span_digits (range start n ++ c :: r) = (decimal start, r1) ∧
        (span_digits (optional_comma r1)).2 = c :: r.
Proof.
  intros Hs Hn ->. destruct (decimal_spec start Hs) as (_ & Hd & _).
  unfold range. destruct n as [n|]; cbn [from_option] in Hn.
  - destruct (decimal_spec n Hn) as (_ & Hdn & _).
    eexists. rewrite <- app_assoc. cbn [app]. split.
    { by apply span_digits_stop. }
    cbn [optional_comma]. by rewrite span_digits_stop.
  - rewrite app_nil_r. eexists. split.
    { by apply span_digits_stop. }
    done.
Qed.

Lemma hunk_at_header (h : Hunk) :
  hunk_ok h → hunk_at (hunk_header h) = Some (decimal (new_start h)).
Proof.
  intros (Ho & Hn & Hoc & Hnc & _).
  unfold hunk_header, hunk_at.
  rewrite startsWith_app.
  change (drop 4 (js "@@ -" ++ ?x)) with x.
  change (js " +" ++ ?x) with (32 :: 43 :: x).
  change (js " @@" ++ ?x) with (32 :: 64 :: 64 :: x).
  destruct (span_range (old_start h) (old_count h) 32
              (43 :: range (new_start h) (new_count h)
                 ++ 32 :: 64 :: 64 :: heading h) Ho Hoc eq_refl)
    as (r1 & -> & Hr2).
  destruct (decimal_spec _ Ho) as (_ & _ & Hne).
  destruct (decimal (old_start h)) as [|d ds] eqn:Hd; [done|].
  destruct (span_digits (optional_comma r1)) as [x r2]. cbn [snd] in Hr2.
  subst r2. cbn [startsWith js]. 
  change (startsWith (32 :: 43 :: ?x) (js " +")) with true. cbv iota.
  change (drop 2 (32 :: 43 :: ?x)) with x.
  destruct (span_range (new_start h) (new_count h) 32
              (64 :: 64 :: heading h) Hn Hnc eq_refl)
    as (r3 & -> & Hr4).
  destruct (decimal_spec _ Hn) as (_ & _ & Hne').
  destruct (decimal (new_start h)) as [|d' ds'] eqn:Hd'; [done|].
  destruct (span_digits (optional_comma r3)) as [y r4]. cbn [snd] in Hr4.
  subst r4. done.
Qed.

Lemma hunk_match_at (line g : jsstring) :
  hunk_at line = Some g → hunk_match line = Some g.
Proof. intros H. destruct line; cbn [hunk_match]; by rewrite H. Qed.

Lemma additions_and_removals_app (a b : list Change) :
  additions_and_removals (a ++ b)
  = additions_and_removals a ++ additions_and_removals b.
Proof. apply List.filter_app. Qed.

(** The line before matters to the context lines only. *)
Lemma diff_loop_prev (prev prev' : option jsstring) (lines : list jsstring)
    (n : Z) :
  additions_and_removals (diff_loop prev lines n)
  = additions_and_removals (diff_loop prev' lines n).
Proof.
  destruct lines as [|line rest]; [done|]. cbn [diff_loop].
  repeat match goal with
         | |- context [if ?b then _ else _] =>
             lazymatch b with
             | startsWith _ _ => destruct b
             | _ || _ => destruct b
             | _ && _ => destruct b
             end
         end; try done.
  rewrite !additions_and_removals_app. f_equal.
  by destruct prev, prev', rest;
    repeat match goal with
           | |- context [if ?b then _ else _] => destruct b
           end.
Qed.

(** The markers of a body, line by line. *)
Lemma markers_cons (start : Z) (l : DiffLine) (body : list DiffLine) :
  markers start (l :: body)
  = match l with
    | Addition _ => [change "added" start]
    | Removal _ => [change "deleted" start]
    | _ => []
    end
    ++ markers (start + if in_new_file l then 1 else 0) body.
Proof.
  unfold markers. rewrite imap_cons. cbn [omap list_omap].
  assert (imap (marker start (l :: body) ∘ S) body
          = imap (marker (start + (if in_new_file l then 1 else 0)) body) body)
    as ->.
  { apply imap_ext. intros j x _. unfold compose, marker, new_number.
    cbn [take List.filter].
    replace (start
             + Z.of_nat
                 (length
                    (if in_new_file l
                     then l :: List.filter in_new_file (take j body)
                     else List.filter in_new_file (take j body))))
      with (start + (if in_new_file l then 1 else 0)
            + Z.of_nat (length (List.filter in_new_file (take j body))));
      [done|].
    destruct (in_new_file l); cbn [length]; lia. }
  unfold marker at 1, new_number. cbn [take List.filter length].
  rewrite Z.add_0_r. by destruct l.
Qed.

(** The literals of the source as code units. *)
Ltac literals :=
  repeat match goal with
         | |- context [js ?l] =>
             let v := eval vm_compute in (js l) in change (js l) with v
         end.

Lemma startsWith_cons (c : Z) (t : jsstring) (d : Z) (p : jsstring) :
  startsWith (c :: t) (d :: p) = (d =? c) && startsWith t p.
Proof. done. Qed.

Lemma startsWith_nil (t : jsstring) : startsWith t [] = true.
Proof. by destruct t. Qed.

Ltac first_units :=
  literals; rewrite ?startsWith_cons, ?startsWith_nil;
  cbn [Z.eqb Pos.eqb andb orb negb].

Lemma diff_loop_context (prev : option jsstring) (t : jsstring)
    (rest : list jsstring) (n : Z) :
  additions_and_removals (diff_loop prev ((32 :: t) :: rest) n)
  = additions_and_removals (diff_loop None rest (n + 1)).
Proof.
  cbn [diff_loop]. first_units.
  rewrite additions_and_removals_app.
  rewrite (diff_loop_prev (Some (32 :: t)) None).
  by destruct (match prev with Some _ => _ | None => _ end).
Qed.

Lemma diff_loop_addition (prev : option jsstring) (t : jsstring)
    (rest : list jsstring) (n : Z) :
  additions_and_removals (diff_loop prev ((43 :: t) :: rest) n)
  = if startsWith t (js "++")
    then additions_and_removals (diff_loop None rest n)
    else change "added" n
         :: additions_and_removals (diff_loop None rest (n + 1)).
Proof.
  cbn [diff_loop]. first_units.
  destruct (startsWith t [43; 43]); cbn [negb].
  - apply diff_loop_prev.
  - cbn [additions_and_removals List.filter change type].
    f_equal. apply diff_loop_prev.
Qed.

Lemma diff_loop_removal (prev : option jsstring) (t : jsstring)
    (rest : list jsstring) (n : Z) :
  additions_and_removals (diff_loop prev ((45 :: t) :: rest) n)
  = if startsWith t (js "--")
    then additions_and_removals (diff_loop None rest n)
    else change "deleted" n
         :: additions_and_removals (diff_loop None rest n).
Proof.
  cbn [diff_loop]. first_units.
  destruct (startsWith t [45; 45]); cbn [negb orb andb].
  - apply diff_loop_prev.
  - cbn [additions_and_removals List.filter change type].
    f_equal. apply diff_loop_prev.
Qed.

Lemma diff_loop_remark (prev : option jsstring) (rest : list jsstring)
    (n : Z) :
  additions_and_removals
    (diff_loop prev (diff_line NoNewline :: rest) n)
  = additions_and_removals (diff_loop None rest n).
Proof.
  cbn [diff_loop diff_line]. first_units. apply diff_loop_prev.
Qed.

Lemma diff_loop_body (body : list DiffLine) :
  Forall one_line body →
  ∀ (prev : option jsstring) (tail : list jsstring) (n : Z),
    additions_and_removals (diff_loop prev (map diff_line body ++ tail) n)
    = markers n (seen body)
      ++ additions_and_removals
           (diff_loop None tail
              (n + Z.of_nat (length (List.filter in_new_file (seen body))))).
Proof.
  induction 1 as [|l body Hl _ IH]; intros prev tail n.
  - cbn [map app seen List.filter length]. rewrite Z.add_0_r.
    apply diff_loop_prev.
  - cbn [map app]. destruct l as [t|t|t|].
    + cbn [diff_line]. rewrite diff_loop_context, IH.
      unfold seen. cbn [List.filter skipped negb]. fold (seen body).
      rewrite markers_cons. cbn [in_new_file app length].
      do 3 f_equal. lia.
    + cbn [diff_line]. rewrite diff_loop_addition.
      unfold seen. cbn [List.filter skipped]. fold (seen body).
      destruct (startsWith t (js "++")); cbn [negb]; [apply IH|].
      rewrite IH, markers_cons.
      cbn [in_new_file app length List.filter].
      do 4 f_equal. lia.
    + cbn [diff_line]. rewrite diff_loop_removal.
      unfold seen. cbn [List.filter skipped]. fold (seen body).
      destruct (startsWith t (js "--")); cbn [negb]; [apply IH|].
      rewrite IH, markers_cons.
      cbn [in_new_file app length List.filter].
      by rewrite Z.add_0_r.
    + rewrite diff_loop_remark, IH.
      unfold seen. cbn [List.filter skipped negb]. fold (seen body).
      rewrite markers_cons. cbn [in_new_file app length List.filter].
      by rewrite Z.add_0_r.
Qed.

Lemma diff_loop_preamble (pre : list jsstring) :
  Forall preamble_ok pre →
  ∀ (prev : option jsstring) (tail : list jsstring) (n : Z),
    additions_and_removals (diff_loop prev (pre ++ tail) n)
    = additions_and_removals (diff_loop None tail n).
Proof.
  induction 1 as [|l pre [_ Hl] _ IH]; intros prev tail n;
    [apply diff_loop_prev|].
  apply orb_true_iff in Hl as [Hl|Hl];
    [apply orb_true_iff in Hl as [Hl|Hl]|].
  - apply startsWith_spec in Hl as [t ->].
    revert IH. literals. intros IH. cbn [app diff_loop]. first_units.
    apply IH.
  - apply startsWith_spec in Hl as [t ->].
    revert IH. literals. intros IH. cbn [app diff_loop]. first_units.
    apply IH.
  - apply negb_true_iff in Hl.
    apply orb_false_iff in Hl as [Hl Hs].
    apply orb_false_iff in Hl as [Hl Hm].
    apply orb_false_iff in Hl as [Ha Hp].
    cbn [app diff_loop]. rewrite Ha, Hp, Hm, Hs. cbn [andb].
    by destruct (_ || _).
Qed.

Lemma hunk_header_starts (h : Hunk) :
  startsWith (hunk_header h) (js "@@") = true.
Proof. unfold hunk_header. apply startsWith_spec. by eexists. Qed.

Lemma diff_loop_hunk (h : Hunk) :
  hunk_ok h →
  ∀ (prev : option jsstring) (tail : list jsstring) (n : Z),
    additions_and_removals (diff_loop prev (hunk_lines h ++ tail) n)
    = markers (new_start h) (seen (body h))
      ++ additions_and_removals
           (diff_loop None tail
              (new_start h
               + Z.of_nat
                   (length (List.filter in_new_file (seen (body h)))))).
Proof.
  intros Hok prev tail n. unfold hunk_lines. cbn [app diff_loop].
  rewrite hunk_header_starts, (hunk_match_at _ _ (hunk_at_header h Hok)).
  destruct Hok as (_ & Hn & _ & _ & _ & Hbody).
  destruct (decimal_spec _ Hn) as (-> & _ & _).
  by apply diff_loop_body.
Qed.

Lemma diff_loop_hunks (hunks : list Hunk) :
  Forall hunk_ok hunks →
  ∀ (prev : option jsstring) (n : Z),
    additions_and_removals
      (diff_loop prev (concat (map hunk_lines hunks) ++ [[]]) n)
    = concat (map (fun h => markers (new_start h) (seen (body h))) hunks).
Proof.
  induction 1 as [|h hunks Hh _ IH]; intros prev n.
  - cbn [map concat app diff_loop]. literals. done.
  - cbn [map concat]. rewrite <- app_assoc, diff_loop_hunk by done.
    by rewrite IH.
Qed.

Lemma hunk_lines_one_line (h : Hunk) :
  hunk_ok h → Forall (fun l => 10 ∉ l) (hunk_lines h).
Proof.
  intros (Ho & Hn & Hoc & Hnc & Hh & Hbody).
  assert (∀ start n, 0 <= start → from_option (fun n => 0 <= n) True n →
                     10 ∉ range start n) as Hrange.
  { intros start n Hs Hc. unfold range. rewrite elem_of_app.
    intros [Hin|Hin].
    - by apply (digits_no_lf _ (proj1 (proj2 (decimal_spec _ Hs)))).
    - destruct n as [n|]; [|by apply elem_of_nil in Hin].
      apply elem_of_cons in Hin as [?|Hin]; [done|].
      by apply (digits_no_lf _ (proj1 (proj2 (decimal_spec _ Hc)))). }
  unfold hunk_lines. constructor.
  - unfold hunk_header. rewrite !elem_of_app.
    intros [Hin|[Hin|[Hin|[Hin|[Hin|Hin]]]]].
    + revert Hin. by apply (bool_decide_unpack _).
    + by apply (Hrange _ _ Ho Hoc).
    + revert Hin. by apply (bool_decide_unpack _).
    + by apply (Hrange _ _ Hn Hnc).
    + revert Hin. by apply (bool_decide_unpack _).
    + done.
  - apply Forall_map. eapply Forall_impl; [exact Hbody|].
    intros [t|t|t|] Hl; cbn [diff_line one_line] in *.
    + by intros [?|?]%elem_of_cons.
    + by intros [?|?]%elem_of_cons.
    + by intros [?|?]%elem_of_cons.
    + by apply (bool_decide_unpack _).
Qed.

(** The additions and removals that the handler reports for the
    output of [git diff]. *)
Lemma git_diff_changes (pre : list jsstring) (hunks : list Hunk) :
  Forall preamble_ok pre → Forall hunk_ok hunks →
  additions_and_removals (get_git_diff (Some (diff_text pre hunks)))
  = concat (map (fun h => markers (new_start h) (seen (body h))) hunks).
Proof.
  intros Hpre Hhunks.
  assert (split (diff_text pre hunks) [10]
          = (pre ++ concat (map hunk_lines hunks)) ++ [[]]) as Hsplit.
  { apply split_lines. apply Forall_app. split.
    - eapply Forall_impl; [exact Hpre|]. by intros l [? _].
    - apply Forall_concat, Forall_map.
      eapply Forall_impl; [exact Hhunks|]. apply hunk_lines_one_line. }
  unfold get_git_diff.
  destruct (diff_text pre hunks) as [|c s] eqn:Ht.
  - destruct hunks as [|h hunks]; [done|].
    apply (f_equal length) in Hsplit.
    rewrite !length_app in Hsplit. cbn in Hsplit. lia.
  - rewrite Hsplit, <- app_assoc, diff_loop_preamble by done.
    by apply diff_loop_hunks.
Qed.

Lemma seen_all (body : list DiffLine) :
  Forall (fun l => skipped l = false) body → seen body = body.
Proof.
  induction 1 as [|l body Hl _ IH]; [done|].
  unfold seen. cbn [List.filter]. rewrite Hl. cbn [negb].
  fold (seen body). by rewrite IH.
Qed.

End DiffFacts.

Module DiffExtras.
Import JSString JSText GitDiff DiffFormat DiffFacts DiffExamples.

(** X19: get-git-diff.  For the output of [git diff] on a file, the
    lines before the first hunk and then the hunks, in which no
    addition begins with [++] and no removal with [--], the changes of
    the types [added] and [deleted] are, hunk by hunk and in the order
    of the lines, one for each addition and one for each removal; the
    line number of each is the start of the hunk in the new file plus
    the number of context lines and additions before it in the
    hunk. *)
Theorem diff_marks_additions_and_removals (pre : list jsstring)
    (hunks : list Hunk) :
  Forall preamble_ok pre →
  Forall hunk_ok hunks →
  Forall (fun h => Forall (fun l => skipped l = false) (body h)) hunks →
  additions_and_removals (get_git_diff (Some (diff_text pre hunks)))
  = concat (map (fun h => markers (new_start h) (body h)) hunks).
Proof.
  intros Hpre Hhunks Hseen.
  rewrite git_diff_changes by done. f_equal.
  induction Hseen as [|h hunks Hh _ IH]; [done|].
  apply Forall_cons in Hhunks as [_ Hhunks].
  cbn [map]. by rewrite seen_all, IH.
Qed.

Lemma diff_marks_additions_and_removals_witness :
  additions_and_removals
    (get_git_diff (Some (diff_text preamble [replaced; appended])))
  = concat (map (fun h => markers (new_start h) (body h))
              [replaced; appended]).
Proof.
  apply (diff_marks_additions_and_removals preamble [replaced; appended]).
  - apply (bool_decide_unpack _). by vm_compute.
  - repeat constructor; cbn; try done;
      apply (bool_decide_unpack _); by vm_compute.
  - repeat constructor.
Defined.

(** X20: get-git-diff.  An addition whose text begins with [++] is
    taken for the line that names the new file: in a hunk with one
    such line, the changes of the types [added] and [deleted] are
    those of the hunk without the line, so that every line after it
    has a number one less than its number in the new file. *)
Theorem addition_like_a_file_name_is_skipped (pre : list jsstring)
    (h : Hunk) (before : list DiffLine) (t : jsstring)
    (after : list DiffLine) :
  Forall preamble_ok pre →
  hunk_ok h →
  body h = before ++ Addition t :: after →
  startsWith t (js "++") = true →
  Forall (fun l => skipped l = false) (before ++ after) →
  additions_and_removals (get_git_diff (Some (diff_text pre [h])))
  = markers (new_start h) (before ++ after) ∧
  ∀ j : nat,
    new_number (new_start h) (before ++ after) (length before + j)
    = new_number (new_start h) (body h) (length before + S j) - 1.
Proof.
  intros Hpre Hh Hbody Ht Hseen. split.
  - assert (Forall hunk_ok [h]) as Hhs by by apply Forall_singleton.
    rewrite (git_diff_changes pre [h] Hpre Hhs).
    cbn [map concat]. rewrite app_nil_r, Hbody. f_equal.
    apply Forall_app in Hseen as [Hb Ha].
    unfold seen. rewrite List.filter_app. cbn [List.filter skipped].
    rewrite Ht. cbn [negb]. fold (seen before) (seen after).
    by rewrite !seen_all.
  - intros j. unfold new_number. rewrite Hbody.
    rewrite !take_app_add by done. cbn [take].
    rewrite !List.filter_app. cbn [List.filter in_new_file].
    rewrite !length_app. cbn [length]. lia.
Qed.

Lemma addition_like_a_file_name_is_skipped_witness :
  additions_and_removals (get_git_diff (Some (diff_text preamble [increment])))
  = markers (new_start increment)
      ([Context (js "{")] ++ [Addition (js "j = i;")]) ∧
  ∀ j : nat,
    new_number (new_start increment)
      ([Context (js "{")] ++ [Addition (js "j = i;")])
      (length [Context (js "{")] + j)
    = new_number (new_start increment) (body increment)
        (length [Context (js "{")] + S j) - 1.
Proof.
  apply (addition_like_a_file_name_is_skipped preamble increment
           [Context (js "{")] (js "++i;") [Addition (js "j = i;")]).
  - apply (bool_decide_unpack _). by vm_compute.
  - repeat constructor; cbn; try done;
      apply (bool_decide_unpack _); by vm_compute.
  - done.
  - done.
  - repeat constructor.
Defined.

End DiffExtras.
